(** * Watermark engine of [image_workflow.py]: a shallow embedding

    The development follows [add_watermark] (src/image_workflow.py, lines
    150-297) and the command-line defaults of [main] that feed it, and
    then the rest of the script: the names of the results, the colours of
    the command line, resizing, and the loop over the files.

    - Python integers are [Z]; [//] and [%] are [Z.div] and [Z.modulo]
      (both round toward minus infinity, as Python does).
    - Python floats are IEEE binary64 values, embedded with the Standard
      Library's executable specification [SpecFloat] (precision 53,
      exponent bound 1024): products and quotients are rounded to nearest
      even exactly as the interpreter rounds them.
    - Exceptions are an error monad that also threads the count of
      objects created so far, so that the identity test [is] can be
      modelled.
    - Pillow is not part of the repository: its entry points are the
      fields of the class [Imaging], with the few laws the proofs use.
      [print] is a field of it too: writing a line to the standard output
      can raise.
    - The file system, exiftool and the rest of what the workflow calls
      are the fields of the class [Studio]; the length of the longest
      string that the interpreter can allocate is the field of the class
      [Interpreter]. *)

From Stdlib Require Import ZArith List Bool Lia String.
From Stdlib Require Import Floats.SpecFloat.
From Stdlib Require Ascii DecimalString DecimalZ.
Import ListNotations.
Local Open Scope Z_scope.

(** ** Exceptions *)

(** Exceptions of the interpreter that the script can meet.  [IOError] is
    a second name of [OSError]. *)
Inductive exn : Type :=
| ValueError
| OverflowError
| ZeroDivisionError
| NameError
| OSError
| MemoryError
| OtherError.

(** What evaluating an expression ends in: a value or an exception. *)
Inductive result (A : Type) : Type :=
| Ok (a : A)
| Raise (e : exn).
Arguments Ok {A} a.
Arguments Raise {A} e.

(** ** Binary64 arithmetic as Python performs it *)

Module Float.

Definition prec : Z := 53.
Definition emax : Z := 1024.

Definition float : Type := spec_float.

(** [float(n)] for an integer [n]: the nearest double, ties to even.  The
    interpreter raises OverflowError when [n] is beyond the doubles. *)
Definition of_Z (n : Z) : float := binary_normalize prec emax n 0 false.

Definition float_of_int (n : Z) : result float :=
  match of_Z n with
  | S754_infinity _ => Raise OverflowError
  | f => Ok f
  end.

Definition mul : float -> float -> float := SFmul prec emax.
Definition div : float -> float -> float := SFdiv prec emax.

(** [x / y] on floats: ZeroDivisionError on a zero divisor. *)
Definition truediv (x y : float) : result float :=
  match y with
  | S754_zero _ => Raise ZeroDivisionError
  | _ => Ok (div x y)
  end.

(** [a / b] on integers: the exact quotient rounded once to the nearest
    double (CPython's [long_true_divide]). *)
Definition int_truediv (a b : Z) : result float :=
  if b =? 0 then Raise ZeroDivisionError
  else
    let neg := xorb (a <? 0) (b <? 0) in
    if a =? 0 then Ok (S754_zero neg)
    else
      let '(q, e, l) := SFdiv_core_binary prec emax (Z.abs a) 0 (Z.abs b) 0 in
      match binary_round_aux prec emax neg q e l with
      | S754_infinity _ => Raise OverflowError
      | f => Ok f
      end.

(** [int(x)]: truncation toward zero; ValueError on a NaN, OverflowError
    on an infinity. *)
Definition trunc_mag (m : positive) (e : Z) : Z :=
  match e with
  | Z0 => Zpos m
  | Zpos p => Zpos m * 2 ^ Zpos p
  | Zneg p => Zpos m / 2 ^ Zpos p
  end.

Definition to_int (x : float) : result Z :=
  match x with
  | S754_nan => Raise ValueError
  | S754_infinity _ => Raise OverflowError
  | S754_zero _ => Ok 0
  | S754_finite s m e => Ok (if s then - trunc_mag m e else trunc_mag m e)
  end.

(** [x > 1] and the like. *)
Definition ltb : float -> float -> bool := SFltb.
Definition eqb : float -> float -> bool := SFeqb.

(** The literal [0.1]: the double 0x3FB999999999999A. *)
Definition one_tenth : float := S754_finite false 7205759403792794 (-56).

(** [n * x] with an integer on the left and a float on the right. *)
Definition int_mul_float (n : Z) (x : float) : result float :=
  match float_of_int n with
  | Ok f => Ok (mul f x)
  | Raise e => Raise e
  end.

(** The end of [binary_round_aux]: round to nearest even, renormalise
    (named for the proofs about rounding). *)
Definition finish (m : Z) (e : Z) (l : location) : float :=
  let '(mrs, e') := shr_fexp prec emax (round_nearest_even m l) e loc_Exact in
  match shr_m mrs with
  | Z0 => S754_zero false
  | Zpos m' => if e' <=? emax - prec then S754_finite false m' e' else S754_infinity false
  | Zneg _ => S754_nan
  end.

End Float.
Export Float.

(** ** The interpreter: control flow, object identity, [range] *)

Module Py.

(** The only heap fact the code depends on is object identity ([is]), so
    the heap is the number of objects created so far and an object is
    known by its serial number. *)
Definition heap : Type := nat.

Definition M (A : Type) : Type := heap -> result A * heap.

Definition ret {A : Type} (a : A) : M A := fun h => (Ok a, h).

Definition bind {A B : Type} (c : M A) (k : A -> M B) : M B :=
  fun h =>
    match c h with
    | (Ok a, h') => k a h'
    | (Raise e, h') => (Raise e, h')
    end.

Definition raise {A : Type} (e : exn) : M A := fun h => (Raise e, h).

Definition lift {A : Type} (r : result A) : M A := fun h => (r, h).

(** [try: c except Exception as e: handler e] *)
Definition try_except {A : Type} (c : M A) (handler : exn -> M A) : M A :=
  fun h =>
    match c h with
    | (Ok a, h') => (Ok a, h')
    | (Raise e, h') => handler e h'
    end.

(** Creating an object hands out the next serial number. *)
Definition new_object : M nat := fun h => (Ok h, S h).

Declare Scope py_scope.
Delimit Scope py_scope with py.
Notation "x <- c ;; k" := (bind c (fun x => k))
  (at level 61, c at next level, right associativity) : py_scope.
Notation "' pat <- c ;; k" := (bind c (fun x => match x with pat => k end))
  (at level 61, pat pattern, c at next level, right associativity) : py_scope.

(** [for x in xs: s = body x s] *)
Fixpoint for_each {A S : Type} (xs : list A) (body : A -> S -> M S) (s : S) : M S :=
  match xs with
  | [] => ret s
  | x :: rest => bind (body x s) (for_each rest body)
  end.

(** [range(start, stop, step)] iterated to the end.  The fuel is the
    distance to [stop], which no run with a non-zero step exceeds. *)
Fixpoint range_up (fuel : nat) (cur stop step : Z) : list Z :=
  match fuel with
  | O => []
  | S fuel' =>
      if cur <? stop then cur :: range_up fuel' (cur + step) stop step else []
  end.

Fixpoint range_down (fuel : nat) (cur stop step : Z) : list Z :=
  match fuel with
  | O => []
  | S fuel' =>
      if stop <? cur then cur :: range_down fuel' (cur + step) stop step else []
  end.

Definition range (start stop step : Z) : result (list Z) :=
  if step =? 0 then Raise ValueError
  else if 0 <? step then Ok (range_up (Z.to_nat (stop - start)) start stop step)
  else Ok (range_down (Z.to_nat (start - stop)) start stop step).

End Py.
Export Py.
Local Open Scope py_scope.

(** The interpreter's memory, at the one place where the script builds
    a string whose length is an option of the command line (the padding
    of [zfill]): [longest_str] is the length of the longest string that
    can be allocated there; asking for a longer one ends in MemoryError. *)
Class Interpreter : Type := { longest_str : Z }.

(** ** Pillow, as far as the watermark code uses it *)

Definition rgb : Type := (Z * Z * Z)%type.
Definition rgba : Type := (Z * Z * Z * Z)%type.

Definition alpha (p : rgba) : Z := snd p.
Definition opaque (c : rgb) : rgba := (c, 255).
Definition colour (p : rgba) : rgb := fst p.

(** An image: its size and the pixel at each column [x] and row [y].
    Only the pixels with [0 <= x < width] and [0 <= y < height] exist;
    what [pix] says elsewhere is never looked at. *)
Record picture (A : Type) : Type :=
  { width : Z; height : Z; pix : Z -> Z -> A }.
Arguments width {A} p.
Arguments height {A} p.
Arguments pix {A} p x y.

Definition inside {A : Type} (p : picture A) (x y : Z) : Prop :=
  0 <= x < width p /\ 0 <= y < height p.

(** Two images are the same picture. *)
Definition same_picture {A : Type} (p q : picture A) : Prop :=
  width p = width q /\ height p = height q /\
  forall x y, inside p x y -> pix p x y = pix q x y.

(** A font face, and a font object: a face with an identity. *)
Inductive face : Type :=
| TrueType (name : string) (size : Z)
| BuiltIn.

Record font : Type := { font_face : face; ident : nat }.

(** The lines that [add_watermark] and [process_image] print, each as the
    data it is formatted from (lines 293, 296, 350, 351 and 377). *)
Inductive report : Type :=
| AddedWatermark (output_path : string)
| ErrorAddingWatermark (input_path : string) (e : exn)
| Processing (filename : string)
| OutputFilename (output_filename : string)
| CompletedProcessing (filename : string).

Class Imaging : Type :=
  { (** [Image.open(path)], decoded: the pixels, or the exception. *)
    decode : string -> result (picture rgb);
    (** [print(line)]: the line goes to the standard output, or the call
        raises (UnicodeEncodeError, which is a ValueError, when the
        output cannot encode one of its characters) *)
    print : report -> result unit;
    (** whether [save(path, "JPEG", quality=95)] goes through *)
    writable : string -> bool;
    (** [ImageFont.truetype(name, size)]: a font is built, or the call
        raises (IOError, here [OSError], when the file is not found) *)
    truetype : string -> Z -> result unit;
    (** [textbbox]/[textsize]: width and height of the rendered text *)
    textsize : face -> string -> Z * Z;
    (** the rasterised text: where its bitmap starts relative to the
        anchor, and the coverage (0..255) of each bitmap pixel *)
    glyphs : face -> string -> Z * Z * picture Z;
    (** one pixel drawn through a mask value: under, then ink *)
    mix : Z -> rgba -> rgba -> rgba;
    (** one pixel of [Image.alpha_composite]: destination, then source *)
    over : rgba -> rgba -> rgba;
    (** [Image.rotate(angle, expand=1)] *)
    rotate : Z -> picture rgba -> picture rgba;
    (** Blending an ink of alpha 0 into a pixel of alpha 0 leaves alpha 0. *)
    mix_transparent :
      forall m p q, alpha p = 0 -> alpha q = 0 -> alpha (mix m p q) = 0;
    (** A source pixel of alpha 0 leaves the destination pixel as it is. *)
    over_transparent : forall p q, alpha q = 0 -> over p q = p;
    (** Rotation moves pixels and fills the corners with transparent
        ones: it makes no alpha of its own. *)
    rotate_transparent :
      forall a im,
        (forall x y, inside im x y -> alpha (pix im x y) = 0) ->
        forall x y, inside (rotate a im) x y -> alpha (pix (rotate a im) x y) = 0 }.

(** ** Drawing on an image *)

Section Drawing.
Context {backend : Imaging}.

(** [Image.new('RGBA', (w, h), c)] *)
Definition new_image (w h : Z) (c : rgba) : picture rgba :=
  {| width := w; height := h; pix := fun _ _ => c |}.

(** [convert("RGBA")] of an RGB image, and [convert("RGB")] back. *)
Definition to_rgba (p : picture rgb) : picture rgba :=
  {| width := width p; height := height p; pix := fun x y => opaque (pix p x y) |}.

Definition to_rgb (p : picture rgba) : picture rgb :=
  {| width := width p; height := height p; pix := fun x y => colour (pix p x y) |}.

(** The pixel [(x, y)] lies in the box of size [w] by [h] whose top-left
    corner is [(x0, y0)]. *)
Definition covers (x0 y0 w h x y : Z) : bool :=
  (x0 <=? x) && (x <? x0 + w) && (y0 <=? y) && (y <? y0 + h).

(** [ImageDraw.Draw(im).text(xy, text, font=f, fill=ink)]: the ink goes
    through the text's bitmap; pixels of the bitmap that fall outside
    [im] are dropped. *)
Definition draw_text (im : picture rgba) (xy : Z * Z) (text : string)
    (f : face) (ink : rgba) : picture rgba :=
  let '(ox, oy, g) := glyphs f text in
  let x0 := fst xy + ox in
  let y0 := snd xy + oy in
  {| width := width im;
     height := height im;
     pix := fun x y =>
       if covers x0 y0 (width g) (height g) x y
       then mix (pix g (x - x0) (y - y0)) (pix im x y) ink
       else pix im x y |}.

(** [im.paste(src, xy, src)]: [src] pasted through its own alpha
    channel; the part of [src] outside [im] is dropped. *)
Definition paste (im src : picture rgba) (xy : Z * Z) : picture rgba :=
  let x0 := fst xy in
  let y0 := snd xy in
  {| width := width im;
     height := height im;
     pix := fun x y =>
       if covers x0 y0 (width src) (height src) x y
       then let s := pix src (x - x0) (y - y0) in mix (alpha s) (pix im x y) s
       else pix im x y |}.

(** [Image.alpha_composite(im, top)]: ValueError unless the sizes agree. *)
Definition alpha_composite (im top : picture rgba) : result (picture rgba) :=
  if (width im =? width top) && (height im =? height top)
  then Ok {| width := width im;
             height := height im;
             pix := fun x y => over (pix im x y) (pix top x y) |}
  else Raise ValueError.

(** One drawing call on the overlay. *)
Inductive draw_op : Type :=
| DrawText (xy : Z * Z) (text : string) (f : face) (ink : rgba)
| Paste (src : picture rgba) (xy : Z * Z).

Definition apply_op (im : picture rgba) (op : draw_op) : picture rgba :=
  match op with
  | DrawText xy text f ink => draw_text im xy text f ink
  | Paste src xy => paste im src xy
  end.

Definition render (ops : list draw_op) (im : picture rgba) : picture rgba :=
  fold_left apply_op ops im.

(** The box of pixels a drawing call can touch: corner, then size. *)
Definition footprint (op : draw_op) : Z * Z * Z * Z :=
  match op with
  | DrawText xy text f _ =>
      let '(ox, oy, g) := glyphs f text in
      (fst xy + ox, snd xy + oy, width g, height g)
  | Paste src xy => (fst xy, snd xy, width src, height src)
  end.



(** Every pixel of the image has alpha 0. *)
Definition transparent (im : picture rgba) : Prop :=
  forall x y, inside im x y -> alpha (pix im x y) = 0.

(** A drawing call that brings no alpha of its own. *)
Definition transparent_op (op : draw_op) : Prop :=
  match op with
  | DrawText _ _ _ ink => alpha ink = 0
  | Paste src _ => transparent src
  end.

End Drawing.

(** ** The program *)

(** Constants of the script (lines 28-33) that the watermark uses. *)
Definition DEFAULT_WATERMARK_OPACITY : float := S754_finite false 8106479329266893 (-54).
Definition DEFAULT_WATERMARK_FONT_SIZE : Z := 36.
Definition DEFAULT_WATERMARK_COLOR : rgb := (255, 255, 255).

(** The keyword parameters of [add_watermark] (lines 150-152). *)
Record watermark_args : Type :=
  { watermark_text : string;
    position : option (Z * Z);
    opacity : float;
    font_size : Z;
    repeat : bool;
    spacing : Z;
    angle : Z;
    font_color : rgb;
    scale_factor : option float }.

(** The defaults of the signature: [position=None, opacity=0.5,
    font_size=40, repeat=False, spacing=100, angle=0,
    font_color=(255, 255, 255), scale_factor=None]. *)
Definition signature_defaults (text : string) : watermark_args :=
  {| watermark_text := text;
     position := None;
     opacity := S754_finite false 4503599627370496 (-53);
     font_size := 40;
     repeat := false;
     spacing := 100;
     angle := 0;
     font_color := (255, 255, 255);
     scale_factor := None |}.

(** [a] with another [angle]. *)
Definition with_angle (ang : Z) (a : watermark_args) : watermark_args :=
  {| watermark_text := watermark_text a;
     position := position a;
     opacity := opacity a;
     font_size := font_size a;
     repeat := repeat a;
     spacing := spacing a;
     angle := ang;
     font_color := font_color a;
     scale_factor := scale_factor a |}.

(** What the operator typed for the watermark options of [main] (lines
    462-484): [None] where an option was left out. *)
Record command_line : Type :=
  { copyright_holder : string;
    cli_watermark_text : option string;
    cli_watermark_position : option (Z * Z);
    cli_watermark_opacity : option float;
    cli_watermark_font_size : option Z;
    cli_watermark_scale : option float;
    cli_watermark_repeat : bool;
    cli_watermark_spacing : option Z;
    cli_watermark_angle : option Z;
    cli_watermark_font_color : option rgb }.

Definition or_default {A : Type} (given : option A) (default : A) : A :=
  match given with
  | Some a => a
  | None => default
  end.

(** The arguments [main] hands down to [add_watermark] through
    [process_batch] and [process_image] (lines 497-524, 366-368). *)
Definition handed_down (c : command_line) : watermark_args :=
  {| watermark_text :=
       match cli_watermark_text c with
       | Some t => if String.eqb t EmptyString then copyright_holder c else t
       | None => copyright_holder c
       end;
     position := cli_watermark_position c;
     opacity := or_default (cli_watermark_opacity c) DEFAULT_WATERMARK_OPACITY;
     font_size := or_default (cli_watermark_font_size c) DEFAULT_WATERMARK_FONT_SIZE;
     repeat := cli_watermark_repeat c;
     spacing := or_default (cli_watermark_spacing c) 100;
     angle := or_default (cli_watermark_angle c) 0;
     font_color := or_default (cli_watermark_font_color c) DEFAULT_WATERMARK_COLOR;
     scale_factor := cli_watermark_scale c |}.

(** [parser.parse_args()] (line 495), as far as the watermark options go:
    [None] when the parser stops the program.  The two size options form
    a mutually exclusive group (lines 468-474), and the parser counts an
    option as given only when its value is not the very object that is
    its default.  [int("36")] is the interpreter's one small integer 36,
    which [DEFAULT_WATERMARK_FONT_SIZE] is as well, so a font size typed
    as 36 passes for one left out: the program stops only when a scale
    is typed together with another font size, and with 36 both values
    reach [add_watermark]. *)
Definition parse_args (c : command_line) : option watermark_args :=
  match cli_watermark_font_size c, cli_watermark_scale c with
  | Some n, Some _ =>
      if n =? DEFAULT_WATERMARK_FONT_SIZE then Some (handed_down c) else None
  | _, _ => Some (handed_down c)
  end.

Section Watermark.
Context {backend : Imaging}.

Definition font_options : list string :=
  ["arial.ttf"; "Arial.ttf"; "DejaVuSans.ttf"; "Verdana.ttf"; "times.ttf";
   "Times New Roman.ttf"]%string.

Definition one : float := of_Z 1.

(** Lines 163-166: the font size from the scale factor, a percentage of
    the smaller side: [int(base_dimension * scale_factor / 100)]. *)
Definition scaled_font_size (img_width img_height : Z) (sf : float) : result Z :=
  let base_dimension := Z.min img_width img_height in
  match int_mul_float base_dimension sf with
  | Raise e => Raise e
  | Ok p =>
      match truediv p (of_Z 100) with
      | Raise e => Raise e
      | Ok q => to_int q
      end
  end.

Definition resolve_font_size (img_width img_height : Z) (a : watermark_args) : result Z :=
  match scale_factor a with
  | Some sf => scaled_font_size img_width img_height sf
  | None => Ok (font_size a)
  end.

(** [ImageFont.load_default()] builds a font object at every call: Pillow
    decodes its embedded bitmap font into a new [ImageFont] and keeps no
    copy of it, so two calls never return the same object. *)
Definition load_default : M font :=
  n <- new_object ;; ret {| font_face := BuiltIn; ident := n |}.

Definition load_truetype (name : string) (size : Z) : M font :=
  match truetype name size with
  | Ok _ => n <- new_object ;; ret {| font_face := TrueType name size; ident := n |}
  | Raise e => raise e
  end.

(** [except IOError: continue] *)
Definition except_IOError {A : Type} (c : M A) (handler : M A) : M A :=
  fun h =>
    match c h with
    | (Raise OSError, h') => handler h'
    | r => r
    end.

(** Lines 182-187: the first font of the list that loads. *)
Fixpoint try_fonts (names : list string) (size : Z) : M (option font) :=
  match names with
  | [] => ret None
  | font_name :: rest =>
      except_IOError
        (f <- load_truetype font_name size ;; ret (Some f))
        (try_fonts rest size)
  end.

(** Lines 169-198: the font, the scale ratio and the font size that the
    rest of the function goes on with. *)
Definition select_font (font_size : Z) : M (font * float * Z) :=
  try_except
    (found <- try_fonts font_options font_size ;;
     match found with
     | Some f => ret (f, one, font_size)
     | None =>
         f <- load_default ;;
         if 40 <? font_size
         then scale_ratio <- lift (int_truediv font_size 40) ;; ret (f, scale_ratio, 40)
         else ret (f, one, font_size)
     end)
    (fun _ => f <- load_default ;; ret (f, one, font_size)).

(** Whether every font of the list is missing at this size (each
    [truetype] call raises IOError). *)
Definition font_missing (size : Z) (name : string) : bool :=
  match truetype name size with
  | Raise OSError => true
  | _ => false
  end.

Definition fonts_missing (size : Z) : bool := forallb (font_missing size) font_options.

(** [font is ImageFont.load_default()]: the right-hand side is a call, so
    a font object is built and the identities are compared. *)
Definition is_load_default (f : font) : M bool :=
  d <- load_default ;; ret (Nat.eqb (ident f) (ident d)).

(** Line 211: the alpha of the ink, [int(255 * opacity)]. *)
Definition text_alpha (opacity : float) : result Z :=
  match int_mul_float 255 opacity with
  | Raise e => Raise e
  | Ok x => to_int x
  end.

(** [int(n * scale_ratio)] (line 217). *)
Definition scaled_dimension (n : Z) (scale_ratio : float) : result Z :=
  match int_mul_float n scale_ratio with
  | Raise e => Raise e
  | Ok x => to_int x
  end.

(** Lines 214-224: the stamp for the built-in font, when the identity
    test and [scale_ratio > 1] both hold. *)
Definition manual_scaling (f : font) (scale_ratio : float) (text : string)
    (text_width text_height : Z) (text_color : rgba) : M (option (picture rgba)) :=
  d <- is_load_default f ;;
  if d && ltb one scale_ratio
  then
    w <- lift (scaled_dimension text_width scale_ratio) ;;
    h <- lift (scaled_dimension text_height scale_ratio) ;;
    ret (Some (draw_text (new_image w h (0, 0, 0, 0)) (0, 0) text (font_face f) text_color))
  else ret None.

(** Lines 227-228: [spacing = int(spacing * (font_size / 40))]. *)
Definition scaled_spacing (spacing font_size : Z) : result Z :=
  match int_truediv font_size 40 with
  | Raise e => Raise e
  | Ok r =>
      match int_mul_float spacing r with
      | Raise e => Raise e
      | Ok x => to_int x
      end
  end.

Definition adjust_spacing (a : watermark_args) (font_size : Z) : result Z :=
  match repeat a, scale_factor a with
  | true, Some _ => scaled_spacing (spacing a) font_size
  | _, _ => Ok (spacing a)
  end.

(** Lines 266-271 and 278-283: the stamp is pasted when the identity
    test and [scale_ratio > 1] both hold, the text is drawn otherwise.
    [temp_img] is bound only if lines 214-224 ran. *)
Definition place (f : font) (scale_ratio : float) (temp_img : option (picture rgba))
    (text : string) (text_color : rgba) (xy : Z * Z) : M draw_op :=
  d <- is_load_default f ;;
  if d && ltb one scale_ratio
  then
    match temp_img with
    | Some t => ret (Paste t xy)
    | None => raise NameError
    end
  else ret (DrawText xy text (font_face f) text_color).

(** Two nested [for] loops over [range]s; the inner range is built anew
    in every row.  [column x y] is the x-coordinate used for the pair. *)
Definition tile {S : Type} (y_start y_stop y_step x_start x_stop x_step : Z)
    (column : Z -> Z -> Z) (body : Z * Z -> S -> M S) (s : S) : M S :=
  ys <- lift (range y_start y_stop y_step) ;;
  for_each ys
    (fun y s =>
       xs <- lift (range x_start x_stop x_step) ;;
       for_each xs (fun x s => body (column x y, y) s) s)
    s.

(** Lines 261-264: the grid of the pattern that is not rotated. *)
Definition grid {S : Type} (img_width img_height text_width text_height spacing : Z)
    (body : Z * Z -> S -> M S) (s : S) : M S :=
  tile (- text_height) img_height (spacing + text_height)
       (- text_width) img_width (spacing + text_width)
       (fun x y => x + ((y / (spacing + text_height)) mod 2) * ((spacing + text_width) / 2))
       body s.

(** Lines 250-257: the tiling of the rotated pattern. *)
Definition rotated_tiling {S : Type} (img_width img_height txt_width txt_height spacing : Z)
    (body : Z * Z -> S -> M S) (s : S) : M S :=
  let pattern_width := txt_width + spacing in
  let pattern_height := txt_height + spacing in
  tile (- pattern_height) (img_height + pattern_height) pattern_height
       (- pattern_width) (img_width + pattern_width) pattern_width
       (fun x y => x - ((y / pattern_height) mod 2) * (pattern_width / 2))
       body s.

(** Line 234: [int(max(text_width, text_height) * 0.1)]. *)
Definition rotation_padding (text_width text_height : Z) : result Z :=
  match int_mul_float (Z.max text_width text_height) one_tenth with
  | Raise e => Raise e
  | Ok x => to_int x
  end.

(** Lines 235-247: the padded text image, rotated once. *)
Definition rotated_stamp (f : font) (scale_ratio : float) (temp_img : option (picture rgba))
    (text : string) (text_color : rgba) (text_width text_height angle : Z)
    : M (picture rgba) :=
  padding <- lift (rotation_padding text_width text_height) ;;
  let txt_img :=
    draw_text
      (new_image (text_width + padding * 2) (text_height + padding * 2) (255, 255, 255, 0))
      (padding, padding) text (font_face f) text_color in
  d <- is_load_default f ;;
  txt_img <-
    (if d && ltb one scale_ratio
     then
       match temp_img with
       | Some t => ret (paste txt_img t (padding, padding))
       | None => raise NameError
       end
     else ret txt_img) ;;
  ret (rotate angle txt_img).

(** The placement plan of a tiling: the anchors in the order in which
    the loops reach them. *)
Definition record_anchor (xy : Z * Z) (seen : list (Z * Z)) : M (list (Z * Z)) :=
  ret (seen ++ [xy]).

Definition grid_plan (img_width img_height text_width text_height spacing : Z)
    : result (list (Z * Z)) :=
  fst (grid img_width img_height text_width text_height spacing record_anchor [] O).

Definition rotated_plan (img_width img_height txt_width txt_height spacing : Z)
    : result (list (Z * Z)) :=
  fst (rotated_tiling img_width img_height txt_width txt_height spacing record_anchor [] O).

(** Line 275: the default position, bottom right with a margin of 20. *)
Definition default_position (img_width img_height text_width text_height : Z) : Z * Z :=
  (img_width - text_width - 20, img_height - text_height - 20).

(** Lines 162-283: everything between opening the image and compositing,
    as the list of the drawing calls made on the overlay, in order.  The
    spacing that the tiling used is returned with it. *)
Definition watermark_ops (img_width img_height : Z) (a : watermark_args)
    : M (list draw_op * Z) :=
  font_size <- lift (resolve_font_size img_width img_height a) ;;
  ' (f, scale_ratio, font_size) <- select_font font_size ;;
  let text := watermark_text a in
  let '(text_width, text_height) := textsize (font_face f) text in
  a255 <- lift (text_alpha (opacity a)) ;;
  let text_color : rgba := (font_color a, a255) in
  temp_img <- manual_scaling f scale_ratio text text_width text_height text_color ;;
  let '(text_width, text_height) :=
    match temp_img with
    | Some t => (width t, height t)
    | None => (text_width, text_height)
    end in
  spacing <- lift (adjust_spacing a font_size) ;;
  let draw xy ops :=
    op <- place f scale_ratio temp_img text text_color xy ;; ret (ops ++ [op]) in
  ops <-
    (if repeat a
     then
       if negb (angle a =? 0)
       then
         txt_img <- rotated_stamp f scale_ratio temp_img text text_color
                      text_width text_height (angle a) ;;
         rotated_tiling img_width img_height (width txt_img) (height txt_img) spacing
           (fun xy ops => ret (ops ++ [Paste txt_img xy])) []
       else grid img_width img_height text_width text_height spacing draw []
     else
       draw (or_default (position a)
               (default_position img_width img_height text_width text_height)) []) ;;
  ret (ops, spacing).

(** Lines 154-294, the body of the [try]. *)
Definition add_watermark_body (input_path output_path : string) (a : watermark_args)
    : M (picture rgb) :=
  src <- lift (decode input_path) ;;
  let img := to_rgba src in
  let overlay := new_image (width img) (height img) (255, 255, 255, 0) in
  ' (ops, _) <- watermark_ops (width img) (height img) a ;;
  watermarked <- lift (alpha_composite img (render ops overlay)) ;;
  let watermarked := to_rgb watermarked in
  if writable output_path then ret watermarked else raise OSError.

(** Lines 295-297, the handler: the failure is printed and False
    returned; what [print] raises there goes to the caller. *)
Definition report_failure (input_path : string) (e : exn) : result bool :=
  match print (ErrorAddingWatermark input_path e) with
  | Ok _ => Ok false
  | Raise e' => Raise e'
  end.

(** Lines 293-294, still inside the [try]: when the line cannot be
    printed the handler takes over, the file being written already. *)
Definition report_success (input_path output_path : string) : result bool :=
  match print (AddedWatermark output_path) with
  | Ok _ => Ok true
  | Raise e => report_failure input_path e
  end.

(** [add_watermark]: what the call returns or raises, and the picture
    saved under [output_path] if one was saved. *)
Definition add_watermark (input_path output_path : string) (a : watermark_args)
    : heap -> result bool * option (picture rgb) * heap :=
  fun h =>
    match add_watermark_body input_path output_path a h with
    | (Ok out, h') => (report_success input_path output_path, Some out, h')
    | (Raise e, h') => (report_failure input_path e, None, h')
    end.

(** Both lines of a call can be printed. *)
Definition lines_printable (input_path output_path : string) : Prop :=
  print (AddedWatermark output_path) = Ok tt /\
  forall e, print (ErrorAddingWatermark input_path e) = Ok tt.

(** What [add_watermark] saves when the drawing calls [ops] were made. *)
Definition finished (src : picture rgb) (ops : list draw_op) : picture rgb :=
  let img := to_rgba src in
  let overlay := new_image (width img) (height img) (255, 255, 255, 0) in
  to_rgb
    {| width := width img;
       height := height img;
       pix := fun x y => over (pix img x y) (pix (render ops overlay) x y) |}.

End Watermark.

(** ** Closed forms used to state the plans *)

(** [start, start + step, ...]: the first [n] terms. *)
Definition progression (start step : Z) (n : nat) : list Z :=
  map (fun k => start + Z.of_nat k * step) (seq 0 n).

(** How many terms of the progression lie below [stop], for a positive
    step: the ceiling of [(stop - start) / step], or 0. *)
Definition count (start stop step : Z) : nat :=
  Z.to_nat ((stop - start + step - 1) / step).

(** The grid of the pattern that is not rotated.  Rows are numbered from
    0 at [y = - stamp_h]; the row at height [y] starts at [- stamp_w] when
    [floor (y / row_step)] is even and half a column step further right
    when it is odd; every row holds the same number of anchors, one
    column step apart. *)
Definition staggered_grid (canvas_w canvas_h stamp_w stamp_h s : Z) : list (Z * Z) :=
  let column_step := s + stamp_w in
  let row_step := s + stamp_h in
  flat_map
    (fun i =>
       let y := - stamp_h + Z.of_nat i * row_step in
       let row_start :=
         if Z.even (y / row_step) then - stamp_w else - stamp_w + column_step / 2 in
       map (fun j => (row_start + Z.of_nat j * column_step, y))
         (seq 0 (count (- stamp_w) canvas_w column_step)))
    (seq 0 (count (- stamp_h) canvas_h row_step)).

(** The tiling of the rotated pattern, as the code lays it out: rows and
    columns start one whole pattern cell (stamp plus spacing) before the
    canvas and run to one cell past it; rows whose [floor (y / cell_h)] is
    odd lie half a cell further LEFT. *)
Definition rotated_grid (canvas_w canvas_h stamp_w stamp_h s : Z) : list (Z * Z) :=
  let cell_w := stamp_w + s in
  let cell_h := stamp_h + s in
  flat_map
    (fun i =>
       let y := - cell_h + Z.of_nat i * cell_h in
       let row_start :=
         if Z.even (y / cell_h) then - cell_w else - cell_w - cell_w / 2 in
       map (fun j => (row_start + Z.of_nat j * cell_w, y))
         (seq 0 (count (- cell_w) (canvas_w + cell_w) cell_w)))
    (seq 0 (count (- cell_h) (canvas_h + cell_h) cell_h)).

(** The tiling of the rotated pattern as the specification words it:
    [y] from [- stamp_h] to [canvas_h + stamp_h], [x] from [- stamp_w] to
    [canvas_w + stamp_w], odd rows shifted right by half the step. *)
Definition specified_rotated_grid (canvas_w canvas_h stamp_w stamp_h s : Z)
    : list (Z * Z) :=
  let cell_w := stamp_w + s in
  let cell_h := stamp_h + s in
  flat_map
    (fun i =>
       let y := - stamp_h + Z.of_nat i * cell_h in
       let row_start :=
         if Z.even (y / cell_h) then - stamp_w else - stamp_w + cell_w / 2 in
       map (fun j => (row_start + Z.of_nat j * cell_w, y))
         (seq 0 (count (- stamp_w) (canvas_w + stamp_w) cell_w)))
    (seq 0 (count (- stamp_h) (canvas_h + stamp_h) cell_h)).

(** The anchors two nested loops reach: row by row, each row left to
    right. *)
Definition cells (column : Z -> Z -> Z) (ys xs : list Z) : list (Z * Z) :=
  flat_map (fun y => map (fun x => (column x y, y)) xs) ys.

(** ** A stand-in for Pillow, for running the model on examples

    Integer blending as in Pillow's C code, block glyphs, and turns by
    whole quarter turns (the angle is rounded down to a multiple of 90).
    It is used to run examples only; the theorems hold for every
    [Imaging]. *)

Module Reference.

Definition clip8 (v : Z) : Z := Z.max 0 (Z.min 255 v).

Definition shift_div255 (a : Z) : Z := Z.shiftr (Z.shiftr a 8 + a) 8.

Definition muldiv255 (a b : Z) : Z := shift_div255 (a * b + 128).

Definition blend8 (mask under ink : Z) : Z :=
  muldiv255 under (255 - mask) + muldiv255 ink mask.

Definition blend (mask : Z) (under ink : rgba) : rgba :=
  let '(r1, g1, b1, a1) := under in
  let '(r2, g2, b2, a2) := ink in
  (blend8 mask r1 (clip8 r2), blend8 mask g1 (clip8 g2),
   blend8 mask b1 (clip8 b2), blend8 mask a1 (clip8 a2)).

Definition composite (dst src : rgba) : rgba :=
  let '(dr, dg, db, da) := dst in
  let '(sr, sg, sb, sa) := src in
  if sa =? 0 then dst
  else
    let outa255 := sa * 255 + da * (255 - sa) in
    let coef1 := sa * 255 * 255 * 128 / outa255 in
    let coef2 := 255 * 128 - coef1 in
    let channel s d := Z.shiftr (shift_div255 (s * coef1 + d * coef2 + 128 * 128)) 7 in
    (channel sr dr, channel sg dg, channel sb db, shift_div255 (outa255 + 128)).

Definition quarter_turn (im : picture rgba) : picture rgba :=
  {| width := height im;
     height := width im;
     pix := fun x y => pix im (width im - 1 - y) x |}.

Definition turn (angle : Z) (im : picture rgba) : picture rgba :=
  match (angle / 90) mod 4 with
  | 1 => quarter_turn im
  | 2 => quarter_turn (quarter_turn im)
  | 3 => quarter_turn (quarter_turn (quarter_turn im))
  | _ => im
  end.

Definition text_box (f : face) (text : string) : Z * Z :=
  match f with
  | TrueType _ size => (size * Z.of_nat (String.length text) / 2, size)
  | BuiltIn => (6 * Z.of_nat (String.length text), 11)
  end.

Definition block_glyphs (f : face) (text : string) : Z * Z * picture Z :=
  let '(w, h) := text_box f text in
  (0, 0, {| width := w; height := h; pix := fun _ _ => 255 |}).

Definition installed_font (installed : list string) (name : string) (size : Z) : result unit :=
  if existsb (String.eqb name) installed then Ok tt else Raise OSError.

(** A standard output that takes every line, and one that takes ASCII
    only: there the lines with a check mark or a cross raise
    UnicodeEncodeError, and so does a name with a byte beyond ASCII. *)
Definition any_line (line : report) : result unit := Ok tt.



(** The stand-in, for a machine with the standard output [console] and
    the fonts [installed], and a disk on which every path holds the
    picture [canvas].  The three laws: blending 0 into 0 gives 0; a
    source pixel of alpha 0 changes nothing; a quarter turn only moves
    pixels. *)
Definition pillow_on_console (console : report -> result unit) (installed : list string)
    (canvas : picture rgb) : Imaging.
Proof.
  refine {| decode := fun _ => Ok canvas;
            print := console;
            writable := fun _ => true;
            truetype := installed_font installed;
            textsize := text_box;
            glyphs := block_glyphs;
            mix := blend;
            over := composite;
            rotate := turn;
            mix_transparent := _;
            over_transparent := _;
            rotate_transparent := _ |}.
  - intros m [[[r1 g1] b1] a1] [[[r2 g2] b2] a2]. simpl.
    intros -> ->. unfold blend8, muldiv255. rewrite !Z.mul_0_l. reflexivity.
  - intros [[[r1 g1] b1] a1] [[[r2 g2] b2] a2]. simpl. intros ->. reflexivity.
  - assert (Q : forall im : picture rgba,
               (forall x y, inside im x y -> alpha (pix im x y) = 0) ->
               forall x y, inside (quarter_turn im) x y ->
                           alpha (pix (quarter_turn im) x y) = 0).
    { intros im T x y [Hx Hy]. simpl in *. apply T. split; lia. }
    intros angle im T. unfold turn.
    destruct ((angle / 90) mod 4) as [|[[|[]|]|[]|]|]; auto.
Defined.

Definition pillow : list string -> picture rgb -> Imaging := pillow_on_console any_line.

(** A plain grey picture. *)
Definition grey (w h : Z) : picture rgb :=
  {| width := w; height := h; pix := fun _ _ => (128, 128, 128) |}.

End Reference.

(** ** Runs on the stand-in *)

Module Examples.
Import Reference.

(** A 200 x 100 grey canvas on a machine with no font of the list. *)
Definition bare : Imaging := pillow [] (grey 200 100).

(** The same canvas where [DejaVuSans.ttf] is installed. *)
Definition with_dejavu : Imaging := pillow ["DejaVuSans.ttf"%string] (grey 200 100).


(** An interpreter with room for a string of 2^31 characters. *)
Definition laptop : Interpreter := {| longest_str := 2 ^ 31 |}.

Definition half : float := S754_finite false 4503599627370496 (-53).

(** [add_watermark(..., "AB", position, opacity, font_size, repeat,
    spacing, angle, (255, 255, 255), scale_factor)] *)
Definition call (position : option (Z * Z)) (opacity : float) (font_size : Z)
    (repeat : bool) (spacing angle : Z) (scale_factor : option float) : watermark_args :=
  {| watermark_text := "AB";
     position := position;
     opacity := opacity;
     font_size := font_size;
     repeat := repeat;
     spacing := spacing;
     angle := angle;
     font_color := (255, 255, 255);
     scale_factor := scale_factor |}.

(** A repeating pattern with the default spacing. *)
Definition tiled : watermark_args := call None half 36 true 100 0 None.

(** The same, turned by 90 degrees. *)
Definition turned : watermark_args := call None half 36 true 100 90 None.

(** One mark at the default position. *)
Definition single : watermark_args := call None half 36 false 100 0 None.


(** One mark, asked for at font size 80. *)
Definition oversized : watermark_args := call None half 80 false 100 0 None.

(** A repeating pattern with opacity 0. *)
Definition invisible : watermark_args := call None (of_Z 0) 36 true 100 0 None.

(** A repeating pattern sized at 10 percent of the smaller side. *)
Definition scaled_tiled : watermark_args := call None half 36 true 100 0 (Some (of_Z 10)).


Definition builtin_font (n : nat) : font := {| font_face := BuiltIn; ident := n |}.

(** What the operator typed: nothing but the holder's name. *)
Definition bare_command_line : command_line :=
  {| copyright_holder := "AB";
     cli_watermark_text := None;
     cli_watermark_position := None;
     cli_watermark_opacity := None;
     cli_watermark_font_size := None;
     cli_watermark_scale := None;
     cli_watermark_repeat := false;
     cli_watermark_spacing := None;
     cli_watermark_angle := None;
     cli_watermark_font_color := None |}.

End Examples.

(** ** Strings, numerals and paths as the script uses them

    A Python [str] is held as its UTF-8 bytes.  The characters the script
    looks for (['.'], ['/'], [','], ['_'], the digits, the letters of the
    file extensions) are ASCII, and no byte of a longer UTF-8 sequence is
    an ASCII byte, so searching and cutting give the same result on the
    bytes as on the characters. *)

Module Str.
Import Ascii.

(** [s.lower()], as far as the script depends on it: the ASCII capitals
    become small letters.  (Python also maps capitals outside ASCII; none
    of them becomes a letter of an extension the script tests for.) *)
Definition lower_char (a : ascii) : ascii :=
  let n := nat_of_ascii a in
  if ((65 <=? n) && (n <=? 90))%nat then ascii_of_nat (n + 32) else a.

Fixpoint lower (s : string) : string :=
  match s with
  | EmptyString => EmptyString
  | String a rest => String (lower_char a) (lower rest)
  end.

(** [s[:n]] and [s[n:]] for [0 <= n]. *)
Fixpoint take (n : nat) (s : string) : string :=
  match n, s with
  | S n', String a rest => String a (take n' rest)
  | _, _ => EmptyString
  end.

Fixpoint drop (n : nat) (s : string) : string :=
  match n, s with
  | S n', String _ rest => drop n' rest
  | _, _ => s
  end.

(** [s.endswith(suffix)] *)
Definition endswith (s suffix : string) : bool :=
  (String.length suffix <=? String.length s)%nat &&
  String.eqb (drop (String.length s - String.length suffix) s) suffix.

(** [s.rfind(c)]: the last index of [c], or [None] where Python answers -1. *)
Fixpoint rfind (c : ascii) (s : string) : option nat :=
  match s with
  | EmptyString => None
  | String a rest =>
      match rfind c rest with
      | Some i => Some (S i)
      | None => if Ascii.eqb a c then Some O else None
      end
  end.

(** [s.split(sep)] for a separator of one character: never empty. *)
Fixpoint split (sep : ascii) (s : string) : list string :=
  match s with
  | EmptyString => [EmptyString]
  | String a rest =>
      if Ascii.eqb a sep then EmptyString :: split sep rest
      else
        match split sep rest with
        | field :: fields => String a field :: fields
        | [] => [String a EmptyString]
        end
  end.

(** [str(n)] for an integer: decimal digits, a minus sign in front of a
    negative number.  (Interpreters from 3.11 on refuse to print an
    integer of more than 4300 digits; [printable] says that [n] has no
    more.) *)
Definition str (n : Z) : string := DecimalString.NilZero.string_of_int (Z.to_int n).

Definition printable (n : Z) : Prop := Z.abs n < 10 ^ 4300.

(** The digits of [str(n)], the sign apart. *)
Definition digits_of (n : Z) : string :=
  DecimalString.NilZero.string_of_uint
    (match Z.to_int n with Decimal.Pos u => u | Decimal.Neg u => u end).

(** A character of a numeral: a digit or the minus sign. *)
Definition numeral_char (a : ascii) : bool :=
  let n := nat_of_ascii a in ((48 <=? n) && (n <=? 57) || (n =? 45))%nat.

Fixpoint zeros (k : nat) : string :=
  match k with
  | O => EmptyString
  | S k' => String "0" (zeros k')
  end.

(** The padding of [s.zfill(width)]: zeros on the left up to [width]
    characters, after the sign if [s] starts with one. *)
Definition pad (s : string) (width : Z) : string :=
  let len := Z.of_nat (String.length s) in
  if width <=? len then s
  else
    let fill := zeros (Z.to_nat (width - len)) in
    match s with
    | String a rest =>
        if Ascii.eqb a "+" || Ascii.eqb a "-"
        then String a (fill ++ rest)
        else (fill ++ s)%string
    | EmptyString => fill
    end.

(** [s.zfill(width)]: the width is taken as a C [Py_ssize_t], 64 bits
    wide here, and an integer that does not fit raises OverflowError
    before anything is padded.  A string that is long enough is handed
    back as it is; otherwise one of [width] characters is allocated. *)
Definition zfill {interpreter : Interpreter} (s : string) (width : Z) : result string :=
  if (- 2 ^ 63 <=? width) && (width <? 2 ^ 63)
  then
    if width <=? Z.of_nat (String.length s) then Ok s
    else if longest_str <? width then Raise MemoryError
    else Ok (pad s width)
  else Raise OverflowError.

(** A width that [zfill] can pad to. *)
Definition paddable {interpreter : Interpreter} (width : Z) : Prop :=
  - 2 ^ 63 <= width < 2 ^ 63 /\ width <= longest_str.

(** The integer that a string of digits with an optional minus sign
    denotes, zeros in front allowed. *)
Definition decimal_value (s : string) : option Z :=
  option_map Z.of_int (DecimalString.NilEmpty.int_of_string s).

Definition comma : ascii := ",".
Definition underscore : ascii := "_".
Definition dot : ascii := ".".
Definition slash : ascii := "/".

(** The characters of a string, and whether [c] is one of them. *)
Fixpoint chars (s : string) : list ascii :=
  match s with
  | EmptyString => []
  | String a rest => a :: chars rest
  end.

Definition contains (c : ascii) (s : string) : bool :=
  existsb (Ascii.eqb c) (chars s).

End Str.

(** ** [os.path], POSIX flavour *)

Module Path.
Import Ascii.

(** [os.path.splitext(p)] ([genericpath._splitext] with separator ['/']
    and extension separator ['.']): the extension starts at the last dot,
    provided that dot comes after the last separator and some character
    between the two is not a dot. *)
Definition splitext (p : string) : string * string :=
  let sepIndex := Str.rfind "/" p in
  match Str.rfind "." p with
  | None => (p, EmptyString)
  | Some dotIndex =>
      let filenameIndex :=
        match sepIndex with
        | Some i => S i
        | None => O
        end in
      if (filenameIndex <=? dotIndex)%nat &&
         existsb (fun a => negb (Ascii.eqb a "."))
           (Str.chars (Str.take (dotIndex - filenameIndex) (Str.drop filenameIndex p)))
      then (Str.take dotIndex p, Str.drop dotIndex p)
      else (p, EmptyString)
  end.

(** [os.path.join(a, b)] *)
Definition join (a b : string) : string :=
  match b with
  | String "/" _ => b
  | _ =>
      if (String.length a =? 0)%nat || Str.endswith a "/"
      then (a ++ b)%string
      else (a ++ "/" ++ b)%string
  end.

End Path.

(** ** File names of the results (lines 299-322) *)

(** [if text:] on an optional string: [None] and the empty string are
    both false. *)
Definition is_given (text : option string) : bool :=
  match text with
  | Some (String _ _) => true
  | _ => false
  end.

Definition text_of (text : option string) : string :=
  match text with
  | Some t => t
  | None => EmptyString
  end.

Definition generate_output_filename {interpreter : Interpreter} (original_filename : string)
    (prepend_text append_text : option string) (enumerate_files : bool)
    (enum_counter : option Z) (enum_padding : Z) : result string :=
  let '(base_name, extension) := Path.splitext original_filename in
  let new_name := base_name in
  let new_name :=
    if is_given prepend_text then (text_of prepend_text ++ new_name)%string
    else new_name in
  match
    match enumerate_files, enum_counter with
    | true, Some n =>
        match Str.zfill (Str.str n) enum_padding with
        | Ok enum_str => Ok (new_name ++ "_" ++ enum_str)%string
        | Raise e => Raise e
        end
    | _, _ => Ok new_name
    end
  with
  | Raise e => Raise e
  | Ok new_name =>
      let new_name :=
        if is_given append_text then (new_name ++ text_of append_text)%string
        else new_name in
      Ok (new_name ++ ".jpg")%string
  end.

(** ** Colours on the command line (lines 428-438) *)

(** What a [type=] function of [argparse] ends in. *)
Inductive argument (A : Type) : Type :=
| Parsed (a : A)
| ArgumentTypeError (message : string).
Arguments Parsed {A} a.
Arguments ArgumentTypeError {A} message.

Section Colours.
(** [int(s)] on a string: the number, or ValueError. *)
Variable int_of_str : string -> option Z.

(** [map(int, fields)]: the numbers, or the first ValueError. *)
Fixpoint map_int (fields : list string) : option (list Z) :=
  match fields with
  | [] => Some []
  | field :: rest =>
      match int_of_str field with
      | None => None
      | Some n =>
          match map_int rest with
          | None => None
          | Some ns => Some (n :: ns)
          end
      end
  end.

(** [max(0, min(255, r))] *)
Definition clamp_channel (r : Z) : Z := Z.max 0 (Z.min 255 r).

(** [r, g, b = map(int, color_str.split(','))]: [int] refusing a field
    and the unpacking of anything but three values are both a ValueError,
    which the handler turns into the ArgumentTypeError. *)
Definition parse_color (color_str : string) : argument rgb :=
  match map_int (Str.split Str.comma color_str) with
  | Some [r; g; b] => Parsed (clamp_channel r, clamp_channel g, clamp_channel b)
  | _ =>
      ArgumentTypeError
        "Color must be in the format 'R,G,B' (e.g. '255,0,0' for red)"
  end.

End Colours.

(** ** Resizing: the new dimensions (lines 80-92) *)

(** [int(side * (max_dimension / longest))]: the quotient of the two
    integers is rounded to a double first, then the product. *)
Definition scale_side (side max_dimension longest : Z) : result Z :=
  match int_truediv max_dimension longest with
  | Raise e => Raise e
  | Ok ratio =>
      match int_mul_float side ratio with
      | Raise e => Raise e
      | Ok x => to_int x
      end
  end.

Definition new_dimensions (original_width original_height max_dimension : Z)
    : result (Z * Z) :=
  if original_height <? original_width
  then
    if max_dimension <? original_width
    then
      match scale_side original_height max_dimension original_width with
      | Raise e => Raise e
      | Ok new_height => Ok (max_dimension, new_height)
      end
    else Ok (original_width, original_height)
  else
    if max_dimension <? original_height
    then
      match scale_side original_width max_dimension original_height with
      | Raise e => Raise e
      | Ok new_width => Ok (new_width, max_dimension)
      end
    else Ok (original_width, original_height).

(** ** The file system, Pillow and exiftool, as far as the workflow
    touches them *)

Module Sys.

(** A computation that may raise and that changes a state [S] (the file
    system). *)
Definition IO (S A : Type) : Type := S -> result A * S.

Definition ret {S A : Type} (a : A) : IO S A := fun w => (Ok a, w).

Definition bind {S A B : Type} (c : IO S A) (k : A -> IO S B) : IO S B :=
  fun w =>
    match c w with
    | (Ok a, w') => k a w'
    | (Raise e, w') => (Raise e, w')
    end.

Definition lift {S A : Type} (r : result A) : IO S A := fun w => (r, w).

(** Reading the state without changing it. *)
Definition read {S A : Type} (f : S -> result A) : IO S A := fun w => (f w, w).

(** [try: c except Exception: handler] *)
Definition try_except {S A : Type} (c : IO S A) (handler : exn -> IO S A) : IO S A :=
  fun w =>
    match c w with
    | (Ok a, w') => (Ok a, w')
    | (Raise e, w') => handler e w'
    end.

Fixpoint for_each {S A : Type} (xs : list A) (body : A -> IO S unit) : IO S unit :=
  match xs with
  | [] => ret tt
  | x :: rest => bind (body x) (fun _ => for_each rest body)
  end.

End Sys.

Declare Scope io_scope.
Delimit Scope io_scope with io.
Notation "x <- c ;; k" := (Sys.bind c (fun x => k))
  (at level 61, c at next level, right associativity) : io_scope.
Notation "' pat <- c ;; k" := (Sys.bind c (fun x => match x with pat => k end))
  (at level 61, pat pattern, c at next level, right associativity) : io_scope.

(** What the script calls outside itself.  [world] is the state of the
    file system; [photo] is an opened [Image], of whatever mode. *)
Class Studio : Type :=
  { world : Type;
    photo : Type;
    (** whether [import pillow_heif] went through (lines 20-24) *)
    HEIC_SUPPORT : bool;
    (** [Image.open(path)] *)
    image_open : string -> world -> result photo;
    (** [pillow_heif.read_heif(path)] handed to [Image.frombytes] *)
    read_heif : string -> world -> result photo;
    (** [image.mode == 'RGB'] and [image.convert('RGB')] *)
    mode_is_RGB : photo -> bool;
    convert_RGB : photo -> result photo;
    (** [image.size] *)
    size : photo -> Z * Z;
    (** [image.resize((w, h), Image.LANCZOS)] *)
    resize : photo -> Z * Z -> result photo;
    (** [image.save(path, "JPEG", quality=95)] *)
    save : photo -> string -> world -> result unit * world;
    (** [shutil.copy2(src, dst)] *)
    copy2 : string -> string -> world -> result unit * world;
    (** [subprocess.run(cmd, capture_output=True, text=True)]: the return
        code of the command *)
    run : list string -> world -> result Z * world;
    (** [datetime.datetime.now().year] *)
    current_year : world -> result Z;
    (** [os.path.exists], [os.remove], [os.makedirs(d, exist_ok=True)],
        [os.listdir], [os.path.isfile] *)
    path_exists : string -> world -> bool;
    remove : string -> world -> result unit * world;
    makedirs : string -> world -> result unit * world;
    listdir : string -> world -> result (list string);
    isfile : string -> world -> bool;
    (** Pillow as [add_watermark] meets it on this file system, and the
        file system once [add_watermark] has returned, with the picture it
        saved at the path or with none *)
    pillow_at : world -> Imaging;
    watermark_saved : string -> option (picture rgb) -> world -> world;
    (** A file that was removed is not there any more, and removing a
        file brings no other file into being. *)
    remove_removes :
      forall p w w', remove p w = (Ok tt, w') -> path_exists p w' = false;
    remove_keeps_absent :
      forall p q w w',
        remove p w = (Ok tt, w') -> path_exists q w = false -> path_exists q w' = false }.

Module Workflow.
Section Steps.
Context {interpreter : Interpreter} {studio : Studio}.
Local Open Scope io_scope.

(** Lines 41-72.  (The lines that the three steps before the watermark
    print are left out.) *)
Definition convert_to_jpg (input_path output_path : string) : Sys.IO world bool :=
  Sys.try_except
    (opened <-
       (if Str.endswith (Str.lower input_path) ".heic" ||
           Str.endswith (Str.lower input_path) ".heif"
        then
          if HEIC_SUPPORT
          then (image <- Sys.read (read_heif input_path) ;; Sys.ret (Some image))
          else Sys.ret None
        else (image <- Sys.read (image_open input_path) ;; Sys.ret (Some image))) ;;
     match opened with
     | None => Sys.ret false
     | Some image =>
         image <- (if negb (mode_is_RGB image)
                   then Sys.lift (convert_RGB image)
                   else Sys.ret image) ;;
         _ <- save image output_path ;;
         Sys.ret true
     end)
    (fun _ => Sys.ret false).

(** Lines 74-108. *)
Definition resize_image (input_path output_path : string) (max_dimension : Z)
    : Sys.IO world bool :=
  Sys.try_except
    (image <- Sys.read (image_open input_path) ;;
     let '(original_width, original_height) := size image in
     ' (new_width, new_height) <-
       Sys.lift (new_dimensions original_width original_height max_dimension) ;;
     if negb ((new_width =? original_width) && (new_height =? original_height))
     then
       resized_image <- Sys.lift (resize image (new_width, new_height)) ;;
       _ <- save resized_image output_path ;;
       Sys.ret true
     else
       _ <- copy2 input_path output_path ;;
       Sys.ret true)
    (fun _ => Sys.ret false).

(** Line 120. *)
Definition copyright_string (year : Z) (copyright_holder : string) : string :=
  ("Copyright © " ++ Str.str year ++ " " ++ copyright_holder ++
   ". All rights reserved.")%string.

(** Lines 124-136. *)
Definition exiftool_command (image_path copyright_holder : string) (year : Z)
    : list string :=
  let notice := copyright_string year copyright_holder in
  ["exiftool";
   "-overwrite_original";
   "-Copyright=" ++ notice;
   "-CopyrightNotice=" ++ notice;
   "-XMP:Rights=" ++ notice;
   "-IPTC:CopyrightNotice=" ++ notice;
   "-EXIF:Copyright=" ++ notice;
   "-IPTC:Credit=" ++ copyright_holder;
   "-IPTC:By-line=" ++ copyright_holder;
   "-XMP:Creator=" ++ copyright_holder;
   image_path]%string.

(** Lines 110-148. *)
Definition add_copyright (image_path copyright_holder : string) (year : option Z)
    : Sys.IO world bool :=
  year <-
    match year with
    | Some y => Sys.ret y
    | None => Sys.try_except (Sys.read current_year) (fun _ => Sys.ret 2025)
    end ;;
  Sys.try_except
    (returncode <- run (exiftool_command image_path copyright_holder year) ;;
     Sys.ret (returncode =? 0))
    (fun _ => Sys.ret false).

(** [add_watermark] on the file system: the objects it makes do not
    outlive the call, so their serial numbers start anew. *)
Definition add_watermark_to (input_path output_path : string) (a : watermark_args)
    : Sys.IO world bool :=
  fun w =>
    let '(outcome, saved, _) :=
      add_watermark (backend := pillow_at w) input_path output_path a O in
    (outcome, watermark_saved output_path saved w).

(** [print(line)] in the workflow: the standard output is the one that
    [add_watermark] prints to. *)
Definition say (line : report) : Sys.IO world unit :=
  fun w => (print (Imaging := pillow_at w) line, w).

(** The arguments that [main] hands to [process_batch] and that
    [process_batch] hands on to [process_image]. *)
Record options : Type :=
  { input_dir : string;
    working_dir : string;
    output_dir : string;
    max_dimension : Z;
    copyright_holder : string;
    year : option Z;
    watermark : watermark_args;
    prepend_text : option string;
    append_text : option string;
    enumerate_files : bool;
    enum_start : Z;
    enum_padding : Z }.

(** The paths of lines 332-348. *)
Definition input_path (o : options) (filename : string) : string :=
  Path.join (input_dir o) filename.

Definition working_jpg_path (o : options) (filename : string) : string :=
  Path.join (working_dir o) (fst (Path.splitext filename) ++ ".jpg").

Definition resized_jpg_path (o : options) (filename : string) : string :=
  Path.join (working_dir o) (fst (Path.splitext filename) ++ "_resized.jpg").

Definition output_filename (o : options) (filename : string) (enum_counter : option Z)
    : result string :=
  generate_output_filename filename (prepend_text o) (append_text o)
    (enumerate_files o) enum_counter (enum_padding o).

Definition final_path (o : options) (filename : string) (enum_counter : option Z)
    : result string :=
  match output_filename o filename enum_counter with
  | Ok name => Ok (Path.join (output_dir o) name)
  | Raise e => Raise e
  end.

(** [if os.path.exists(path): os.remove(path)] *)
Definition remove_if_exists (path : string) : Sys.IO world unit :=
  fun w => if path_exists path w then remove path w else (Ok tt, w).

(** Lines 324-378.  The name of the result is made before anything
    else, outside any [try]. *)
Definition process_image (filename : string) (o : options) (enum_counter : option Z)
    : Sys.IO world bool :=
  name <- Sys.lift (output_filename o filename enum_counter) ;;
  let final_path := Path.join (output_dir o) name in
  _ <- say (Processing filename) ;;
  _ <- say (OutputFilename name) ;;
  converted <- convert_to_jpg (input_path o filename) (working_jpg_path o filename) ;;
  if negb converted then Sys.ret false
  else
    resized <- resize_image (working_jpg_path o filename) (resized_jpg_path o filename)
                 (max_dimension o) ;;
    if negb resized then Sys.ret false
    else
      signed <- add_copyright (resized_jpg_path o filename) (copyright_holder o) (year o) ;;
      if negb signed then Sys.ret false
      else
        marked <- add_watermark_to (resized_jpg_path o filename) final_path (watermark o) ;;
        if negb marked then Sys.ret false
        else
          _ <- remove_if_exists (working_jpg_path o filename) ;;
          _ <- remove_if_exists (resized_jpg_path o filename) ;;
          _ <- say (CompletedProcessing filename) ;;
          Sys.ret true.

(** Lines 35-39. *)
Definition create_directories (input_dir working_dir output_dir : string)
    : Sys.IO world unit :=
  Sys.for_each [input_dir; working_dir; output_dir] (fun directory => makedirs directory).

(** Line 390: the extensions looked for when [file_types] is left out,
    as [main] leaves it. *)
Definition file_types : list string :=
  [".jpg"; ".jpeg"; ".png"; ".tiff"; ".tif"; ".gif"; ".bmp"; ".heic"; ".heif"]%string.

(** [any(f.lower().endswith(ext) for ext in file_types)] *)
Definition has_image_extension (f : string) : bool :=
  existsb (fun ext => Str.endswith (Str.lower f) ext) file_types.

(** Lines 396-398. *)
Definition image_files (input_dir : string) (names : list string) (w : world)
    : list string :=
  filter (fun f => isfile (Path.join input_dir f) w && has_image_extension f) names.

End Steps.

(** Lines 407-423: the loop over the files, with the call of
    [process_image] as a parameter; it returns [success_count] and
    [enum_counter]. *)
Fixpoint process_files {S : Type} (process : string -> option Z -> Sys.IO S bool)
    (enumerate_files : bool) (files : list string) (success_count enum_counter : Z)
    : Sys.IO S (Z * Z) :=
  match files with
  | [] => Sys.ret (success_count, enum_counter)
  | filename :: rest =>
      let current_enum := if enumerate_files then Some enum_counter else None in
      Sys.bind (process filename current_enum)
        (fun ok =>
           if ok
           then
             process_files process enumerate_files rest (success_count + 1)
               (if enumerate_files then enum_counter + 1 else enum_counter)
           else process_files process enumerate_files rest success_count enum_counter)
  end.

Section Batch.
Context {interpreter : Interpreter} {studio : Studio}.
Local Open Scope io_scope.

(** Lines 380-426.  The function returns nothing; the model returns what
    it prints at the end: [None] for "No image files found", otherwise
    the number of successes and the number of files. *)
Definition process_batch (o : options) : Sys.IO world (option (Z * Z)) :=
  _ <- create_directories (input_dir o) (working_dir o) (output_dir o) ;;
  names <- Sys.read (listdir (input_dir o)) ;;
  files <- (fun w => (Ok (image_files (input_dir o) names w), w)) ;;
  match files with
  | [] => Sys.ret None
  | _ =>
      ' (success_count, _) <-
        process_files (fun filename current_enum => process_image filename o current_enum)
          (enumerate_files o) files 0 (enum_start o) ;;
      Sys.ret (Some (success_count, Z.of_nat (List.length files)))
  end.

End Batch.

(** The loop with a record kept of every call of [process]: the file,
    the counter it was given, and what it returned. *)
Definition logged {S : Type} (process : string -> option Z -> Sys.IO S bool)
    : string -> option Z -> Sys.IO (S * list (string * option Z * bool)) bool :=
  fun filename current_enum '(w, log) =>
    match process filename current_enum w with
    | (Ok ok, w') => (Ok ok, (w', log ++ [(filename, current_enum, ok)]))
    | (Raise e, w') => (Raise e, (w', log))
    end.

(** How many of the recorded calls returned True. *)
Definition successes (log : list (string * option Z * bool)) : nat :=
  List.length (filter (fun entry => snd entry) log).

End Workflow.

(** ** A file system in memory, for running the workflow on examples

    Files hold decoded pictures, directories are implicit, exiftool
    always succeeds, and there is no HEIC support.  It is used to run
    examples only; the theorems hold for every [Studio]. *)

Module Bench.

Definition files : Type := list (string * picture rgb).

Definition lookup (path : string) (w : files) : option (picture rgb) :=
  match find (fun entry => String.eqb (fst entry) path) w with
  | Some entry => Some (snd entry)
  | None => None
  end.

Definition present (path : string) (w : files) : bool :=
  existsb (fun entry => String.eqb (fst entry) path) w.

Definition without (path : string) (w : files) : files :=
  filter (fun entry => negb (String.eqb (fst entry) path)) w.

Definition write (path : string) (p : picture rgb) (w : files) : files :=
  (path, p) :: without path w.

Definition open (path : string) (w : files) : result (picture rgb) :=
  match lookup path w with
  | Some p => Ok p
  | None => Raise OSError
  end.

(** Nearest-neighbour sampling stands in for the Lanczos filter. *)
Definition resample (p : picture rgb) (new_size : Z * Z) : result (picture rgb) :=
  let '(w, h) := new_size in
  if (0 <? w) && (0 <? h)
  then Ok {| width := w;
             height := h;
             pix := fun x y => pix p (x * width p / w) (y * height p / h) |}
  else Raise ValueError.

Definition delete (path : string) (w : files) : result unit * files :=
  if present path w then (Ok tt, without path w) else (Raise OSError, w).

Definition copy (src dst : string) (w : files) : result unit * files :=
  match lookup src w with
  | Some p => (Ok tt, write dst p w)
  | None => (Raise OSError, w)
  end.

(** The names in a directory: the paths that start with it and a slash. *)
Definition names_in (directory : string) (w : files) : list string :=
  flat_map
    (fun entry =>
       let prefix := (directory ++ "/")%string in
       if String.prefix prefix (fst entry)
       then [Str.drop (String.length prefix) (fst entry)]
       else [])
    w.

(** Pillow on these files: [Reference.pillow] with [Image.open] reading
    the file. *)
Definition pillow_on (w : files) : Imaging :=
  let base := Reference.pillow [] (Reference.grey 1 1) in
  {| decode := fun path => open path w;
     print := @print base;
     writable := fun _ => true;
     truetype := @truetype base;
     textsize := @textsize base;
     glyphs := @glyphs base;
     mix := @mix base;
     over := @over base;
     rotate := @rotate base;
     mix_transparent := @mix_transparent base;
     over_transparent := @over_transparent base;
     rotate_transparent := @rotate_transparent base |}.

(** The file system. *)
Definition studio : Studio.
Proof.
  refine {| world := files;
            photo := picture rgb;
            HEIC_SUPPORT := false;
            image_open := open;
            read_heif := open;
            mode_is_RGB := fun _ => true;
            convert_RGB := fun p => Ok p;
            size := fun p => (width p, height p);
            resize := resample;
            save := fun p path w => (Ok tt, write path p w);
            copy2 := copy;
            run := fun _ w => (Ok 0, w);
            current_year := fun _ => Ok 2025;
            path_exists := present;
            remove := delete;
            makedirs := fun _ w => (Ok tt, w);
            listdir := fun directory w => Ok (names_in directory w);
            isfile := present;
            pillow_at := pillow_on;
            watermark_saved := fun path saved w =>
                                 match saved with
                                 | Some p => write path p w
                                 | None => w
                                 end;
            remove_removes := _;
            remove_keeps_absent := _ |}.
  - intros p w w'.
    unfold delete. destruct (present p w); intros E; inversion E.
    unfold present, without. clear. induction w as [|entry w IH]; simpl; [reflexivity|].
    destruct (String.eqb (fst entry) p) eqn:X; simpl; [exact IH|].
    rewrite X. exact IH.
  - intros p q w w'.
    unfold delete. destruct (present p w); intros E; inversion E.
    unfold present, without. clear. induction w as [|entry w IH]; simpl; [reflexivity|].
    intros H. apply orb_false_iff in H. destruct H as [H1 H2].
    destruct (String.eqb (fst entry) p); simpl; [|rewrite H1]; apply IH; exact H2.
Defined.

(** A 4000 x 3000 photograph and a small drawing in the directory [in]. *)
Definition shelf : files :=
  [("in/photo.png"%string, Reference.grey 4000 3000);
   ("in/sketch.gif"%string, Reference.grey 300 200);
   ("in/notes.txt"%string, Reference.grey 1 1)].

Definition plain_options : Workflow.options :=
  {| Workflow.input_dir := "in";
     Workflow.working_dir := "work";
     Workflow.output_dir := "out";
     Workflow.max_dimension := 1024;
     Workflow.copyright_holder := "AB";
     Workflow.year := Some 2024;
     Workflow.watermark := Examples.single;
     Workflow.prepend_text := None;
     Workflow.append_text := None;
     Workflow.enumerate_files := false;
     Workflow.enum_start := 1;
     Workflow.enum_padding := 0 |}.

(** The same, with the results numbered from 1 on three digits. *)
Definition numbered_options : Workflow.options :=
  {| Workflow.input_dir := "in";
     Workflow.working_dir := "work";
     Workflow.output_dir := "out";
     Workflow.max_dimension := 1024;
     Workflow.copyright_holder := "AB";
     Workflow.year := Some 2024;
     Workflow.watermark := Examples.single;
     Workflow.prepend_text := Some "web_"%string;
     Workflow.append_text := None;
     Workflow.enumerate_files := true;
     Workflow.enum_start := 1;
     Workflow.enum_padding := 3 |}.

(** The working directory is also the output directory. *)
Definition shared_options : Workflow.options :=
  {| Workflow.input_dir := "in";
     Workflow.working_dir := "out";
     Workflow.output_dir := "out";
     Workflow.max_dimension := 1024;
     Workflow.copyright_holder := "AB";
     Workflow.year := Some 2024;
     Workflow.watermark := Examples.single;
     Workflow.prepend_text := None;
     Workflow.append_text := None;
     Workflow.enumerate_files := false;
     Workflow.enum_start := 1;
     Workflow.enum_padding := 0 |}.

(** The working directory is also the input directory. *)
Definition in_place_options : Workflow.options :=
  {| Workflow.input_dir := "in";
     Workflow.working_dir := "in";
     Workflow.output_dir := "out";
     Workflow.max_dimension := 1024;
     Workflow.copyright_holder := "AB";
     Workflow.year := None;
     Workflow.watermark := Examples.single;
     Workflow.prepend_text := None;
     Workflow.append_text := None;
     Workflow.enumerate_files := false;
     Workflow.enum_start := 1;
     Workflow.enum_padding := 0 |}.


End Bench.

(** ** Facts about [range] and the loops *)

Lemma progression_cons (start step : Z) (n : nat) :
  progression start step (S n) = start :: progression (start + step) step n.
Proof.
  unfold progression. simpl. f_equal.
  - lia.
  - rewrite <- seq_shift, map_map. apply map_ext. intros k. lia.
Qed.

Lemma count_zero (start stop step : Z) :
  0 < step -> stop <= start -> count start stop step = O.
Proof.
  intros Hs Hle. unfold count.
  assert ((stop - start + step - 1) / step <= 0).
  { apply Z.lt_succ_r. apply Z.div_lt_upper_bound; lia. }
  lia.
Qed.

Lemma count_succ (start stop step : Z) :
  0 < step -> start < stop ->
  count start stop step = S (count (start + step) stop step).
Proof.
  intros Hs Hlt. unfold count.
  replace (stop - start + step - 1) with ((stop - (start + step) + step - 1) + 1 * step) by lia.
  rewrite Z.div_add by lia.
  assert (0 <= (stop - (start + step) + step - 1) / step).
  { apply Z.div_pos; lia. }
  rewrite Z2Nat.inj_add by lia. simpl. lia.
Qed.

Lemma range_up_progression (fuel : nat) (cur stop step : Z) :
  0 < step -> stop - cur <= Z.of_nat fuel ->
  range_up fuel cur stop step = progression cur step (count cur stop step).
Proof.
  intros Hs. revert cur.
  induction fuel as [|fuel IH]; intros cur Hf.
  - rewrite count_zero by lia. reflexivity.
  - simpl. destruct (cur <? stop) eqn:E.
    + apply Z.ltb_lt in E.
      rewrite count_succ, progression_cons by lia.
      f_equal. apply IH. lia.
    + apply Z.ltb_ge in E. rewrite count_zero by lia. reflexivity.
Qed.

(** With a positive step, [range] is the progression below [stop]. *)
Lemma range_positive_step (start stop step : Z) :
  0 < step ->
  range start stop step = Ok (progression start step (count start stop step)).
Proof.
  intros Hs. unfold range.
  destruct (step =? 0) eqn:E0; [apply Z.eqb_eq in E0; lia|].
  destruct (0 <? step) eqn:E1; [|apply Z.ltb_ge in E1; lia].
  f_equal. apply range_up_progression; lia.
Qed.

Lemma range_zero_step (start stop : Z) : range start stop 0 = Raise ValueError.
Proof. reflexivity. Qed.

Lemma range_down_empty (fuel : nat) (cur stop step : Z) :
  cur <= stop -> range_down fuel cur stop step = [].
Proof.
  intros H. destruct fuel; simpl; [reflexivity|].
  destruct (stop <? cur) eqn:E; [apply Z.ltb_lt in E; lia|reflexivity].
Qed.

(** With a negative step and [start <= stop], [range] is empty. *)
Lemma range_negative_step_empty (start stop step : Z) :
  step < 0 -> start <= stop -> range start stop step = Ok [].
Proof.
  intros Hs Hle. unfold range.
  destruct (step =? 0) eqn:E0; [apply Z.eqb_eq in E0; lia|].
  destruct (0 <? step) eqn:E1; [apply Z.ltb_lt in E1; lia|].
  f_equal. apply range_down_empty. exact Hle.
Qed.
Lemma bind_ok {A B : Type} (c : M A) (k : A -> M B) (h h' : heap) (a : A) :
  c h = (Ok a, h') -> bind c k h = k a h'.
Proof. intros E. unfold bind. rewrite E. reflexivity. Qed.


Lemma bind_lift_ok {A B : Type} (r : result A) (k : A -> M B) (h : heap) (a : A) :
  r = Ok a -> bind (lift r) k h = k a h.
Proof. intros E. subst r. reflexivity. Qed.

Lemma bind_lift_raise {A B : Type} (r : result A) (k : A -> M B) (h : heap) (e : exn) :
  r = Raise e -> bind (lift r) k h = (Raise e, h).
Proof. intros E. subst r. reflexivity. Qed.

Section Loops.
Context {B : Type}.
(** What holds of the heap around every call of the body. *)
Variable P : heap -> Prop.
Variable body : Z * Z -> list B -> M (list B).
Variable g : Z * Z -> B.
Hypothesis body_appends :
  forall xy s h, P h -> exists h', body xy s h = (Ok (s ++ [g xy]), h') /\ P h'.

Lemma for_each_appends {A : Type} (k : A -> Z * Z) (xs : list A) :
  forall s h, P h ->
  exists h',
    for_each xs (fun x s => body (k x) s) s h = (Ok (s ++ map (fun x => g (k x)) xs), h')
    /\ P h'.
Proof.
  induction xs as [|x xs IH]; intros s h Hh; simpl.
  - exists h. rewrite app_nil_r. split; [reflexivity|exact Hh].
  - destruct (body_appends (k x) s h Hh) as (h1 & E1 & H1).
    destruct (IH (s ++ [g (k x)]) h1 H1) as (h2 & E2 & H2).
    exists h2. split; [|exact H2].
    rewrite (bind_ok _ _ _ _ _ E1), E2. rewrite <- app_assoc. reflexivity.
Qed.

Lemma tile_appends (y0 y1 dy x0 x1 dx : Z) (column : Z -> Z -> Z) (ys xs : list Z) :
  range y0 y1 dy = Ok ys -> range x0 x1 dx = Ok xs ->
  forall s h, P h ->
  exists h',
    tile y0 y1 dy x0 x1 dx column body s h = (Ok (s ++ map g (cells column ys xs)), h')
    /\ P h'.
Proof.
  intros Ey Ex s h Hh. unfold tile. rewrite (bind_lift_ok _ _ _ _ Ey). clear Ey.
  revert s h Hh. induction ys as [|y ys IH]; intros s h Hh.
  - exists h. simpl. rewrite app_nil_r. split; [reflexivity|exact Hh].
  - cbn [for_each].
    destruct (for_each_appends (fun x => (column x y, y)) xs s h Hh) as (h1 & E1 & H1).
    destruct (IH (s ++ map (fun x => g (column x y, y)) xs) h1 H1) as (h2 & E2 & H2).
    exists h2. split; [|exact H2].
    erewrite bind_ok; [|rewrite (bind_lift_ok _ _ _ _ Ex); exact E1].
    rewrite E2. cbn [cells flat_map]. rewrite map_app, app_assoc, map_map. reflexivity.
Qed.


End Loops.

Lemma record_anchor_appends (xy : Z * Z) (s : list (Z * Z)) (h : heap) :
  True -> exists h', record_anchor xy s h = (Ok (s ++ [(fun c => c) xy]), h') /\ True.
Proof. intros _. exists h. split; [reflexivity|exact I]. Qed.

Lemma tile_plan (y0 y1 dy x0 x1 dx : Z) (column : Z -> Z -> Z) (ys xs : list Z) :
  range y0 y1 dy = Ok ys -> range x0 x1 dx = Ok xs ->
  fst (tile y0 y1 dy x0 x1 dx column record_anchor [] O) = Ok (cells column ys xs).
Proof.
  intros Ey Ex.
  destruct (tile_appends (fun _ => True) record_anchor (fun c => c) record_anchor_appends
              y0 y1 dy x0 x1 dx column ys xs Ey Ex [] O I) as (h' & E & _).
  rewrite E. simpl. rewrite map_id. reflexivity.
Qed.

Lemma flat_map_map {A C D : Type} (f : C -> list D) (k : A -> C) (l : list A) :
  flat_map f (map k l) = flat_map (fun a => f (k a)) l.
Proof.
  induction l as [|a l IH]; simpl; [reflexivity|]. rewrite IH. reflexivity.
Qed.

Lemma cells_progressions (column : Z -> Z -> Z) (y0 dy x0 dx : Z) (n m : nat) :
  cells column (progression y0 dy n) (progression x0 dx m) =
  flat_map
    (fun i =>
       let y := y0 + Z.of_nat i * dy in
       map (fun j => (column (x0 + Z.of_nat j * dx) y, y)) (seq 0 m))
    (seq 0 n).
Proof.
  unfold cells, progression. rewrite flat_map_map.
  apply flat_map_ext. intros i. cbv zeta. rewrite map_map. reflexivity.
Qed.

Lemma parity_mod_2 (r : Z) : r mod 2 = if Z.even r then 0 else 1.
Proof. apply Zmod_even. Qed.

(** The plans in closed form. *)
Lemma grid_plan_closed_form (canvas_w canvas_h stamp_w stamp_h s : Z) :
  0 < s + stamp_w -> 0 < s + stamp_h ->
  grid_plan canvas_w canvas_h stamp_w stamp_h s =
  Ok (staggered_grid canvas_w canvas_h stamp_w stamp_h s).
Proof.
  intros Hw Hh. unfold grid_plan, grid.
  rewrite (tile_plan _ _ _ _ _ _ _ _ _
             (range_positive_step _ _ _ Hh) (range_positive_step _ _ _ Hw)).
  f_equal. rewrite cells_progressions. unfold staggered_grid. cbv zeta.
  apply flat_map_ext. intros i. apply map_ext. intros j.
  rewrite parity_mod_2. f_equal.
  destruct (Z.even ((- stamp_h + Z.of_nat i * (s + stamp_h)) / (s + stamp_h))); lia.
Qed.

Lemma rotated_plan_closed_form (canvas_w canvas_h stamp_w stamp_h s : Z) :
  0 < stamp_w + s -> 0 < stamp_h + s ->
  rotated_plan canvas_w canvas_h stamp_w stamp_h s =
  Ok (rotated_grid canvas_w canvas_h stamp_w stamp_h s).
Proof.
  intros Hw Hh. unfold rotated_plan, rotated_tiling. cbv zeta.
  rewrite (tile_plan _ _ _ _ _ _ _ _ _
             (range_positive_step _ _ _ Hh) (range_positive_step _ _ _ Hw)).
  f_equal. rewrite cells_progressions. unfold rotated_grid. cbv zeta.
  apply flat_map_ext. intros i. apply map_ext. intros j.
  rewrite parity_mod_2. f_equal.
  destruct (Z.even ((- (stamp_h + s) + Z.of_nat i * (stamp_h + s)) / (stamp_h + s))); lia.
Qed.

(** ** Font selection and the identity test *)

Section FontFacts.
Context {backend : Imaging}.

Lemma try_fonts_fresh (names : list string) (size : Z) (h : heap) :
  forall f h', try_fonts names size h = (Ok (Some f), h') -> (ident f < h')%nat.
Proof.
  revert h. induction names as [|name names IH]; intros h f h' E.
  - discriminate E.
  - cbn [try_fonts] in E. unfold except_IOError, bind, load_truetype in E.
    destruct (truetype name size) as [[]|e].
    + unfold new_object, ret in E. inversion E; subst. simpl. lia.
    + unfold raise in E. destruct e; try discriminate E. eapply IH; exact E.
Qed.

(** [select_font] never raises, and the font it returns is older than
    every object created afterwards. *)
Lemma select_font_total (size : Z) (h : heap) :
  exists f scale_ratio size' h',
    select_font size h = (Ok (f, scale_ratio, size'), h') /\ (ident f < h')%nat.
Proof.
  unfold select_font, try_except, bind at 1.
  destruct (try_fonts font_options size h) as [[[f|]|e] h1] eqn:E.
  - exists f, one, size, h1. split; [reflexivity|]. eapply try_fonts_fresh; exact E.
  - unfold bind, load_default, new_object, ret, lift.
    destruct (40 <? size).
    + destruct (int_truediv size 40) as [r|e].
      * eexists _, r, 40, _. split; [reflexivity|]. simpl. lia.
      * eexists _, one, size, _. split; [reflexivity|]. simpl. lia.
    + eexists _, one, size, _. split; [reflexivity|]. simpl. lia.
  - unfold bind, load_default, new_object, ret.
    eexists _, one, size, _. split; [reflexivity|]. simpl. lia.
Qed.

Lemma select_font_fresh (size : Z) (h : heap) (f : font) (r : float) (size' : Z) (h' : heap) :
  select_font size h = (Ok (f, r, size'), h') -> (ident f < h')%nat.
Proof.
  intros E. destruct (select_font_total size h) as (f0 & r0 & s0 & h0 & E0 & F).
  rewrite E in E0. inversion E0; subst. exact F.
Qed.

(** The identity test against a font built on the spot is false for
    every font that exists already. *)
Lemma is_load_default_fresh (f : font) (h : heap) :
  (ident f < h)%nat -> is_load_default f h = (Ok false, S h).
Proof.
  intros F. unfold is_load_default, bind, load_default, new_object, ret. simpl.
  destruct (Nat.eqb_spec (ident f) h); [lia|reflexivity].
Qed.

Lemma manual_scaling_skipped (f : font) (r : float) (text : string) (w h : Z)
    (ink : rgba) (hp : heap) :
  (ident f < hp)%nat -> manual_scaling f r text w h ink hp = (Ok None, S hp).
Proof.
  intros F. unfold manual_scaling.
  rewrite (bind_ok _ _ _ _ _ (is_load_default_fresh f hp F)). reflexivity.
Qed.

Lemma place_draws_text (f : font) (r : float) (temp : option (picture rgba))
    (text : string) (ink : rgba) (xy : Z * Z) (hp : heap) :
  (ident f < hp)%nat ->
  place f r temp text ink xy hp = (Ok (DrawText xy text (font_face f) ink), S hp).
Proof.
  intros F. unfold place.
  rewrite (bind_ok _ _ _ _ _ (is_load_default_fresh f hp F)). reflexivity.
Qed.

Lemma draw_appends (f : font) (r : float) (temp : option (picture rgba))
    (text : string) (ink : rgba) :
  forall xy s hp, (ident f < hp)%nat ->
  exists h',
    (op <- place f r temp text ink xy ;; ret (s ++ [op])) hp =
      (Ok (s ++ [DrawText xy text (font_face f) ink]), h')
    /\ (ident f < h')%nat.
Proof.
  intros xy s hp F. exists (S hp). split; [|lia].
  rewrite (bind_ok _ _ _ _ _ (place_draws_text f r temp text ink xy hp F)). reflexivity.
Qed.

Lemma rotated_stamp_built (f : font) (r : float) (temp : option (picture rgba))
    (text : string) (ink : rgba) (w h angle padding : Z) (hp : heap) :
  (ident f < hp)%nat -> rotation_padding w h = Ok padding ->
  rotated_stamp f r temp text ink w h angle hp =
  (Ok (rotate angle
         (draw_text (new_image (w + padding * 2) (h + padding * 2) (255, 255, 255, 0))
            (padding, padding) text (font_face f) ink)), S hp).
Proof.
  intros F Ep. unfold rotated_stamp.
  rewrite (bind_lift_ok _ _ _ _ Ep).
  rewrite (bind_ok _ _ _ _ _ (is_load_default_fresh f hp F)). reflexivity.
Qed.

End FontFacts.

(** ** The drawing calls of each mode *)

Section Modes.
Context {backend : Imaging}.

(** Once the font size, the font, the ink and the spacing are known,
    what is left of [watermark_ops] is the pattern of its mode. *)
Lemma watermark_ops_prepared (W H : Z) (a : watermark_args) (h0 h1 : heap)
    (fs fs' tw th al s : Z) (f : font) (r : float) :
  resolve_font_size W H a = Ok fs ->
  select_font fs h0 = (Ok (f, r, fs'), h1) ->
  textsize (font_face f) (watermark_text a) = (tw, th) ->
  text_alpha (opacity a) = Ok al ->
  adjust_spacing a fs' = Ok s ->
  let text := watermark_text a in
  let ink : rgba := (font_color a, al) in
  let draw xy ops := op <- place f r None text ink xy ;; ret (ops ++ [op]) in
  watermark_ops W H a h0 =
  (ops <-
     (if repeat a
      then
        if negb (angle a =? 0)
        then
          txt_img <- rotated_stamp f r None text ink tw th (angle a) ;;
          rotated_tiling W H (width txt_img) (height txt_img) s
            (fun xy ops => ret (ops ++ [Paste txt_img xy])) []
        else grid W H tw th s draw []
      else draw (or_default (position a) (default_position W H tw th)) []) ;;
   ret (ops, s)) (S h1).
Proof.
  intros Er Es Et Ea Esp text ink draw. unfold watermark_ops.
  rewrite (bind_lift_ok _ _ _ _ Er).
  rewrite (bind_ok _ _ _ _ _ Es). cbv beta iota.
  rewrite Et.
  rewrite (bind_lift_ok _ _ _ _ Ea).
  rewrite (bind_ok _ _ _ _ _
             (manual_scaling_skipped f r _ tw th _ h1 (select_font_fresh _ _ _ _ _ _ Es))).
  rewrite (bind_lift_ok _ _ _ _ Esp).
  reflexivity.
Qed.

(** Repeat mode, angle = 0, both steps positive: one text draw at each
    anchor of the staggered grid, in row order. *)
Lemma watermark_ops_grid (W H : Z) (a : watermark_args) (h0 h1 : heap)
    (fs fs' tw th al s : Z) (f : font) (r : float) :
  repeat a = true -> angle a = 0 ->
  resolve_font_size W H a = Ok fs ->
  select_font fs h0 = (Ok (f, r, fs'), h1) ->
  textsize (font_face f) (watermark_text a) = (tw, th) ->
  text_alpha (opacity a) = Ok al ->
  adjust_spacing a fs' = Ok s ->
  0 < s + tw -> 0 < s + th ->
  exists h',
    watermark_ops W H a h0 =
    (Ok (map (fun xy => DrawText xy (watermark_text a) (font_face f) (font_color a, al))
           (staggered_grid W H tw th s), s), h').
Proof.
  intros Hrep Hang Er Es Et Ea Esp Hw Hh.
  rewrite (watermark_ops_prepared W H a h0 h1 fs fs' tw th al s f r Er Es Et Ea Esp).
  rewrite Hrep, Hang. cbn [Z.eqb negb].
  pose proof (select_font_fresh _ _ _ _ _ _ Es) as F.
  destruct (tile_appends (fun h => (ident f < h)%nat) _ _
              (draw_appends f r None (watermark_text a) (font_color a, al))
              _ _ _ _ _ _
              (fun x y => x + ((y / (s + th)) mod 2) * ((s + tw) / 2)) _ _
              (range_positive_step (- th) H (s + th) Hh)
              (range_positive_step (- tw) W (s + tw) Hw)
              [] (S h1)) as (h' & E & _); [lia|].
  exists h'. unfold grid. rewrite (bind_ok _ _ _ _ _ E). cbn [app]. unfold ret.
  do 3 f_equal.
  pose proof (grid_plan_closed_form W H tw th s Hw Hh) as G.
  unfold grid_plan, grid in G.
  rewrite (tile_plan _ _ _ _ _ _ _ _ _
             (range_positive_step _ _ _ Hh) (range_positive_step _ _ _ Hw)) in G.
  inversion G as [G']. reflexivity.
Qed.

(** Repeat mode, angle <> 0, both steps positive: the one padded and
    rotated stamp pasted at each anchor of the rotated tiling. *)
Lemma watermark_ops_rotated (W H : Z) (a : watermark_args) (h0 h1 : heap)
    (fs fs' tw th al s p : Z) (f : font) (r : float) :
  repeat a = true -> angle a <> 0 ->
  resolve_font_size W H a = Ok fs ->
  select_font fs h0 = (Ok (f, r, fs'), h1) ->
  textsize (font_face f) (watermark_text a) = (tw, th) ->
  text_alpha (opacity a) = Ok al ->
  adjust_spacing a fs' = Ok s ->
  rotation_padding tw th = Ok p ->
  let stamp :=
    rotate (angle a)
      (draw_text (new_image (tw + p * 2) (th + p * 2) (255, 255, 255, 0))
         (p, p) (watermark_text a) (font_face f) (font_color a, al)) in
  0 < width stamp + s -> 0 < height stamp + s ->
  exists h',
    watermark_ops W H a h0 =
    (Ok (map (Paste stamp) (rotated_grid W H (width stamp) (height stamp) s), s), h').
Proof.
  intros Hrep Hang Er Es Et Ea Esp Ep stamp Hw Hh.
  rewrite (watermark_ops_prepared W H a h0 h1 fs fs' tw th al s f r Er Es Et Ea Esp).
  rewrite Hrep. apply Z.eqb_neq in Hang. rewrite Hang. cbn [negb].
  pose proof (select_font_fresh _ _ _ _ _ _ Es) as F.
  assert (F' : (ident f < S h1)%nat) by lia.
  pose proof (rotated_stamp_built f r None (watermark_text a) (font_color a, al)
                tw th (angle a) p (S h1) F' Ep) as Est.
  fold stamp in Est.
  destruct (tile_appends (fun _ => True)
              (fun xy ops => ret (ops ++ [Paste stamp xy])) (Paste stamp)
              (fun xy s0 h _ => ex_intro _ h (conj eq_refl I))
              _ _ _ _ _ _
              (fun x y => x - ((y / (height stamp + s)) mod 2) * ((width stamp + s) / 2)) _ _
              (range_positive_step (- (height stamp + s)) (H + (height stamp + s))
                 (height stamp + s) Hh)
              (range_positive_step (- (width stamp + s)) (W + (width stamp + s))
                 (width stamp + s) Hw)
              [] (S (S h1)) I) as (h' & E & _).
  exists h'.
  erewrite bind_ok; [|rewrite (bind_ok _ _ _ _ _ Est); unfold rotated_tiling; exact E].
  cbn [app]. unfold ret. do 3 f_equal.
  pose proof (rotated_plan_closed_form W H (width stamp) (height stamp) s Hw Hh) as G.
  unfold rotated_plan, rotated_tiling in G. cbv zeta in G.
  rewrite (tile_plan _ _ _ _ _ _ _ _ _
             (range_positive_step _ _ _ Hh) (range_positive_step _ _ _ Hw)) in G.
  inversion G as [G']. reflexivity.
Qed.

(** Without repeat: one text draw, at the explicit position or at the
    default one; the angle is not looked at. *)
Lemma watermark_ops_single (W H : Z) (a : watermark_args) (h0 h1 : heap)
    (fs fs' tw th al : Z) (f : font) (r : float) :
  repeat a = false ->
  resolve_font_size W H a = Ok fs ->
  select_font fs h0 = (Ok (f, r, fs'), h1) ->
  textsize (font_face f) (watermark_text a) = (tw, th) ->
  text_alpha (opacity a) = Ok al ->
  (exists h',
     watermark_ops W H a h0 =
     (Ok ([DrawText
             match position a with
             | Some explicit => explicit
             | None => (W - tw - 20, H - th - 20)
             end
             (watermark_text a) (font_face f) (font_color a, al)],
          spacing a), h'))
  /\ (forall ang, watermark_ops W H (with_angle ang a) h0 = watermark_ops W H a h0).
Proof.
  intros Hrep Er Es Et Ea. split.
  - assert (Esp : adjust_spacing a fs' = Ok (spacing a)).
    { unfold adjust_spacing. rewrite Hrep. reflexivity. }
    rewrite (watermark_ops_prepared W H a h0 h1 fs fs' tw th al _ f r Er Es Et Ea Esp).
    rewrite Hrep.
    pose proof (select_font_fresh _ _ _ _ _ _ Es) as F.
    assert (F' : (ident f < S h1)%nat) by lia.
    exists (S (S h1)).
    erewrite bind_ok;
      [|rewrite (bind_ok _ _ _ _ _ (place_draws_text f r None _ _ _ (S h1) F')); reflexivity].
    unfold ret, or_default, default_position. cbn [app]. reflexivity.
  - intros ang. unfold watermark_ops, resolve_font_size, adjust_spacing. cbn -[select_font].
    rewrite Hrep. reflexivity.
Qed.

End Modes.

(** ** Pixels: what a drawing call can and cannot change *)

Section Pixels.
Context {backend : Imaging}.

Lemma covers_inside (x0 y0 w h x y : Z) :
  covers x0 y0 w h x y = true -> 0 <= x - x0 < w /\ 0 <= y - y0 < h.
Proof.
  unfold covers. rewrite !andb_true_iff, !Z.leb_le, !Z.ltb_lt. lia.
Qed.


Lemma new_image_transparent (w h : Z) (c : rgba) :
  alpha c = 0 -> transparent (new_image w h c).
Proof. intros Hc x y _. exact Hc. Qed.

Lemma draw_text_size (im : picture rgba) (xy : Z * Z) (text : string) (f : face) (ink : rgba) :
  width (draw_text im xy text f ink) = width im /\
  height (draw_text im xy text f ink) = height im.
Proof. unfold draw_text. destruct (glyphs f text) as [[ox oy] g]. split; reflexivity. Qed.

Lemma draw_text_transparent (im : picture rgba) (xy : Z * Z) (text : string)
    (f : face) (ink : rgba) :
  transparent im -> alpha ink = 0 -> transparent (draw_text im xy text f ink).
Proof.
  intros T Hink x y Hin. unfold draw_text in *.
  destruct (glyphs f text) as [[ox oy] g]. simpl in *.
  destruct (covers _ _ _ _ x y).
  - apply mix_transparent; [apply T; exact Hin|exact Hink].
  - apply T. exact Hin.
Qed.

Lemma paste_transparent (im src : picture rgba) (xy : Z * Z) :
  transparent im -> transparent src -> transparent (paste im src xy).
Proof.
  intros T Ts x y Hin. unfold paste in *. simpl in *.
  destruct (covers _ _ _ _ x y) eqn:E.
  - apply covers_inside in E.
    assert (A : alpha (pix src (x - fst xy) (y - snd xy)) = 0) by (apply Ts; exact E).
    apply mix_transparent; [apply T; exact Hin|exact A].
  - apply T. exact Hin.
Qed.

Lemma apply_op_size (im : picture rgba) (op : draw_op) :
  width (apply_op im op) = width im /\ height (apply_op im op) = height im.
Proof.
  destruct op as [xy text f ink|src xy]; simpl.
  - apply draw_text_size.
  - split; reflexivity.
Qed.

Lemma render_size (ops : list draw_op) (im : picture rgba) :
  width (render ops im) = width im /\ height (render ops im) = height im.
Proof.
  revert im. induction ops as [|op ops IH]; intros im; simpl.
  - split; reflexivity.
  - destruct (IH (apply_op im op)) as [Hw Hh].
    destruct (apply_op_size im op) as [Hw' Hh'].
    unfold render in *. split; congruence.
Qed.

Lemma apply_op_transparent (im : picture rgba) (op : draw_op) :
  transparent im -> transparent_op op -> transparent (apply_op im op).
Proof.
  destruct op as [xy text f ink|src xy]; simpl; intros T Hop.
  - apply draw_text_transparent; assumption.
  - apply paste_transparent; assumption.
Qed.

Lemma render_transparent (ops : list draw_op) (im : picture rgba) :
  transparent im -> Forall transparent_op ops -> transparent (render ops im).
Proof.
  revert im. induction ops as [|op ops IH]; intros im T Hops; simpl.
  - exact T.
  - inversion Hops; subst. apply IH; [apply apply_op_transparent|]; assumption.
Qed.

(** A pixel outside the footprint of a drawing call keeps its value. *)
Lemma apply_op_outside_footprint (im : picture rgba) (op : draw_op) (x y : Z) :
  (let '(x0, y0, bw, bh) := footprint op in covers x0 y0 bw bh x y = false) ->
  pix (apply_op im op) x y = pix im x y.
Proof.
  destruct op as [xy text f ink|src xy]; simpl.
  - unfold draw_text. destruct (glyphs f text) as [[ox oy] g]. simpl.
    intros ->. reflexivity.
  - intros ->. reflexivity.
Qed.





(** Compositing an overlay without alpha gives back the picture. *)
Lemma composite_transparent_overlay (src : picture rgb) (top : picture rgba) :
  width top = width src -> height top = height src -> transparent top ->
  exists out,
    alpha_composite (to_rgba src) top = Ok out /\ same_picture (to_rgb out) src.
Proof.
  intros Hw Hh T. unfold alpha_composite. simpl.
  rewrite Hw, Hh, !Z.eqb_refl. simpl.
  eexists. split; [reflexivity|].
  split; [reflexivity|split; [reflexivity|]].
  intros x y Hin. simpl in *.
  rewrite over_transparent; [reflexivity|].
  apply T. unfold inside in *. rewrite Hw, Hh. exact Hin.
Qed.

End Pixels.

(** ** Running the whole function *)

Lemma bind_inv {A B : Type} (c : M A) (k : A -> M B) (h h' : heap) (b : B) :
  bind c k h = (Ok b, h') -> exists a h1, c h = (Ok a, h1) /\ k a h1 = (Ok b, h').
Proof.
  unfold bind. destruct (c h) as [[a|e] h1]; intros E; [|discriminate E].
  exists a, h1. split; [reflexivity|exact E].
Qed.

Section LoopInvariants.
Context {S : Type}.
Variable Q : S -> Prop.
Variable body : Z * Z -> S -> M S.
Hypothesis body_keeps :
  forall xy s h s' h', Q s -> body xy s h = (Ok s', h') -> Q s'.

Lemma for_each_keeps {A : Type} (k : A -> Z * Z) (xs : list A) :
  forall s h s' h',
    Q s -> for_each xs (fun x s => body (k x) s) s h = (Ok s', h') -> Q s'.
Proof.
  induction xs as [|x xs IH]; intros s h s' h' Hs E; simpl in E.
  - inversion E; subst. exact Hs.
  - apply bind_inv in E. destruct E as (s1 & h1 & E1 & E2).
    eapply IH; [|exact E2]. eapply body_keeps; eassumption.
Qed.

Lemma tile_keeps (y0 y1 dy x0 x1 dx : Z) (column : Z -> Z -> Z) :
  forall s h s' h',
    Q s -> tile y0 y1 dy x0 x1 dx column body s h = (Ok s', h') -> Q s'.
Proof.
  intros s h s' h' Hs E. unfold tile in E.
  apply bind_inv in E. destruct E as (ys & h1 & _ & E). clear h.
  revert s h1 Hs E. induction ys as [|y ys IH]; intros s h1 Hs E; simpl in E.
  - inversion E; subst. exact Hs.
  - apply bind_inv in E. destruct E as (s1 & h2 & E1 & E2).
    apply bind_inv in E1. destruct E1 as (xs & h3 & _ & E1).
    eapply IH; [|exact E2].
    eapply (for_each_keeps (fun x => (column x y, y))); eassumption.
Qed.

End LoopInvariants.

Section Runs.
Context {backend : Imaging}.

(** The function in one equation: nothing is saved when the image
    cannot be opened, when anything before the compositing raises, or
    when the result cannot be saved, and the handler decides what the
    caller gets; otherwise the composited picture is saved and the line
    that says so printed. *)
Lemma add_watermark_run (input_path output_path : string) (a : watermark_args) (h0 : heap) :
  add_watermark input_path output_path a h0 =
  match decode input_path with
  | Raise e => (report_failure input_path e, None, h0)
  | Ok src =>
      match watermark_ops (width src) (height src) a h0 with
      | (Raise e, h1) => (report_failure input_path e, None, h1)
      | (Ok (ops, _), h1) =>
          if writable output_path
          then (report_success input_path output_path, Some (finished src ops), h1)
          else (report_failure input_path OSError, None, h1)
      end
  end.
Proof.
  unfold add_watermark, add_watermark_body.
  destruct (decode input_path) as [src|e]; [|reflexivity].
  unfold bind at 1. unfold bind at 1. unfold lift at 1. cbv beta iota.
  unfold bind at 1.
  change (width (to_rgba src)) with (width src).
  change (height (to_rgba src)) with (height src).
  destruct (watermark_ops (width src) (height src) a h0) as [[[ops s]|e] h1];
    [|reflexivity].
  unfold bind, lift, alpha_composite.
  destruct (render_size ops (new_image (width src) (height src) (255, 255, 255, 0)))
    as [Hw Hh].
  rewrite Hw, Hh. simpl. rewrite !Z.eqb_refl. simpl.
  destruct (writable output_path); reflexivity.
Qed.

Lemma report_failure_printed (input_path : string) (e : exn) :
  print (ErrorAddingWatermark input_path e) = Ok tt -> report_failure input_path e = Ok false.
Proof. unfold report_failure. intros ->. reflexivity. Qed.

Lemma report_success_printed (input_path output_path : string) :
  print (AddedWatermark output_path) = Ok tt ->
  report_success input_path output_path = Ok true.
Proof. unfold report_success. intros ->. reflexivity. Qed.


(** With drawing calls that bring no alpha, the saved picture is the
    opened one. *)
Lemma finished_transparent (src : picture rgb) (ops : list draw_op) :
  Forall transparent_op ops -> same_picture (finished src ops) src.
Proof.
  intros T. unfold finished.
  split; [reflexivity|split; [reflexivity|]].
  intros x y Hin. simpl in *.
  rewrite over_transparent; [reflexivity|].
  apply render_transparent; [apply new_image_transparent; reflexivity|exact T|].
  destruct (render_size ops (new_image (width src) (height src) (255, 255, 255, 0)))
    as [Hw Hh].
  unfold inside. rewrite Hw, Hh. exact Hin.
Qed.

End Runs.

Section Stages.
Context {backend : Imaging}.

Lemma watermark_ops_resolve_raises (W H : Z) (a : watermark_args) (h0 : heap) (e : exn) :
  resolve_font_size W H a = Raise e -> watermark_ops W H a h0 = (Raise e, h0).
Proof.
  intros Er. unfold watermark_ops. rewrite (bind_lift_raise _ _ _ _ Er). reflexivity.
Qed.

Lemma watermark_ops_alpha_raises (W H : Z) (a : watermark_args) (h0 h1 : heap)
    (fs fs' : Z) (f : font) (r : float) (e : exn) :
  resolve_font_size W H a = Ok fs ->
  select_font fs h0 = (Ok (f, r, fs'), h1) ->
  text_alpha (opacity a) = Raise e ->
  watermark_ops W H a h0 = (Raise e, h1).
Proof.
  intros Er Es Ea. unfold watermark_ops.
  rewrite (bind_lift_ok _ _ _ _ Er).
  rewrite (bind_ok _ _ _ _ _ Es). cbv beta iota.
  destruct (textsize (font_face f) (watermark_text a)) as [tw th].
  rewrite (bind_lift_raise _ _ _ _ Ea). reflexivity.
Qed.

Lemma watermark_ops_spacing_raises (W H : Z) (a : watermark_args) (h0 h1 : heap)
    (fs fs' al : Z) (f : font) (r : float) (e : exn) :
  resolve_font_size W H a = Ok fs ->
  select_font fs h0 = (Ok (f, r, fs'), h1) ->
  text_alpha (opacity a) = Ok al ->
  adjust_spacing a fs' = Raise e ->
  watermark_ops W H a h0 = (Raise e, S h1).
Proof.
  intros Er Es Ea Esp. unfold watermark_ops.
  rewrite (bind_lift_ok _ _ _ _ Er).
  rewrite (bind_ok _ _ _ _ _ Es). cbv beta iota.
  destruct (textsize (font_face f) (watermark_text a)) as [tw th].
  rewrite (bind_lift_ok _ _ _ _ Ea).
  rewrite (bind_ok _ _ _ _ _
             (manual_scaling_skipped f r _ tw th _ h1 (select_font_fresh _ _ _ _ _ _ Es))).
  rewrite (bind_lift_raise _ _ _ _ Esp). reflexivity.
Qed.

(** Without a stamp at hand, a placement that succeeds is a text draw. *)
Lemma place_without_stamp (f : font) (r : float) (text : string) (ink : rgba)
    (xy : Z * Z) (h h' : heap) (op : draw_op) :
  place f r None text ink xy h = (Ok op, h') ->
  op = DrawText xy text (font_face f) ink.
Proof.
  unfold place, bind, is_load_default, load_default, new_object, ret, raise. simpl.
  destruct (Nat.eqb (ident f) h && ltb one r); intros E; inversion E. reflexivity.
Qed.

(** With an ink of alpha 0, no drawing call brings alpha. *)
Lemma watermark_ops_transparent (W H : Z) (a : watermark_args) (h0 h' : heap)
    (ops : list draw_op) (s : Z) :
  text_alpha (opacity a) = Ok 0 ->
  watermark_ops W H a h0 = (Ok (ops, s), h') ->
  Forall transparent_op ops.
Proof.
  intros Ea E.
  destruct (resolve_font_size W H a) as [fs|e] eqn:Er;
    [|rewrite (watermark_ops_resolve_raises _ _ _ _ _ Er) in E; discriminate E].
  destruct (select_font_total fs h0) as (f & r & fs' & h1 & Es & F).
  destruct (textsize (font_face f) (watermark_text a)) as [tw th] eqn:Et.
  destruct (adjust_spacing a fs') as [s0|e] eqn:Esp;
    [|rewrite (watermark_ops_spacing_raises _ _ _ _ _ _ _ _ _ _ _ Er Es Ea Esp) in E;
      discriminate E].
  rewrite (watermark_ops_prepared W H a h0 h1 fs fs' tw th 0 s0 f r Er Es Et Ea Esp) in E.
  apply bind_inv in E. destruct E as (ops0 & h2 & E & Eret).
  inversion Eret; subst ops0 s0 h2. clear Eret.
  assert (Hdraw : forall xy (s1 : list draw_op) h s' h3,
             Forall transparent_op s1 ->
             (op <- place f r None (watermark_text a) (font_color a, 0) xy ;;
              ret (s1 ++ [op])) h = (Ok s', h3) ->
             Forall transparent_op s').
  { intros xy s1 h s' h3 Hs Eb. apply bind_inv in Eb.
    destruct Eb as (op & h4 & Ep & Eb). inversion Eb; subst.
    apply place_without_stamp in Ep. subst op.
    apply Forall_app. split; [exact Hs|]. constructor; [reflexivity|constructor]. }
  destruct (repeat a).
  - destruct (negb (angle a =? 0)).
    + apply bind_inv in E. destruct E as (stamp & h3 & Est & E).
      destruct (rotation_padding tw th) as [p|e] eqn:Ep.
      * rewrite (rotated_stamp_built f r None _ _ tw th (angle a) p (S h1)) in Est;
          [|lia|exact Ep].
        inversion Est; subst stamp h3. clear Est.
        unfold rotated_tiling in E.
        eapply (tile_keeps (Forall transparent_op)); [|constructor|exact E].
        intros xy s1 h s' h4 Hs Eb. inversion Eb; subst.
        apply Forall_app. split; [exact Hs|]. constructor; [|constructor].
        simpl. intros x y. apply rotate_transparent.
        apply draw_text_transparent; [|reflexivity].
        apply new_image_transparent. reflexivity.
      * unfold rotated_stamp in Est. rewrite (bind_lift_raise _ _ _ _ Ep) in Est.
        discriminate Est.
    + unfold grid in E.
      eapply (tile_keeps (Forall transparent_op)); [exact Hdraw|constructor|exact E].
  - eapply Hdraw; [constructor|exact E].
Qed.

Lemma text_alpha_of_zero (x : float) :
  Float.eqb x (of_Z 0) = true -> text_alpha x = Ok 0.
Proof.
  unfold Float.eqb, SFeqb, of_Z. simpl.
  destruct x as [s|s| |s m e]; simpl; try (destruct s; discriminate).
  - intros _. destruct s; reflexivity.
  - discriminate.
Qed.

End Stages.

Section Outcomes.
Context {backend : Imaging}.

Lemma add_watermark_saves (input_path output_path : string) (a : watermark_args)
    (h0 h1 : heap) (src : picture rgb) (ops : list draw_op) (s : Z) :
  decode input_path = Ok src ->
  writable output_path = true ->
  watermark_ops (width src) (height src) a h0 = (Ok (ops, s), h1) ->
  add_watermark input_path output_path a h0 =
    (report_success input_path output_path, Some (finished src ops), h1).
Proof.
  intros Ed Ew Eo. rewrite add_watermark_run, Ed, Eo, Ew. reflexivity.
Qed.

(** The same, where the line that says so can be printed. *)
Lemma add_watermark_succeeds (input_path output_path : string) (a : watermark_args)
    (h0 h1 : heap) (src : picture rgb) (ops : list draw_op) (s : Z) :
  decode input_path = Ok src ->
  writable output_path = true ->
  print (AddedWatermark output_path) = Ok tt ->
  watermark_ops (width src) (height src) a h0 = (Ok (ops, s), h1) ->
  add_watermark input_path output_path a h0 = (Ok true, Some (finished src ops), h1).
Proof.
  intros Ed Ew Ep Eo. rewrite (add_watermark_saves _ _ _ _ _ _ _ _ Ed Ew Eo).
  rewrite (report_success_printed _ _ Ep). reflexivity.
Qed.

Lemma add_watermark_gives_up (input_path output_path : string) (a : watermark_args)
    (h0 h1 : heap) (src : picture rgb) (e : exn) :
  decode input_path = Ok src ->
  watermark_ops (width src) (height src) a h0 = (Raise e, h1) ->
  add_watermark input_path output_path a h0 = (report_failure input_path e, None, h1).
Proof.
  intros Ed Eo. rewrite add_watermark_run, Ed, Eo. reflexivity.
Qed.

(** The saved picture is the opened one wherever the overlay ended up
    without alpha. *)
Lemma finished_untouched (src : picture rgb) (ops : list draw_op) :
  (forall x y, inside src x y ->
     alpha (pix (render ops (new_image (width src) (height src) (255, 255, 255, 0))) x y) = 0) ->
  same_picture (finished src ops) src.
Proof.
  intros T. unfold finished.
  split; [reflexivity|split; [reflexivity|]].
  intros x y Hin. simpl in *.
  rewrite over_transparent; [reflexivity|]. apply T. exact Hin.
Qed.


Lemma try_fonts_outcome (names : list string) (size : Z) (h : heap) :
  match try_fonts names size h with
  | (Ok None, h') => h' = h /\ forallb (font_missing size) names = true
  | (Ok (Some f), _) => forallb (font_missing size) names = false
  | (Raise e, h') => h' = h /\ forallb (font_missing size) names = false
  end.
Proof.
  induction names as [|name names IH]; simpl.
  - split; reflexivity.
  - unfold except_IOError, bind, load_truetype, font_missing.
    destruct (truetype name size) as [[]|e]; simpl.
    + reflexivity.
    + destruct e; simpl; try (split; reflexivity).
      destruct (try_fonts names size h) as [[[f|]|e'] h']; exact IH.
Qed.

(** When no font of the list can be built, whatever each call raises,
    the font selected is a new object of the built-in face. *)
Lemma select_font_builtin (size : Z) (h : heap) :
  (forall name, In name font_options -> exists e, truetype name size = Raise e) ->
  exists n r size' h',
    select_font size h = (Ok ({| font_face := BuiltIn; ident := n |}, r, size'), h').
Proof.
  intros Hno.
  assert (Hnot : forall f h', try_fonts font_options size h <> (Ok (Some f), h')).
  { generalize font_options Hno. intros names. revert h.
    induction names as [|name names IH]; intros h Hn f h' E; [discriminate E|].
    cbn [try_fonts] in E. unfold except_IOError, bind, load_truetype in E.
    destruct (Hn name (or_introl eq_refl)) as [e Ee]. rewrite Ee in E.
    unfold raise in E. destruct e; try discriminate E.
    eapply IH; [|exact E]. intros n Hin. apply Hn. right. exact Hin. }
  pose proof (try_fonts_outcome font_options size h) as O.
  unfold select_font, try_except, bind at 1.
  destruct (try_fonts font_options size h) as [[[f|]|e] h1] eqn:E.
  - exfalso. exact (Hnot f h1 eq_refl).
  - destruct O as [-> _].
    unfold bind, load_default, new_object, ret, lift.
    destruct (40 <? size); [destruct (int_truediv size 40)|];
      eexists _, _, _, _; reflexivity.
  - destruct O as [-> _].
    unfold bind, load_default, new_object, ret. eexists _, _, _, _. reflexivity.
Qed.

(** The font size the function goes on with after the font loading: 40
    when the whole list is missing, the size asked for is above 40 and
    the ratio can be formed; the size asked for otherwise. *)
Lemma select_font_size (size : Z) (h h' : heap) (f : font) (r : float) (size' : Z) :
  select_font size h = (Ok (f, r, size'), h') ->
  size' =
  if fonts_missing size && (40 <? size)
  then match int_truediv size 40 with Ok _ => 40 | Raise _ => size end
  else size.
Proof.
  pose proof (try_fonts_outcome font_options size h) as O.
  unfold select_font, try_except, bind at 1. unfold fonts_missing.
  destruct (try_fonts font_options size h) as [[[f0|]|e] h1] eqn:E.
  - rewrite O. unfold ret. intros X. inversion X. reflexivity.
  - destruct O as [-> ->]. simpl.
    unfold bind, load_default, new_object, ret, lift.
    destruct (40 <? size); [destruct (int_truediv size 40)|];
      intros X; inversion X; reflexivity.
  - destruct O as [-> ->]. simpl.
    unfold bind, load_default, new_object, ret. intros X. inversion X. reflexivity.
Qed.

End Outcomes.

(** ** Facts about binary64 rounding *)

Module FloatFacts.

Lemma digits2_pos_log2 (p : positive) :
  Zpos (digits2_pos p) = Z.log2 (Zpos p) + 1.
Proof.
  assert (S : forall q, digits2_pos q = Pos.size q).
  { induction q as [q IH|q IH|]; simpl; congruence. }
  rewrite S. destruct p; simpl; lia.
Qed.

Lemma digits2_bounds (p : positive) :
  2 ^ (Zpos (digits2_pos p) - 1) <= Zpos p < 2 ^ Zpos (digits2_pos p).
Proof.
  rewrite digits2_pos_log2.
  replace (Z.log2 (Zpos p) + 1 - 1) with (Z.log2 (Zpos p)) by lia.
  pose proof (Z.log2_spec (Zpos p) ltac:(lia)) as H.
  replace (Z.succ (Z.log2 (Zpos p))) with (Z.log2 (Zpos p) + 1) in H by lia.
  exact H.
Qed.

Lemma digits2_unique (p : positive) (k : Z) :
  2 ^ (k - 1) <= Zpos p < 2 ^ k -> 1 <= k -> Zpos (digits2_pos p) = k.
Proof.
  intros H Hk. rewrite digits2_pos_log2.
  rewrite (Z.log2_unique (Zpos p) (k - 1)); [lia|lia|].
  replace (Z.succ (k - 1)) with k by lia. exact H.
Qed.

(** A mantissa of 53 digits with an exponent in range has nothing to
    shift. *)
Lemma shr_fexp_full (m : positive) (e : Z) (l : location) :
  Zpos (digits2_pos m) = 53 -> -1074 <= e ->
  shr_fexp prec emax (Zpos m) e l = (shr_record_of_loc (Zpos m) l, e).
Proof.
  intros Hd He. unfold shr_fexp, fexp, emin, prec, emax. simpl Zdigits2.
  rewrite Hd.
  replace (Z.max (53 + e - 53) (3 - 1024 - 53) - e) with 0 by lia.
  reflexivity.
Qed.

Lemma round_canonical (s : bool) (m : positive) (e : Z) :
  Zpos (digits2_pos m) = 53 -> -1074 <= e <= 971 ->
  binary_round_aux prec emax s (Zpos m) e loc_Exact = S754_finite s m e.
Proof.
  intros Hd He. unfold binary_round_aux.
  rewrite (shr_fexp_full m e loc_Exact Hd) by lia.
  cbn [shr_record_of_loc shr_m loc_of_shr_record round_nearest_even].
  rewrite (shr_fexp_full m e loc_Exact Hd) by lia.
  cbn [shr_record_of_loc shr_m].
  unfold prec, emax.
  destruct (e <=? 1024 - 53) eqn:E; [reflexivity|].
  apply Z.leb_gt in E. lia.
Qed.

Lemma iter_xO_shift (p k : positive) :
  Zpos (Pos.iter xO p k) = Zpos p * 2 ^ Zpos k.
Proof.
  induction k as [|k IH] using Pos.peano_ind.
  - simpl. lia.
  - rewrite Pos.iter_succ, Pos2Z.inj_succ, Z.pow_succ_r by lia.
    rewrite Pos2Z.inj_xO, IH. lia.
Qed.

(** [float(n)] for a positive [n] below 2^53: the mantissa is [n] moved
    up to 53 digits. *)
Lemma of_Z_pos_shape (p : positive) :
  Zpos p < 2 ^ 53 ->
  exists m e,
    binary_round prec emax false p 0 = S754_finite false m e /\
    binary_round prec emax true p 0 = S754_finite true m e /\
    Zpos (digits2_pos m) = 53 /\
    -52 <= e <= 0 /\
    Zpos m = Zpos p * 2 ^ (- e) /\
    e = Zpos (digits2_pos p) - 53.
Proof.
  intros Hp.
  pose proof (digits2_bounds p) as Hb.
  assert (Hd : Zpos (digits2_pos p) <= 53).
  { destruct (Z.le_gt_cases (Zpos (digits2_pos p)) 53) as [L|G]; [exact L|].
    exfalso. assert (2 ^ 53 <= 2 ^ (Zpos (digits2_pos p) - 1)).
    { apply Z.pow_le_mono_r; lia. }
    lia. }
  unfold binary_round, shl_align, fexp, emin, prec, emax.
  rewrite Z.add_0_r.
  replace (Z.max (Zpos (digits2_pos p) - 53) (3 - 1024 - 53) - 0)
    with (Zpos (digits2_pos p) - 53) by lia.
  replace (Z.max (Zpos (digits2_pos p) - 53) (3 - 1024 - 53))
    with (Zpos (digits2_pos p) - 53) by lia.
  destruct (Zpos (digits2_pos p) - 53) as [|k|k] eqn:Ek; [|lia|].
  - exists p, 0.
    assert (D : Zpos (digits2_pos p) = 53) by lia.
    rewrite !(round_canonical _ p 0 D) by lia.
    repeat split; try lia. 
  - exists (Pos.iter xO p k), (Zneg k).
    assert (D : Zpos (digits2_pos (Pos.iter xO p k)) = 53).
    { apply digits2_unique; [|lia]. rewrite iter_xO_shift.
      assert (E1 : 2 ^ (53 - 1) = 2 ^ (Zpos (digits2_pos p) - 1) * 2 ^ Zpos k).
      { rewrite <- Z.pow_add_r by lia. f_equal. lia. }
      assert (E2 : 2 ^ 53 = 2 ^ Zpos (digits2_pos p) * 2 ^ Zpos k).
      { rewrite <- Z.pow_add_r by lia. f_equal. lia. }
      rewrite E1, E2.
      assert (0 < 2 ^ Zpos k) by (apply Z.pow_pos_nonneg; lia).
      split; [apply Z.mul_le_mono_nonneg_r; lia|apply Z.mul_lt_mono_pos_r; lia]. }
    rewrite !(round_canonical _ _ (Zneg k) D) by lia.
    repeat split; try lia.
    rewrite iter_xO_shift. reflexivity.
Qed.

Lemma of_Z_positive (p : positive) : of_Z (Zpos p) = binary_round prec emax false p 0.
Proof. reflexivity. Qed.

Lemma of_Z_negative (p : positive) : of_Z (Zneg p) = binary_round prec emax true p 0.
Proof. reflexivity. Qed.

Lemma trunc_mag_shape (p m : positive) (e : Z) :
  -52 <= e <= 0 -> Zpos m = Zpos p * 2 ^ (- e) -> trunc_mag m e = Zpos p.
Proof.
  intros He Hm. unfold trunc_mag. destruct e as [|k|k]; [simpl in Hm; lia|lia|].
  rewrite Hm. simpl Z.opp. apply Z.div_mul.
  apply Z.pow_nonzero; lia.
Qed.

(** [int(float(n))] is [n] for every integer of fewer than 54 bits. *)
Lemma to_int_of_Z (n : Z) : Z.abs n < 2 ^ 53 -> to_int (of_Z n) = Ok n.
Proof.
  intros Hn. destruct n as [|p|p].
  - reflexivity.
  - destruct (of_Z_pos_shape p) as (m & e & E & _ & _ & He & Hm & _); [exact Hn|].
    rewrite of_Z_positive, E. simpl. f_equal. apply trunc_mag_shape; assumption.
  - destruct (of_Z_pos_shape p) as (m & e & _ & E & _ & He & Hm & _); [exact Hn|].
    rewrite of_Z_negative, E. simpl. f_equal.
    rewrite (trunc_mag_shape p m e He Hm). reflexivity.
Qed.

Lemma iter_pos_iter {A : Type} (f : A -> A) (n : positive) :
  forall x, iter_pos f n x = Pos.iter f x n.
Proof.
  induction n as [n IH|n IH|]; intros x; simpl.
  - rewrite !IH, !Pos.iter_swap. reflexivity.
  - rewrite !IH. reflexivity.
  - reflexivity.
Qed.

(** Shifting out [n] zero bits loses nothing. *)
Lemma shr_exact (q n : positive) :
  iter_pos shr_1 n
    {| shr_m := Zpos (Pos.iter xO q n); shr_r := false; shr_s := false |} =
  {| shr_m := Zpos q; shr_r := false; shr_s := false |}.
Proof.
  rewrite iter_pos_iter.
  induction n as [|n IH] using Pos.peano_ind.
  - reflexivity.
  - rewrite Pos.iter_succ_r, Pos.iter_succ. simpl shr_1. exact IH.
Qed.

(** The product of two finite doubles whose exact product [c * 2^e], with
    [c] below 2^53, is representable: no rounding takes place. *)
Lemma mul_exact (sa sb : bool) (ma mb c : positive) (ea eb : Z) :
  Zpos c < 2 ^ 53 ->
  Zpos ma * Zpos mb = Zpos c * 2 ^ (- (ea + eb)) ->
  53 - Zpos (digits2_pos c) < - (ea + eb) <= 200 ->
  exists m e,
    mul (S754_finite sa ma ea) (S754_finite sb mb eb) = S754_finite (xorb sa sb) m e /\
    binary_round prec emax (xorb sa sb) c 0 = S754_finite (xorb sa sb) m e.
Proof.
  intros Hc Hprod HE.
  destruct (of_Z_pos_shape c Hc) as (m & e & E1 & E2 & Hd & He & Hm & Hec).
  exists m, e. split; [|destruct (xorb sa sb); assumption].
  unfold mul, SFmul.
  set (n := Z.to_pos (e - (ea + eb))).
  assert (Hn : Zpos n = e - (ea + eb)) by (unfold n; rewrite Z2Pos.id; lia).
  assert (Hmm : (ma * mb)%positive = Pos.iter xO m n).
  { apply Pos2Z.inj. rewrite iter_xO_shift, Pos2Z.inj_mul, Hprod, Hm, Hn.
    rewrite <- Z.mul_assoc, <- Z.pow_add_r by lia. do 2 f_equal. lia. }
  assert (Hdig : Zpos (digits2_pos (ma * mb)) = 53 + Zpos n).
  { apply digits2_unique; [|lia]. rewrite Hmm, iter_xO_shift.
    pose proof (digits2_bounds m) as Hb. rewrite Hd in Hb.
    replace (53 + Zpos n - 1) with (52 + Zpos n) by lia.
    rewrite !Z.pow_add_r by lia.
    assert (0 < 2 ^ Zpos n) by (apply Z.pow_pos_nonneg; lia).
    split; [apply Z.mul_le_mono_nonneg_r; lia|apply Z.mul_lt_mono_pos_r; lia]. }
  unfold binary_round_aux.
  assert (Hshr : shr_fexp prec emax (Zpos (ma * mb)) (ea + eb) loc_Exact =
                 ({| shr_m := Zpos m; shr_r := false; shr_s := false |}, e)).
  { unfold shr_fexp, fexp, emin, prec, emax. simpl Zdigits2. rewrite Hdig.
    replace (Z.max (53 + Zpos n + (ea + eb) - 53) (3 - 1024 - 53) - (ea + eb))
      with (Zpos n) by lia.
    unfold shr. simpl shr_record_of_loc. rewrite Hmm, shr_exact. f_equal. lia. }
  rewrite Hshr. cbn [shr_m loc_of_shr_record round_nearest_even].
  rewrite (shr_fexp_full m e loc_Exact Hd) by lia.
  cbn [shr_record_of_loc shr_m]. unfold prec, emax.
  destruct (e <=? 1024 - 53) eqn:L; [reflexivity|]. apply Z.leb_gt in L. lia.
Qed.

Lemma binary_round_aux_finish (mx ex : Z) (lx : location) :
  binary_round_aux prec emax false mx ex lx =
  let '(mrs, e) := shr_fexp prec emax mx ex lx in
  finish (shr_m mrs) e (loc_of_shr_record mrs).
Proof. reflexivity. Qed.

Lemma round_nearest_even_cases (m : Z) (l : location) :
  round_nearest_even m l = m \/ round_nearest_even m l = m + 1.
Proof.
  destruct l as [|[]]; simpl; auto. destruct (Z.even m); auto.
Qed.

(** A mantissa of 53 digits comes out as itself or its successor; the
    successor 2^53 is renormalised to 2^52 with the exponent one up. *)
Lemma finish_full (mp : positive) (e : Z) (l : location) :
  Zpos (digits2_pos mp) = 53 -> -1074 <= e <= 960 ->
  exists M j,
    finish (Zpos mp) e l = S754_finite false M (e + j) /\
    ((j = 0 /\ (Zpos M = Zpos mp \/ Zpos M = Zpos mp + 1)) \/
     (j = 1 /\ Zpos M * 2 = Zpos mp + 1)).
Proof.
  intros Hd He. unfold finish.
  pose proof (digits2_bounds mp) as Hb. rewrite Hd in Hb.
  destruct (round_nearest_even_cases (Zpos mp) l) as [-> | ->].
  - rewrite (shr_fexp_full mp e loc_Exact Hd) by lia.
    cbn [shr_record_of_loc shr_m]. unfold prec, emax.
    destruct (e <=? 1024 - 53) eqn:L; [|apply Z.leb_gt in L; lia].
    exists mp, 0. rewrite Z.add_0_r. split; [reflexivity|]. left. auto.
  - replace (Zpos mp + 1) with (Zpos (mp + 1)) by lia.
    destruct (Z.lt_ge_cases (Zpos (mp + 1)) (2 ^ 53)) as [Lt|Ge].
    + assert (D : Zpos (digits2_pos (mp + 1)) = 53).
      { apply digits2_unique; lia. }
      rewrite (shr_fexp_full (mp + 1) e loc_Exact D) by lia.
      cbn [shr_record_of_loc shr_m]. unfold prec, emax.
      destruct (e <=? 1024 - 53) eqn:L; [|apply Z.leb_gt in L; lia].
      exists (mp + 1)%positive, 0. rewrite Z.add_0_r. split; [reflexivity|].
      left. split; [reflexivity|]. right. lia.
    + assert (E : (mp + 1)%positive = 9007199254740992%positive).
      { apply Pos2Z.inj. change (Zpos 9007199254740992) with (2 ^ 53). lia. }
      rewrite E. unfold shr_fexp, fexp, emin, prec, emax. simpl Zdigits2.
      replace (Z.max (54 + e - 53) (3 - 1024 - 53) - e) with 1 by lia.
      cbn [shr shr_record_of_loc iter_pos shr_1 shr_m orb].
      destruct (e + 1 <=? 1024 - 53) eqn:L; [|apply Z.leb_gt in L; lia].
      exists 4503599627370496%positive, 1. split; [reflexivity|].
      right. split; reflexivity.
Qed.

Lemma shr_m_of_loc (m : Z) (l : location) : shr_m (shr_record_of_loc m l) = m.
Proof. destruct l as [|[]]; reflexivity. Qed.

(** Rounding a quotient of 53 or 54 digits: the mantissa that comes out,
    scaled back, is within 2 of the quotient. *)
Lemma round_outcomes (qp : positive) (e : Z) (l : location) :
  2 ^ 52 <= Zpos qp < 2 ^ 54 -> -1074 <= e <= 900 ->
  exists M j,
    binary_round_aux prec emax false (Zpos qp) e l = S754_finite false M (e + j) /\
    0 <= j <= 2 /\
    Zpos qp - 1 <= Zpos M * 2 ^ j <= Zpos qp + 2 /\
    (j = 0 -> Zpos qp <= Zpos M).
Proof.
  intros Hq He. rewrite binary_round_aux_finish.
  destruct (Z.lt_ge_cases (Zpos qp) (2 ^ 53)) as [Lt|Ge].
  - assert (D : Zpos (digits2_pos qp) = 53) by (apply digits2_unique; lia).
    rewrite (shr_fexp_full qp e l D) by lia. rewrite shr_m_of_loc.
    destruct (finish_full qp e (loc_of_shr_record (shr_record_of_loc (Zpos qp) l)) D)
      as (M & j & E & [[-> HM] | [-> HM]]); [lia| |].
    + exists M, 0. split; [exact E|]. rewrite Z.pow_0_r. lia.
    + exists M, 1. split; [exact E|]. rewrite Z.pow_1_r. lia.
  - assert (D : Zpos (digits2_pos qp) = 54) by (apply digits2_unique; lia).
    unfold shr_fexp at 1. unfold fexp, emin, prec, emax. simpl Zdigits2. rewrite D.
    replace (Z.max (54 + e - 53) (3 - 1024 - 53) - e) with 1 by lia.
    cbn [shr iter_pos].
    assert (Hhalf : exists t : positive,
               shr_m (shr_1 (shr_record_of_loc (Zpos qp) l)) = Zpos t /\
               (Zpos qp = 2 * Zpos t \/ Zpos qp = 2 * Zpos t + 1)).
    { destruct qp as [t|t|].
      - exists t. split; [destruct l as [|[]]; reflexivity|right; lia].
      - exists t. split; [destruct l as [|[]]; reflexivity|left; lia].
      - exfalso. change (2 ^ 53) with 9007199254740992 in Ge. lia. }
    destruct Hhalf as (t & Et & Ht). rewrite Et.
    assert (Dt : Zpos (digits2_pos t) = 53).
    { apply digits2_unique; [|lia].
      change (2 ^ (53 - 1)) with 4503599627370496.
      change (2 ^ 53) with 9007199254740992 in *.
      change (2 ^ 54) with 18014398509481984 in *. lia. }
    destruct (finish_full t (e + 1)
                (loc_of_shr_record (shr_1 (shr_record_of_loc (Zpos qp) l))) Dt)
      as (M & j & E & [[-> HM] | [-> HM]]); [lia| |].
    + exists M, 1. rewrite Z.add_0_r in E. split; [exact E|]. rewrite Z.pow_1_r. lia.
    + exists M, 2. rewrite <- Z.add_assoc in E. split; [exact E|].
      change (2 ^ 2) with 4. lia.
Qed.

Lemma of_Z_100 : of_Z 100 = S754_finite false 7036874417766400 (-46).
Proof. reflexivity. Qed.

(** The quotient of the division, before rounding. *)
Lemma div_core_100 (m1 : positive) (e1 : Z) :
  Zpos (digits2_pos m1) = 53 -> -52 <= e1 <= 0 ->
  SFdiv_core_binary prec emax (Zpos m1) e1 (Zpos 7036874417766400) (-46) =
  (Zpos m1 * 128 / 100, e1 - 7,
   new_location (Zpos 7036874417766400)
     ((Zpos m1 * 2 ^ 53) mod Zpos 7036874417766400)).
Proof.
  intros Hd He. unfold SFdiv_core_binary, fexp, emin, prec, emax.
  simpl Zdigits2. rewrite Hd.
  change (Zpos (digits2_pos 7036874417766400)) with 53.
  replace (Z.min (Z.max (53 + e1 - (53 + -46) - 53) (3 - 1024 - 53)) (e1 - -46))
    with (e1 - 7) by lia.
  replace (e1 - -46 - (e1 - 7)) with 53 by lia.
  cbv zeta. rewrite Z.shiftl_mul_pow2 by lia.
  pose proof (Z.div_eucl_eq (Zpos m1 * 2 ^ 53) (Zpos 7036874417766400) ltac:(lia)) as Hdm.
  unfold Z.modulo.
  assert (Q : Zpos m1 * 2 ^ 53 / Zpos 7036874417766400 = Zpos m1 * 128 / 100).
  { change (Zpos 7036874417766400) with (100 * 2 ^ 46).
    replace (Zpos m1 * 2 ^ 53) with (Zpos m1 * 128 * 2 ^ 46)
      by (change (2 ^ 53) with (128 * 2 ^ 46); ring).
    apply Z.div_mul_cancel_r; lia. }
  unfold Z.div in Q.
  destruct (Z.div_eucl (Zpos m1 * 2 ^ 53) (Zpos 7036874417766400)) as [q r].
  rewrite Q. reflexivity.
Qed.

(** [int(float(n) / 100)] is [n // 100] for every positive integer
    below 2^50: rounding the quotient never reaches the next integer. *)
Lemma div_100 (p : positive) :
  Zpos p < 2 ^ 50 -> to_int (div (of_Z (Zpos p)) (of_Z 100)) = Ok (Zpos p / 100).
Proof.
  intros Hp.
  destruct (of_Z_pos_shape p) as (m1 & e1 & E & _ & Hd & He & Hm & He1).
  { change (2 ^ 50) with 1125899906842624 in Hp.
    change (2 ^ 53) with 9007199254740992. lia. }
  assert (He3 : e1 <= -3).
  { pose proof (digits2_bounds p) as Hb.
    destruct (Z.le_gt_cases (Zpos (digits2_pos p)) 50) as [L|G]; [lia|].
    exfalso. assert (2 ^ 50 <= 2 ^ (Zpos (digits2_pos p) - 1)).
    { apply Z.pow_le_mono_r; lia. }
    lia. }
  rewrite of_Z_positive, E, of_Z_100. unfold div, SFdiv.
  rewrite (div_core_100 m1 e1 Hd He). cbn [xorb].
  pose proof (digits2_bounds m1) as Hb. rewrite Hd in Hb.
  change (2 ^ (53 - 1)) with 4503599627370496 in Hb.
  change (2 ^ 53) with 9007199254740992 in Hb.
  set (q := Zpos m1 * 128 / 100).
  assert (Hq : 2 ^ 52 <= q < 2 ^ 54).
  { change (2 ^ 52) with 4503599627370496. change (2 ^ 54) with 18014398509481984.
    unfold q. split.
    - apply Z.div_le_lower_bound; lia.
    - apply Z.div_lt_upper_bound; lia. }
  destruct q as [|qp|qp] eqn:Eq; [lia| |lia].
  destruct (round_outcomes qp (e1 - 7)
              (new_location (Zpos 7036874417766400)
                 ((Zpos m1 * 2 ^ 53) mod Zpos 7036874417766400)) Hq)
    as (M & j & ER & Hj & HM & Hj0); [lia|].
  rewrite ER. unfold to_int. f_equal.
  (* the arithmetic: with K = 7 - e1 >= 10 and T = 2^(K - j) *)
  set (K := 7 - e1).
  assert (HK : 10 <= K <= 59) by (unfold K; lia).
  unfold trunc_mag.
  destruct (e1 - 7 + j) as [|k|k] eqn:Ek; [lia|lia|].
  assert (Hk : Zpos k = K - j) by (unfold K; lia).
  set (Q := Zpos p / 100).
  set (T := 2 ^ Zpos k).
  assert (HT : 0 < T) by (apply Z.pow_pos_nonneg; lia).
  assert (H2K : 2 ^ K = T * 2 ^ j).
  { unfold T. rewrite <- Z.pow_add_r by lia. f_equal. lia. }
  assert (HKbig : 1024 <= 2 ^ K).
  { change 1024 with (2 ^ 10). apply Z.pow_le_mono_r; lia. }
  assert (Hqval : Zpos qp = Zpos p * 2 ^ K / 100).
  { rewrite <- Eq. unfold q. f_equal. rewrite Hm. unfold K.
    replace (7 - e1) with (- e1 + 7) by lia.
    rewrite Z.pow_add_r by lia. change (2 ^ 7) with 128. ring. }
  pose proof (Z.div_mod (Zpos p) 100 ltac:(lia)) as Hpdm.
  pose proof (Z.mod_pos_bound (Zpos p) 100 ltac:(lia)) as Hpr.
  fold Q in Hpdm.
  pose proof (Z.div_mod (Zpos p * 2 ^ K) 100 ltac:(lia)) as Hqdm.
  pose proof (Z.mod_pos_bound (Zpos p * 2 ^ K) 100 ltac:(lia)) as Hqr.
  rewrite <- Hqval in Hqdm.
  assert (HJ : 2 ^ j = 1 \/ 2 ^ j = 2 \/ 2 ^ j = 4).
  { assert (j = 0 \/ j = 1 \/ j = 2) as [-> | [-> | ->]] by lia; auto. }
  symmetry. apply (Z.div_unique_pos (Zpos M) T Q (Zpos M - T * Q)); [|ring].
  set (J := 2 ^ j) in *. set (P := 2 ^ K) in *.
  set (R := Zpos p mod 100) in *. set (R' := (Zpos p * P) mod 100) in *.
  assert (J0 : J = 1 -> Zpos qp <= Zpos M).
  { intros J1. apply Hj0. unfold J in J1.
    destruct (Z.eq_dec j 0) as [z|nz]; [exact z|exfalso].
    assert (2 ^ 1 <= 2 ^ j) by (apply Z.pow_le_mono_r; lia). lia. }
  clearbody J P R R' Q T. clear - HT H2K HKbig Hpdm Hpr Hqdm Hqr HJ HM J0.
  split; nia.
Qed.

Lemma digits2_mul_below (a b : positive) :
  Zpos (digits2_pos a) + Zpos (digits2_pos b) - 1 <= Zpos (digits2_pos (a * b)).
Proof.
  rewrite !digits2_pos_log2. rewrite Pos2Z.inj_mul.
  pose proof (Z.log2_mul_below (Zpos a) (Zpos b) ltac:(lia) ltac:(lia)). lia.
Qed.

(** The product of two positive integers that stays below 2^53 is
    computed exactly. *)
Lemma mul_of_Z (sa sb : bool) (a b : positive) :
  Zpos a * Zpos b < 2 ^ 53 ->
  mul (binary_round prec emax sa a 0) (binary_round prec emax sb b 0) =
  binary_round prec emax (xorb sa sb) (a * b) 0.
Proof.
  intros Hab.
  assert (Ha : Zpos a < 2 ^ 53) by nia.
  assert (Hb : Zpos b < 2 ^ 53) by nia.
  destruct (of_Z_pos_shape a Ha) as (ma & ea & Ea1 & Ea2 & Hda & Hea & Hma & Hea').
  destruct (of_Z_pos_shape b Hb) as (mb & eb & Eb1 & Eb2 & Hdb & Heb & Hmb & Heb').
  assert (EA : binary_round prec emax sa a 0 = S754_finite sa ma ea)
    by (destruct sa; assumption).
  assert (EB : binary_round prec emax sb b 0 = S754_finite sb mb eb)
    by (destruct sb; assumption).
  rewrite EA, EB.
  pose proof (digits2_mul_below a b) as Hdig.
  destruct (mul_exact sa sb ma mb (a * b) ea eb) as (m & e & E1 & E2).
  - rewrite Pos2Z.inj_mul. exact Hab.
  - rewrite Hma, Hmb, Pos2Z.inj_mul.
    replace (- (ea + eb)) with (- ea + - eb) by lia.
    rewrite Z.pow_add_r by lia. ring.
  - lia.
  - rewrite E1, E2. reflexivity.
Qed.

(** [float(n) * 1.0] is [float(n)]. *)
Lemma mul_one (n : Z) : Z.abs n < 2 ^ 53 -> mul (of_Z n) (of_Z 1) = of_Z n.
Proof.
  intros Hn. destruct n as [|p|p].
  - reflexivity.
  - rewrite of_Z_positive. change (of_Z 1) with (binary_round prec emax false 1 0).
    rewrite mul_of_Z by (simpl in Hn; lia). rewrite Pos.mul_1_r. reflexivity.
  - rewrite of_Z_negative. change (of_Z 1) with (binary_round prec emax false 1 0).
    rewrite mul_of_Z by (simpl in Hn; lia). rewrite Pos.mul_1_r. reflexivity.
Qed.

(** [int(a * float(p) / 100)] for a positive integer [a] and a whole,
    non-negative [p]: the floor of [a * p / 100]. *)
Lemma percent_of (a p : Z) :
  0 < a < 2 ^ 50 -> 0 <= p -> a * p < 2 ^ 50 ->
  to_int (div (mul (of_Z a) (of_Z p)) (of_Z 100)) = Ok (a * p / 100).
Proof.
  intros Ha Hp Hap.
  destruct a as [|a|a]; try lia. destruct p as [|p|p]; try lia.
  - rewrite Z.mul_0_r.
    destruct (of_Z_pos_shape a) as (m & e & E & _).
    { change (2 ^ 50) with 1125899906842624 in Ha.
      change (2 ^ 53) with 9007199254740992. lia. }
    rewrite of_Z_positive, E. reflexivity.
  - rewrite !of_Z_positive, mul_of_Z.
    + rewrite <- of_Z_positive, Pos2Z.inj_mul. rewrite <- Pos2Z.inj_mul.
      rewrite div_100; [reflexivity|]. rewrite Pos2Z.inj_mul. exact Hap.
    + change (2 ^ 50) with 1125899906842624 in Hap.
      change (2 ^ 53) with 9007199254740992. lia.
Qed.

Lemma int_truediv_40_40 : int_truediv 40 40 = Ok (of_Z 1).
Proof. reflexivity. Qed.

End FloatFacts.

(** ** Closed forms of the two float computations *)

Lemma float_of_int_small (n : Z) : Z.abs n < 2 ^ 53 -> float_of_int n = Ok (of_Z n).
Proof.
  intros Hn. unfold float_of_int. destruct n as [|p|p].
  - reflexivity.
  - destruct (FloatFacts.of_Z_pos_shape p Hn) as (m & e & E & _).
    rewrite FloatFacts.of_Z_positive, E. reflexivity.
  - destruct (FloatFacts.of_Z_pos_shape p Hn) as (m & e & _ & E & _).
    rewrite FloatFacts.of_Z_negative, E. reflexivity.
Qed.

(** A whole, non-negative percentage [p]: the font size is the floor of
    [min(W, H) * p / 100]. *)
Lemma scaled_font_size_whole (W H p : Z) :
  0 < Z.min W H < 2 ^ 50 -> 0 <= p -> Z.min W H * p < 2 ^ 50 ->
  scaled_font_size W H (of_Z p) = Ok (Z.min W H * p / 100).
Proof.
  intros Hb Hp Hbp. unfold scaled_font_size, int_mul_float.
  rewrite float_of_int_small.
  - rewrite FloatFacts.of_Z_100. cbn [truediv]. rewrite <- FloatFacts.of_Z_100.
    apply FloatFacts.percent_of; assumption.
  - change (2 ^ 50) with 1125899906842624 in Hb.
    change (2 ^ 53) with 9007199254740992. lia.
Qed.

(** At font size 40 the spacing is multiplied by 1.0: it stays as it is. *)
Lemma scaled_spacing_40 (n : Z) : Z.abs n < 2 ^ 53 -> scaled_spacing n 40 = Ok n.
Proof.
  intros Hn. unfold scaled_spacing.
  rewrite FloatFacts.int_truediv_40_40. unfold int_mul_float.
  rewrite (float_of_int_small n Hn), (FloatFacts.mul_one n Hn).
  apply FloatFacts.to_int_of_Z. exact Hn.
Qed.

(** ** The claims *)

Section Claims.
Context {backend : Imaging}.

(** C1 (amended): in repeat mode with angle = 0, for every canvas, every
    stamp (the measured text, [tw] by [th]) and every spacing [s] in
    effect for which both steps are positive ([0 < s + tw] and
    [0 < s + th]; every [s >= 0] with a positive stamp qualifies), the
    drawing calls are exactly one text draw at each anchor of the
    staggered grid, in row order: rows at [y = -th, -th + (s + th), ...]
    below the canvas height, anchors [s + tw] apart within a row, rows
    with even [floor (y / (s + th))] starting at [x = -tw] and the odd
    ones [(s + tw) / 2] (integer division) further right. *)
Theorem grid_mode_draws_staggered_grid (W H : Z) (a : watermark_args) (h0 h1 : heap)
    (fs fs' tw th al s : Z) (f : font) (r : float) :
  repeat a = true -> angle a = 0 ->
  resolve_font_size W H a = Ok fs ->
  select_font fs h0 = (Ok (f, r, fs'), h1) ->
  textsize (font_face f) (watermark_text a) = (tw, th) ->
  text_alpha (opacity a) = Ok al ->
  adjust_spacing a fs' = Ok s ->
  0 < s + tw -> 0 < s + th ->
  exists h',
    watermark_ops W H a h0 =
    (Ok (map (fun xy => DrawText xy (watermark_text a) (font_face f) (font_color a, al))
           (staggered_grid W H tw th s), s), h').
Proof. apply watermark_ops_grid. Qed.

(** C2 (amended): in repeat mode with angle <> 0 the text is drawn once
    into an image padded on each side by [int(max(tw, th) * 0.1)], that
    image is rotated once, and the one rotated stamp (of width W' and
    height H') is pasted at every anchor of the tiling whose cell is
    (W' + s) by (H' + s): rows at [y = -(H' + s), 0, H' + s, ...] below
    [canvas height + H' + s], columns from [x = -(W' + s)] below
    [canvas width + W' + s], and rows with odd [floor (y / (H' + s))]
    lie half a cell, [(W' + s) / 2], further LEFT. *)
Theorem rotated_mode_pastes_one_stamp (W H : Z) (a : watermark_args) (h0 h1 : heap)
    (fs fs' tw th al s p : Z) (f : font) (r : float) :
  repeat a = true -> angle a <> 0 ->
  resolve_font_size W H a = Ok fs ->
  select_font fs h0 = (Ok (f, r, fs'), h1) ->
  textsize (font_face f) (watermark_text a) = (tw, th) ->
  text_alpha (opacity a) = Ok al ->
  adjust_spacing a fs' = Ok s ->
  rotation_padding tw th = Ok p ->
  let stamp :=
    rotate (angle a)
      (draw_text (new_image (tw + p * 2) (th + p * 2) (255, 255, 255, 0))
         (p, p) (watermark_text a) (font_face f) (font_color a, al)) in
  0 < width stamp + s -> 0 < height stamp + s ->
  exists h',
    watermark_ops W H a h0 =
    (Ok (map (Paste stamp) (rotated_grid W H (width stamp) (height stamp) s), s), h').
Proof. apply watermark_ops_rotated. Qed.

(** C3: without repeat there is exactly one drawing call, a text draw at
    the explicit position when one is given and at
    [(W - tw - 20, H - th - 20)] otherwise; the angle plays no part (with
    any other angle the function does the same); and for a 1024 x 768
    canvas and a 100 x 30 stamp the default anchor is (904, 718). *)
Theorem single_mode_one_anchor (W H : Z) (a : watermark_args) (h0 h1 : heap)
    (fs fs' tw th al : Z) (f : font) (r : float) :
  repeat a = false ->
  resolve_font_size W H a = Ok fs ->
  select_font fs h0 = (Ok (f, r, fs'), h1) ->
  textsize (font_face f) (watermark_text a) = (tw, th) ->
  text_alpha (opacity a) = Ok al ->
  (exists h',
     watermark_ops W H a h0 =
     (Ok ([DrawText
             match position a with
             | Some explicit => explicit
             | None => (W - tw - 20, H - th - 20)
             end
             (watermark_text a) (font_face f) (font_color a, al)],
          spacing a), h'))
  /\ (forall ang, watermark_ops W H (with_angle ang a) h0 = watermark_ops W H a h0)
  /\ default_position 1024 768 100 30 = (904, 718).
Proof.
  intros Hrep Er Es Et Ea.
  destruct (watermark_ops_single W H a h0 h1 fs fs' tw th al f r Hrep Er Es Et Ea)
    as [H1 H2].
  split; [exact H1|split; [exact H2|reflexivity]].
Qed.

(** C5: with opacity 0, whatever the call ends in, a picture it has
    saved is equal, pixel for pixel, to the one it opened; and where its
    two lines can be printed the call either returns False, having saved
    nothing, or returns True, having saved such a picture. *)
Theorem zero_opacity_leaves_canvas_unchanged (input_path output_path : string)
    (a : watermark_args) (h0 : heap) :
  Float.eqb (opacity a) (of_Z 0) = true ->
  (forall outcome out h',
     add_watermark input_path output_path a h0 = (outcome, Some out, h') ->
     exists src, decode input_path = Ok src /\ same_picture out src)
  /\ (lines_printable input_path output_path ->
      exists h',
        add_watermark input_path output_path a h0 = (Ok false, None, h') \/
        exists src out,
          decode input_path = Ok src /\
          add_watermark input_path output_path a h0 = (Ok true, Some out, h') /\
          same_picture out src).
Proof.
  intros Hz. apply text_alpha_of_zero in Hz.
  rewrite add_watermark_run.
  destruct (decode input_path) as [src|e].
  2:{ split; [intros outcome out h' E; discriminate E|].
      intros [_ P]. exists h0. left. rewrite (report_failure_printed _ _ (P e)).
      reflexivity. }
  destruct (watermark_ops (width src) (height src) a h0) as [[[ops s]|e] h1] eqn:Eo.
  2:{ split; [intros outcome out h' E; discriminate E|].
      intros [_ P]. exists h1. left. rewrite (report_failure_printed _ _ (P e)).
      reflexivity. }
  assert (Same : same_picture (finished src ops) src).
  { apply finished_transparent. eapply watermark_ops_transparent; eassumption. }
  destruct (writable output_path).
  - split.
    + intros outcome out h' E. inversion E; subst. exists src. split; [reflexivity|exact Same].
    + intros [P _]. exists h1. right. exists src, (finished src ops).
      rewrite (report_success_printed _ _ P).
      split; [reflexivity|split; [reflexivity|exact Same]].
  - split; [intros outcome out h' E; discriminate E|].
    intros [_ P]. exists h1. left. rewrite (report_failure_printed _ _ (P OSError)).
    reflexivity.
Qed.



(** C8: when no font of the list can be built (whatever each
    [truetype] call raises), font selection raises nothing and returns a
    font of the built-in face; and the call goes through with that face:
    it returns True and has saved the opened picture with the text drawn
    in the built-in face, once in single mode, over the staggered grid
    in repeat mode with angle 0, and as the rotated stamp over the
    rotated tiling in repeat mode with a rotation; provided the image
    opens, the result can be saved and the line that says so printed,
    font size, ink and spacing can be computed and the tiling steps are
    positive. *)
Theorem font_fallback_is_not_fatal (fs : Z) :
  (forall name, In name font_options -> exists e, truetype name fs = Raise e) ->
  (forall h, exists n r fs' h',
     select_font fs h = (Ok ({| font_face := BuiltIn; ident := n |}, r, fs'), h'))
  /\ (forall (input_path output_path : string) (a : watermark_args) (h0 h1 : heap)
         (src : picture rgb) (f : font) (r : float) (fs' al s tw th : Z),
        decode input_path = Ok src ->
        writable output_path = true ->
        print (AddedWatermark output_path) = Ok tt ->
        resolve_font_size (width src) (height src) a = Ok fs ->
        select_font fs h0 = (Ok (f, r, fs'), h1) ->
        text_alpha (opacity a) = Ok al ->
        adjust_spacing a fs' = Ok s ->
        textsize BuiltIn (watermark_text a) = (tw, th) ->
        let ink : rgba := (font_color a, al) in
        font_face f = BuiltIn /\
        (repeat a = false ->
         exists h',
           add_watermark input_path output_path a h0 =
             (Ok true,
              Some (finished src
                      [DrawText
                         (or_default (position a)
                            (default_position (width src) (height src) tw th))
                         (watermark_text a) BuiltIn ink]), h')) /\
        (repeat a = true -> angle a = 0 -> 0 < s + tw -> 0 < s + th ->
         exists h',
           add_watermark input_path output_path a h0 =
             (Ok true,
              Some (finished src
                      (map (fun xy => DrawText xy (watermark_text a) BuiltIn ink)
                         (staggered_grid (width src) (height src) tw th s))), h')) /\
        (forall p,
           repeat a = true -> angle a <> 0 -> rotation_padding tw th = Ok p ->
           let stamp :=
             rotate (angle a)
               (draw_text (new_image (tw + p * 2) (th + p * 2) (255, 255, 255, 0))
                  (p, p) (watermark_text a) BuiltIn ink) in
           0 < width stamp + s -> 0 < height stamp + s ->
           exists h',
             add_watermark input_path output_path a h0 =
               (Ok true,
                Some (finished src
                        (map (Paste stamp)
                           (rotated_grid (width src) (height src)
                              (width stamp) (height stamp) s))), h'))).
Proof.
  intros Hno. split; [intros h; apply select_font_builtin; exact Hno|].
  intros input_path output_path a h0 h1 src f r fs' al s tw th Ed Ew Ep Er Es Ea Esp Et ink.
  assert (Hf : font_face f = BuiltIn).
  { destruct (select_font_builtin fs h0 Hno) as (n & r0 & fs0 & h2 & E).
    rewrite Es in E. inversion E. reflexivity. }
  rewrite <- Hf in Et.
  split; [exact Hf|split; [|split]].
  - intros Hrep.
    destruct (watermark_ops_single _ _ a h0 h1 fs fs' tw th al f r Hrep Er Es Et Ea)
      as [[h' Eo] _].
    rewrite Hf in Eo.
    exists h'. rewrite (add_watermark_succeeds _ _ _ _ _ _ _ _ Ed Ew Ep Eo).
    unfold or_default, default_position. reflexivity.
  - intros Hrep Hang Hw Hh.
    destruct (watermark_ops_grid _ _ a h0 h1 fs fs' tw th al s f r
                Hrep Hang Er Es Et Ea Esp Hw Hh) as [h' Eo].
    rewrite Hf in Eo.
    exists h'. exact (add_watermark_succeeds _ _ _ _ _ _ _ _ Ed Ew Ep Eo).
  - intros p Hrep Hang Epad stamp Hw Hh. subst stamp. rewrite <- Hf in Hw, Hh.
    destruct (watermark_ops_rotated _ _ a h0 h1 fs fs' tw th al s p f r
                Hrep Hang Er Es Et Ea Esp Epad Hw Hh) as [h' Eo].
    rewrite Hf in Eo.
    exists h'. exact (add_watermark_succeeds _ _ _ _ _ _ _ _ Ed Ew Ep Eo).
Qed.

(** C4 (amended): for every image of positive width and height, a scale
    factor P, when given, decides the font size whatever absolute size
    comes with it: the size is [int(min(W, H) * P / 100)], the product and
    the quotient rounded as doubles and the result truncated toward zero;
    for a whole percentage [p >= 0] that is the floor of
    [min(W, H) * p / 100].  Without a scale factor the size is the
    absolute size passed in, and when the operator gives neither option
    that size is the command line's default of 36. *)
Theorem scale_resolver (W H : Z) (a : watermark_args) :
  0 < W -> 0 < H ->
  (forall P, scale_factor a = Some P ->
     resolve_font_size W H a = scaled_font_size W H P)
  /\ (forall p, scale_factor a = Some (of_Z p) ->
        0 <= p -> Z.min W H < 2 ^ 50 -> Z.min W H * p < 2 ^ 50 ->
        resolve_font_size W H a = Ok (Z.min W H * p / 100))
  /\ (scale_factor a = None -> resolve_font_size W H a = Ok (font_size a))
  /\ (forall c n, parse_args c = Some a ->
        cli_watermark_scale c = None -> cli_watermark_font_size c = Some n ->
        resolve_font_size W H a = Ok n)
  /\ (forall c, parse_args c = Some a ->
        cli_watermark_scale c = None -> cli_watermark_font_size c = None ->
        resolve_font_size W H a = Ok 36).
Proof.
  intros HW HH. unfold resolve_font_size.
  split; [intros P ->; reflexivity|].
  split; [intros p -> Hp Hm Hmp; apply scaled_font_size_whole; lia|].
  split; [intros ->; reflexivity|].
  split.
  - intros c n Hc Hs Hn. unfold parse_args in Hc. rewrite Hs, Hn in Hc.
    inversion Hc; subst a. cbn [handed_down scale_factor font_size].
    rewrite Hs, Hn. reflexivity.
  - intros c Hc Hs Hn. unfold parse_args in Hc. rewrite Hs, Hn in Hc.
    inversion Hc; subst a. cbn [handed_down scale_factor font_size].
    rewrite Hs, Hn. reflexivity.
Qed.

(** C10 (amended): in every call that gets as far as the tiling, with
    repeat set and a scale factor given, the spacing used is
    [int(spacing * (f / 40))], where the quotient is formed first and
    both operations are rounded as doubles, and [f] is the font size in
    effect after the font loading: the resolved font size, or 40 when
    every font of the list is missing and the resolved size is above 40
    (the spacing then stays as supplied).  When repeat is off or no scale
    factor is given, the supplied spacing is used as it is. *)
Theorem spacing_used_for_tiling (W H : Z) (a : watermark_args) (h0 h1 : heap)
    (ops : list draw_op) (s : Z) :
  watermark_ops W H a h0 = (Ok (ops, s), h1) ->
  exists fs,
    resolve_font_size W H a = Ok fs /\
    let in_effect := if fonts_missing fs && (40 <? fs) then 40 else fs in
    match repeat a, scale_factor a with
    | true, Some _ =>
        scaled_spacing (spacing a) in_effect = Ok s /\
        (in_effect = 40 -> Z.abs (spacing a) < 2 ^ 53 -> s = spacing a)
    | _, _ => s = spacing a
    end.
Proof.
  intros E.
  destruct (resolve_font_size W H a) as [fs|e] eqn:Er;
    [|rewrite (watermark_ops_resolve_raises _ _ _ _ _ Er) in E; discriminate E].
  exists fs. split; [reflexivity|].
  destruct (select_font_total fs h0) as (f & r & fs' & h2 & Es & F).
  destruct (textsize (font_face f) (watermark_text a)) as [tw th] eqn:Et.
  destruct (text_alpha (opacity a)) as [al|e] eqn:Ea;
    [|rewrite (watermark_ops_alpha_raises _ _ _ _ _ _ _ _ _ _ Er Es Ea) in E;
      discriminate E].
  destruct (adjust_spacing a fs') as [s0|e] eqn:Esp;
    [|rewrite (watermark_ops_spacing_raises _ _ _ _ _ _ _ _ _ _ _ Er Es Ea Esp) in E;
      discriminate E].
  rewrite (watermark_ops_prepared W H a h0 h2 fs fs' tw th al s0 f r Er Es Et Ea Esp) in E.
  apply bind_inv in E. destruct E as (ops0 & h3 & _ & Eret).
  inversion Eret; subst ops0 s0 h3. clear Eret.
  pose proof (select_font_size _ _ _ _ _ _ Es) as Hsize.
  unfold adjust_spacing in Esp. cbv zeta.
  destruct (repeat a); [|inversion Esp; reflexivity].
  destruct (scale_factor a) as [P|]; [|inversion Esp; reflexivity].
  assert (Heff : fs' = if fonts_missing fs && (40 <? fs) then 40 else fs).
  { rewrite Hsize. destruct (fonts_missing fs && (40 <? fs)); [|reflexivity].
    destruct (int_truediv fs 40) as [q|e] eqn:Ediv; [reflexivity|].
    exfalso. rewrite Hsize in Esp. unfold scaled_spacing in Esp.
    destruct (fonts_missing fs && (40 <? fs)) eqn:C; rewrite Ediv in Esp;
      discriminate Esp. }
  rewrite <- Heff. split; [exact Esp|].
  intros H40 Hs. rewrite H40 in Esp. rewrite (scaled_spacing_40 _ Hs) in Esp.
  inversion Esp. reflexivity.
Qed.

(** The stamp that lines 216-220 build holds the text at its own size in
    the top-left corner: outside the box of the glyphs it is empty,
    however large it was made. *)
Lemma scaled_stamp_holds_unscaled_text (w h : Z) (text : string) (f : face)
    (ink : rgba) (x y : Z) :
  (let '(ox, oy, g) := glyphs f text in covers ox oy (width g) (height g) x y = false) ->
  pix (draw_text (new_image w h (0, 0, 0, 0)) (0, 0) text f ink) x y = (0, 0, 0, 0).
Proof.
  unfold draw_text. destruct (glyphs f text) as [[ox oy] g]. simpl.
  intros ->. reflexivity.
Qed.

(** After font selection the stamp of lines 214-224 is never built: the
    identity test compares the font with one made on the spot. *)
Lemma stamp_is_never_built (size : Z) (h0 h1 : heap) (f : font) (r : float)
    (size' : Z) (text : string) (w h : Z) (ink : rgba) :
  select_font size h0 = (Ok (f, r, size'), h1) ->
  manual_scaling f r text w h ink h1 = (Ok None, S h1).
Proof.
  intros Es. apply manual_scaling_skipped. eapply select_font_fresh. exact Es.
Qed.

End Claims.

(** ** The claims on examples *)

Lemma grid_mode_draws_staggered_grid_witness :
  exists h',
    watermark_ops (backend := Examples.bare) 200 100 Examples.tiled O =
    (Ok (map (fun xy => DrawText xy "AB" BuiltIn (255, 255, 255, 127))
           (staggered_grid 200 100 12 11 100), 100), h').
Proof.
  apply (grid_mode_draws_staggered_grid (backend := Examples.bare)
           200 100 Examples.tiled O 1%nat 36 36 12 11 127 100
           (Examples.builtin_font 0) one);
    reflexivity.
Defined.

(** C1 as stated fails: with a 100 x 30 stamp and spacing -30 the row
    step is 0, [range] raises ValueError and there is no plan at all. *)
Lemma grid_plan_zero_step_counterexample :
  grid_plan 1024 768 100 30 (-30) = Raise ValueError.
Proof. reflexivity. Qed.

Lemma rotated_mode_pastes_one_stamp_witness :
  exists h',
    watermark_ops (backend := Examples.bare) 200 100 Examples.turned O =
    (Ok (map (Paste
                (Reference.turn 90
                   (draw_text (backend := Examples.bare)
                      (new_image 14 13 (255, 255, 255, 0)) (1, 1) "AB" BuiltIn
                      (255, 255, 255, 127))))
           (rotated_grid 200 100 13 14 100), 100), h').
Proof.
  apply (rotated_mode_pastes_one_stamp (backend := Examples.bare)
           200 100 Examples.turned O 1%nat 36 36 12 11 127 100 1
           (Examples.builtin_font 0) one);
    solve [reflexivity | discriminate].
Defined.

(** C2 as stated fails.  For a 100 x 100 canvas, a rotated stamp of
    40 x 20 and spacing 10 the code starts at [y = -30] (not [-20]) and
    its first row, an odd one, starts at [x = -50 - 25 = -75]: half a cell
    to the left.  With spacing 0, where the stated bounds and the code's
    agree, the odd rows still go left ([-60]) where the statement sends
    them right ([-20]). *)
Lemma rotated_plan_counterexample :
  (exists plan,
     rotated_plan 100 100 40 20 10 = Ok plan /\
     hd_error plan = Some (-75, -30) /\
     hd_error (specified_rotated_grid 100 100 40 20 10) = Some (-15, -20) /\
     List.length plan = 24%nat /\
     List.length (specified_rotated_grid 100 100 40 20 10) = 20%nat)
  /\
  (exists plan,
     rotated_plan 100 100 40 20 0 = Ok plan /\
     hd_error plan = Some (-60, -20) /\
     hd_error (specified_rotated_grid 100 100 40 20 0) = Some (-20, -20)).
Proof.
  split; eexists; (split; [reflexivity|]); repeat split; reflexivity.
Qed.

Lemma single_mode_one_anchor_witness :
  (exists h',
     watermark_ops (backend := Examples.bare) 200 100 Examples.single O =
     (Ok ([DrawText (168, 69) "AB" BuiltIn (255, 255, 255, 127)], 100), h'))
  /\ (forall ang,
        watermark_ops (backend := Examples.bare) 200 100
          (with_angle ang Examples.single) O =
        watermark_ops (backend := Examples.bare) 200 100 Examples.single O)
  /\ default_position 1024 768 100 30 = (904, 718).
Proof.
  apply (single_mode_one_anchor (backend := Examples.bare)
           200 100 Examples.single O 1%nat 36 36 12 11 127
           (Examples.builtin_font 0) one);
    reflexivity.
Defined.

(** 10 percent of a 1024 x 768 image: font size 76; nothing typed: 36. *)
Lemma scale_resolver_witness :
  resolve_font_size 1024 768 Examples.scaled_tiled = Ok 76 /\
  (forall a, parse_args Examples.bare_command_line = Some a ->
     resolve_font_size 1024 768 a = Ok 36).
Proof.
  split.
  - destruct (scale_resolver 1024 768 Examples.scaled_tiled eq_refl eq_refl)
      as (_ & Hwhole & _).
    apply (Hwhole 10); solve [reflexivity | lia].
  - intros a Ha.
    destruct (scale_resolver 1024 768 a eq_refl eq_refl) as (_ & _ & _ & _ & Hdefault).
    apply (Hdefault Examples.bare_command_line Ha); reflexivity.
Defined.

(** C4 as stated fails for a negative percentage: on a 50 x 50 image
    with P = -1 the code returns [int(-0.5) = 0], the floor is -1. *)
Lemma scale_resolver_counterexample :
  scaled_font_size 50 50 (of_Z (-1)) = Ok 0 /\ 50 * -1 / 100 = -1.
Proof. split; reflexivity. Qed.

(** The default in the signature of [add_watermark] is 40, not 36. *)
Example signature_default_font_size :
  resolve_font_size 1024 768 (signature_defaults "AB") = Ok 40.
Proof. reflexivity. Qed.

(** A scale typed together with a font size: the parser stops the
    program for a font size of 50 and lets one of 36 through, and the
    scale then decides. *)
Example size_options_typed_together :
  let typed n :=
    {| copyright_holder := "AB";
       cli_watermark_text := None;
       cli_watermark_position := None;
       cli_watermark_opacity := None;
       cli_watermark_font_size := Some n;
       cli_watermark_scale := Some (of_Z 5);
       cli_watermark_repeat := false;
       cli_watermark_spacing := None;
       cli_watermark_angle := None;
       cli_watermark_font_color := None |} in
  parse_args (typed 50) = None /\
  exists a,
    parse_args (typed 36) = Some a /\ font_size a = 36 /\
    resolve_font_size 1024 768 a = Ok 38.
Proof.
  intros typed. split; [reflexivity|].
  eexists. split; [reflexivity|]. split; reflexivity.
Qed.

(** A fractional percentage: the double nearest to 2.4 lies below 2.4,
    the exact quotient for a side of 125 lies below 3, yet the rounded
    product is 300 and the code returns 3. *)
Example fractional_percentage :
  scaled_font_size 125 125 (S754_finite false 5404319552844595 (-51)) = Ok 3 /\
  125 * 5404319552844595 / (100 * 2 ^ 51) = 2.
Proof. split; reflexivity. Qed.

Lemma zero_opacity_leaves_canvas_unchanged_witness :
  exists h' src out,
    decode (Imaging := Examples.bare) "in.jpg" = Ok src /\
    add_watermark (backend := Examples.bare) "in.jpg" "out.jpg" Examples.invisible O =
      (Ok true, Some out, h') /\
    same_picture out src.
Proof.
  destruct (zero_opacity_leaves_canvas_unchanged (backend := Examples.bare)
              "in.jpg" "out.jpg" Examples.invisible O eq_refl) as [_ Hrun].
  destruct Hrun as [h' [Hfail | (src & out & Hd & Hrun & Hsame)]].
  - split; [reflexivity|intros e; reflexivity].
  - exfalso.
    eassert (Eo : watermark_ops (backend := Examples.bare) 200 100 Examples.invisible O =
                  (Ok (_, _), _)) by (vm_compute; reflexivity).
    rewrite (add_watermark_saves (backend := Examples.bare) "in.jpg" "out.jpg"
               Examples.invisible O _ (Reference.grey 200 100) _ _
               eq_refl eq_refl Eo) in Hfail.
    discriminate Hfail.
  - exists h', src, out. split; [exact Hd|split; [exact Hrun|exact Hsame]].
Defined.


Lemma font_fallback_is_not_fatal_witness :
  (exists n r fs' h',
     select_font (backend := Examples.bare) 36 O =
     (Ok ({| font_face := BuiltIn; ident := n |}, r, fs'), h'))
  /\ (exists h',
        add_watermark (backend := Examples.bare) "in.jpg" "out.jpg" Examples.single O =
        (Ok true,
         Some (finished (backend := Examples.bare) (Reference.grey 200 100)
                 [DrawText (168, 69) "AB" BuiltIn (255, 255, 255, 127)]), h'))
  /\ (exists h',
        add_watermark (backend := Examples.bare) "in.jpg" "out.jpg" Examples.tiled O =
        (Ok true,
         Some (finished (backend := Examples.bare) (Reference.grey 200 100)
                 (map (fun xy => DrawText xy "AB" BuiltIn (255, 255, 255, 127))
                    (staggered_grid 200 100 12 11 100))), h')).
Proof.
  destruct (font_fallback_is_not_fatal (backend := Examples.bare) 36)
    as (Hsel & Hrun).
  { intros name _. exists OSError. reflexivity. }
  split; [exact (Hsel O)|].
  split.
  - destruct (Hrun "in.jpg"%string "out.jpg"%string Examples.single O 1%nat
                (Reference.grey 200 100) (Examples.builtin_font 0) one 36 127 100 12 11
                eq_refl eq_refl eq_refl eq_refl eq_refl eq_refl eq_refl eq_refl)
      as (_ & Hs & _).
    exact (Hs eq_refl).
  - destruct (Hrun "in.jpg"%string "out.jpg"%string Examples.tiled O 1%nat
                (Reference.grey 200 100) (Examples.builtin_font 0) one 36 127 100 12 11
                eq_refl eq_refl eq_refl eq_refl eq_refl eq_refl eq_refl eq_refl)
      as (_ & _ & Hg & _).
    exact (Hg eq_refl eq_refl eq_refl eq_refl).
Defined.



(** No font, 10 percent of a 1000 x 1000 image: the resolved font size is
    100, the size in effect 40, the spacing stays 100. *)
Lemma spacing_used_for_tiling_witness :
  exists fs,
    resolve_font_size 1000 1000 Examples.scaled_tiled = Ok fs /\
    let in_effect :=
      if fonts_missing (backend := Examples.bare) fs && (40 <? fs) then 40 else fs in
    scaled_spacing 100 in_effect = Ok 100 /\
    (in_effect = 40 -> Z.abs 100 < 2 ^ 53 -> 100 = 100).
Proof.
  eapply (spacing_used_for_tiling (backend := Examples.bare) 1000 1000
            Examples.scaled_tiled O).
  vm_compute. reflexivity.
Defined.

(** C10 as stated fails.  With no font of the list installed and a
    resolved font size of 100 the spacing used is 100, not
    [int(100 * 100 / 40) = 250]; with a font installed and a resolved font
    size of 46 it is [int(100 * (46 / 40)) = 114], because 46 / 40 is
    rounded before the product is taken, not [int(100 * 46 / 40) = 115]. *)
Lemma spacing_used_for_tiling_counterexample :
  (exists ops h,
     watermark_ops (backend := Examples.bare) 1000 1000 Examples.scaled_tiled O =
       (Ok (ops, 100), h) /\
     resolve_font_size 1000 1000 Examples.scaled_tiled = Ok 100 /\
     100 * 100 / 40 = 250)
  /\
  (exists ops h,
     watermark_ops (backend := Examples.with_dejavu) 460 460 Examples.scaled_tiled O =
       (Ok (ops, 114), h) /\
     resolve_font_size 460 460 Examples.scaled_tiled = Ok 46 /\
     100 * 46 / 40 = 115).
Proof.
  split; eexists _, _; (split; [vm_compute; reflexivity|split; reflexivity]).
Qed.

(** C7 at its failing input: no font of the list, font size 80.  The
    scale ratio is 2.0 and a stamp scaled by it would measure 24 x 22, but
    the function draws the text directly, at the built-in font's own size
    of 12 x 11, anchored at (200 - 12 - 20, 100 - 11 - 20). *)
Lemma oversized_text_is_drawn_unscaled :
  select_font (backend := Examples.bare) 80 O =
    (Ok (Examples.builtin_font 0, of_Z 2, 40), 1%nat)
  /\ textsize (Imaging := Examples.bare) BuiltIn "AB" = (12, 11)
  /\ scaled_dimension 12 (of_Z 2) = Ok 24
  /\ scaled_dimension 11 (of_Z 2) = Ok 22
  /\ watermark_ops (backend := Examples.bare) 200 100 Examples.oversized O =
       (Ok ([DrawText (168, 69) "AB" BuiltIn (255, 255, 255, 127)], 100), 3%nat).
Proof. repeat split; reflexivity. Qed.

(** ** Strings and numerals *)

Module StrFacts.
Import Ascii.

Lemma chars_app (s t : string) : Str.chars (s ++ t) = Str.chars s ++ Str.chars t.
Proof. induction s as [|a s IH]; simpl; [reflexivity|rewrite IH; reflexivity]. Qed.

Lemma chars_inj (s t : string) : Str.chars s = Str.chars t -> s = t.
Proof.
  revert t. induction s as [|a s IH]; intros [|b t] E; simpl in E;
    try discriminate; [reflexivity|].
  inversion E; subst. f_equal. apply IH. assumption.
Qed.

Lemma length_chars (s : string) : String.length s = List.length (Str.chars s).
Proof. induction s as [|a s IH]; simpl; [reflexivity|rewrite IH; reflexivity]. Qed.

Lemma length_app (s t : string) :
  String.length (s ++ t) = (String.length s + String.length t)%nat.
Proof. rewrite !length_chars, chars_app, length_app. reflexivity. Qed.

Lemma app_inv_tail (s t u : string) : (s ++ u = t ++ u)%string -> s = t.
Proof.
  intros E. apply chars_inj. apply (f_equal Str.chars) in E.
  rewrite !chars_app in E. eapply List.app_inv_tail. exact E.
Qed.

Lemma app_inv_head (s t u : string) : (u ++ s = u ++ t)%string -> s = t.
Proof.
  intros E. apply chars_inj. apply (f_equal Str.chars) in E.
  rewrite !chars_app in E. eapply List.app_inv_head. exact E.
Qed.

Lemma app_assoc (s t u : string) : ((s ++ t) ++ u = s ++ (t ++ u))%string.
Proof. induction s as [|a s IH]; simpl; [reflexivity|rewrite IH; reflexivity]. Qed.

Lemma app_empty_r (s : string) : (s ++ "")%string = s.
Proof. induction s as [|a s IH]; simpl; [reflexivity|rewrite IH; reflexivity]. Qed.

Lemma take_app (s t : string) : Str.take (String.length s) (s ++ t) = s.
Proof. induction s as [|a s IH]; simpl; [destruct t; reflexivity|rewrite IH; reflexivity]. Qed.

Lemma drop_app (s t : string) : Str.drop (String.length s) (s ++ t) = t.
Proof. induction s as [|a s IH]; simpl; [reflexivity|exact IH]. Qed.

Lemma contains_app (c : ascii) (s t : string) :
  Str.contains c (s ++ t) = Str.contains c s || Str.contains c t.
Proof. unfold Str.contains. rewrite chars_app, existsb_app. reflexivity. Qed.

Lemma rfind_none (c : ascii) (s : string) :
  Str.contains c s = false -> Str.rfind c s = None.
Proof.
  unfold Str.contains. induction s as [|a s IH]; simpl; [reflexivity|].
  intros E. apply orb_false_iff in E. destruct E as [E1 E2].
  rewrite (IH E2). rewrite Ascii.eqb_sym, E1. reflexivity.
Qed.

Lemma rfind_app_none (c : ascii) (s t : string) :
  Str.contains c t = false -> Str.rfind c (s ++ t) = Str.rfind c s.
Proof.
  intros E. induction s as [|a s IH]; simpl.
  - apply rfind_none. exact E.
  - rewrite IH. reflexivity.
Qed.

Lemma rfind_app_some (c : ascii) (s t : string) (i : nat) :
  Str.rfind c t = Some i -> Str.rfind c (s ++ t) = Some (String.length s + i)%nat.
Proof.
  intros E. induction s as [|a s IH]; simpl; [exact E|rewrite IH; reflexivity].
Qed.

Lemma uint_numeral (u : Decimal.uint) :
  forallb Str.numeral_char (Str.chars (DecimalString.NilEmpty.string_of_uint u)) = true.
Proof. induction u; simpl; try rewrite IHu; reflexivity. Qed.

Lemma uint_first_digit (u : Decimal.uint) (a : ascii) (rest : string) :
  DecimalString.NilEmpty.string_of_uint u = String a rest ->
  Ascii.eqb a "+" = false /\ Ascii.eqb a "-" = false.
Proof. destruct u; simpl; intros E; inversion E; subst; split; reflexivity. Qed.

Lemma zeros_numeral (k : nat) : forallb Str.numeral_char (Str.chars (Str.zeros k)) = true.
Proof. induction k; simpl; [reflexivity|exact IHk]. Qed.

Lemma length_zeros (k : nat) : String.length (Str.zeros k) = k.
Proof. induction k; simpl; [reflexivity|rewrite IHk; reflexivity]. Qed.

Lemma uint_of_zeros (k : nat) (s : string) :
  DecimalString.NilEmpty.uint_of_string (Str.zeros k ++ s) =
  option_map (Nat.iter k Decimal.D0) (DecimalString.NilEmpty.uint_of_string s).
Proof.
  induction k; simpl.
  - destruct (DecimalString.NilEmpty.uint_of_string s); reflexivity.
  - rewrite IHk. destruct (DecimalString.NilEmpty.uint_of_string s); reflexivity.
Qed.

Lemma of_uint_zeros (k : nat) (u : Decimal.uint) :
  Z.of_uint (Nat.iter k Decimal.D0 u) = Z.of_uint u.
Proof. induction k; simpl; [reflexivity|exact IHk]. Qed.

Lemma str_shape (n : Z) :
  Str.str n = if n <? 0 then String "-" (Str.digits_of n) else Str.digits_of n.
Proof. destruct n; reflexivity. Qed.

Lemma digits_of_uint (n : Z) :
  exists u,
    Str.digits_of n = DecimalString.NilEmpty.string_of_uint u /\
    Z.of_uint u = Z.abs n /\ u <> Decimal.Nil.
Proof.
  unfold Str.digits_of. destruct n as [|p|p]; simpl.
  - exists (Decimal.D0 Decimal.Nil). repeat split; discriminate.
  - exists (Pos.to_uint p). split; [|split].
    + destruct (Pos.to_uint p) eqn:E; try reflexivity.
      exfalso. revert E. apply DecimalPos.Unsigned.to_uint_nonnil.
    + change (Z.of_uint (Pos.to_uint p)) with (Z.of_int (Z.to_int (Zpos p))).
      apply DecimalZ.of_to.
    + apply DecimalPos.Unsigned.to_uint_nonnil.
  - exists (Pos.to_uint p). split; [|split].
    + destruct (Pos.to_uint p) eqn:E; try reflexivity.
      exfalso. revert E. apply DecimalPos.Unsigned.to_uint_nonnil.
    + change (Z.of_uint (Pos.to_uint p)) with (Z.of_int (Z.to_int (Zpos p))).
      apply DecimalZ.of_to.
    + apply DecimalPos.Unsigned.to_uint_nonnil.
Qed.

End StrFacts.

Module NumeralFacts.
Import Ascii StrFacts.

Lemma pad_cases (n width : Z) :
  let fill := Str.zeros (Z.to_nat (width - Z.of_nat (String.length (Str.str n)))) in
  Str.pad (Str.str n) width =
  if n <? 0 then String "-" (fill ++ Str.digits_of n) else (fill ++ Str.digits_of n)%string.
Proof.
  intros fill. unfold Str.pad. fold fill.
  destruct (width <=? Z.of_nat (String.length (Str.str n))) eqn:W.
  - assert (F : fill = EmptyString).
    { unfold fill. apply Z.leb_le in W.
      replace (Z.to_nat _) with O by lia. reflexivity. }
    rewrite F. simpl. apply str_shape.
  - rewrite str_shape. destruct (n <? 0); [reflexivity|].
    destruct (digits_of_uint n) as (u & E & _ & Hu). rewrite E.
    destruct (DecimalString.NilEmpty.string_of_uint u) as [|a rest] eqn:D.
    + destruct u; simpl in D; try discriminate. contradiction.
    + destruct (uint_first_digit u a rest D) as [-> ->]. reflexivity.
Qed.

Lemma pad_value (n width : Z) : Str.decimal_value (Str.pad (Str.str n) width) = Some n.
Proof.
  rewrite pad_cases. cbv zeta.
  set (k := Z.to_nat _). 
  destruct (digits_of_uint n) as (u & E & V & Hu). rewrite E.
  unfold Str.decimal_value.
  destruct (n <? 0) eqn:S.
  - simpl. rewrite uint_of_zeros, DecimalString.NilEmpty.usu. simpl.
    rewrite of_uint_zeros, V. apply Z.ltb_lt in S. f_equal. lia.
  - assert (N : DecimalString.NilEmpty.int_of_string
                  (Str.zeros k ++ DecimalString.NilEmpty.string_of_uint u) =
                option_map Decimal.Pos
                  (DecimalString.NilEmpty.uint_of_string
                     (Str.zeros k ++ DecimalString.NilEmpty.string_of_uint u))).
    { destruct k; simpl; [|reflexivity].
      destruct (DecimalString.NilEmpty.string_of_uint u) as [|a rest] eqn:D.
      - destruct u; simpl in D; try discriminate. contradiction.
      - destruct (uint_first_digit u a rest D) as [_ M].
        unfold DecimalString.NilEmpty.int_of_string. rewrite M. reflexivity. }
    rewrite N, uint_of_zeros, DecimalString.NilEmpty.usu. simpl.
    rewrite of_uint_zeros, V. apply Z.ltb_ge in S. f_equal. lia.
Qed.

Lemma pad_length (n width : Z) :
  Z.of_nat (String.length (Str.pad (Str.str n) width)) =
  Z.max width (Z.of_nat (String.length (Str.str n))).
Proof.
  rewrite pad_cases. cbv zeta. rewrite str_shape.
  destruct (n <? 0); simpl String.length; rewrite ?length_app, length_zeros.
  - lia.
  - lia.
Qed.

Lemma pad_numeral (n width : Z) :
  forallb Str.numeral_char (Str.chars (Str.pad (Str.str n) width)) = true.
Proof.
  rewrite pad_cases. cbv zeta.
  destruct (digits_of_uint n) as (u & E & _ & _). rewrite E.
  destruct (n <? 0); simpl; rewrite chars_app, forallb_app, zeros_numeral, uint_numeral;
    reflexivity.
Qed.

Lemma numeral_without (c : ascii) (s : string) :
  Str.numeral_char c = false ->
  forallb Str.numeral_char (Str.chars s) = true -> ~ In c (Str.chars s).
Proof.
  intros Hc Hs Hin. rewrite forallb_forall in Hs. rewrite (Hs c Hin) in Hc. discriminate.
Qed.

(** [zfill] pads when the width fits 64 bits and the padded string can
    be allocated, and raises otherwise. *)
Lemma zfill_paddable {interpreter : Interpreter} (s : string) (width : Z) :
  Str.paddable width -> Str.zfill s width = Ok (Str.pad s width).
Proof.
  intros [H R]. unfold Str.zfill, Str.pad.
  destruct (- 2 ^ 63 <=? width) eqn:A; [|apply Z.leb_gt in A; lia].
  destruct (width <? 2 ^ 63) eqn:B; [|apply Z.ltb_ge in B; lia].
  cbn [andb]. destruct (width <=? Z.of_nat (String.length s)); [reflexivity|].
  destruct (longest_str <? width) eqn:C; [apply Z.ltb_lt in C; lia|reflexivity].
Qed.

Lemma zfill_out_of_range {interpreter : Interpreter} (s : string) (width : Z) :
  width < - 2 ^ 63 \/ 2 ^ 63 <= width -> Str.zfill s width = Raise OverflowError.
Proof.
  intros H. unfold Str.zfill.
  destruct (- 2 ^ 63 <=? width) eqn:A; [|reflexivity].
  destruct (width <? 2 ^ 63) eqn:B; [|reflexivity].
  apply Z.leb_le in A. apply Z.ltb_lt in B. lia.
Qed.

Lemma zfill_no_room {interpreter : Interpreter} (s : string) (width : Z) :
  - 2 ^ 63 <= width < 2 ^ 63 ->
  Z.of_nat (String.length s) < width -> longest_str < width ->
  Str.zfill s width = Raise MemoryError.
Proof.
  intros H L R. unfold Str.zfill.
  destruct (- 2 ^ 63 <=? width) eqn:A; [|apply Z.leb_gt in A; lia].
  destruct (width <? 2 ^ 63) eqn:B; [|apply Z.ltb_ge in B; lia].
  cbn [andb].
  destruct (width <=? Z.of_nat (String.length s)) eqn:C; [apply Z.leb_le in C; lia|].
  destruct (longest_str <? width) eqn:D; [reflexivity|apply Z.ltb_ge in D; lia].
Qed.

Lemma zfill_padded {interpreter : Interpreter} (s t : string) (width : Z) :
  Str.zfill s width = Ok t -> t = Str.pad s width.
Proof.
  unfold Str.zfill, Str.pad.
  destruct ((- 2 ^ 63 <=? width) && (width <? 2 ^ 63)); [|intros E; discriminate E].
  destruct (width <=? Z.of_nat (String.length s)); [intros E; inversion E; reflexivity|].
  destruct (longest_str <? width); intros E; inversion E. reflexivity.
Qed.

End NumeralFacts.

(** ** Output file names *)

Module NameFacts.
Import Ascii StrFacts.

(** Two texts that end in a separator followed by a part without the
    separator are equal only if both parts are. *)
Lemma last_separator (c : ascii) (b1 b2 e1 e2 : list ascii) :
  ~ In c e1 -> ~ In c e2 -> b1 ++ c :: e1 = b2 ++ c :: e2 -> b1 = b2 /\ e1 = e2.
Proof.
  intros H1 H2. revert b2.
  induction b1 as [|x b1 IH]; intros [|y b2] E; simpl in E.
  - inversion E. split; reflexivity.
  - inversion E; subst. exfalso. apply H1. apply in_or_app. right. left. reflexivity.
  - inversion E; subst. exfalso. apply H2. apply in_or_app. right. left. reflexivity.
  - inversion E; subst. destruct (IH b2 H3) as [-> ->]. split; reflexivity.
Qed.

Lemma splitext_extension (stem e : string) :
  Str.contains Str.slash stem = false ->
  Str.contains Str.slash e = false ->
  Str.contains Str.dot e = false ->
  forallb (Ascii.eqb Str.dot) (Str.chars stem) = false ->
  Path.splitext (stem ++ String Str.dot e) = (stem, String Str.dot e).
Proof.
  intros Hs He Hd Hn. unfold Path.splitext.
  unfold Str.dot, Str.slash in *.
  assert (R1 : Str.rfind "/" (stem ++ String "." e) = None).
  { apply rfind_none. rewrite contains_app. rewrite Hs.
    unfold Str.contains in *. simpl. rewrite He. reflexivity. }
  assert (R2 : Str.rfind "." (stem ++ String "." e) = Some (String.length stem + 0)%nat).
  { apply rfind_app_some. simpl. rewrite (rfind_none _ _ Hd). reflexivity. }
  rewrite R1, R2, Nat.add_0_r, Nat.sub_0_r. simpl Str.drop at 1.
  rewrite take_app, drop_app. simpl andb.
  assert (X : existsb (fun a => negb (Ascii.eqb a ".")) (Str.chars stem) = true).
  { clear - Hn. induction (Str.chars stem) as [|a l IH]; cbn [forallb existsb] in *;
      [discriminate|].
    rewrite Ascii.eqb_sym.
    destruct (Ascii.eqb "." a); cbn [andb orb negb] in *; [apply IH; exact Hn|reflexivity]. }
  rewrite X. reflexivity.
Qed.

Lemma splitext_dots (stem e : string) :
  Str.contains Str.slash stem = false ->
  Str.contains Str.slash e = false ->
  Str.contains Str.dot e = false ->
  forallb (Ascii.eqb Str.dot) (Str.chars stem) = true ->
  Path.splitext (stem ++ String Str.dot e) = ((stem ++ String Str.dot e)%string, EmptyString).
Proof.
  intros Hs He Hd Hn. unfold Path.splitext.
  unfold Str.dot, Str.slash in *.
  assert (R1 : Str.rfind "/" (stem ++ String "." e) = None).
  { apply rfind_none. rewrite contains_app. rewrite Hs.
    unfold Str.contains in *. simpl. rewrite He. reflexivity. }
  assert (R2 : Str.rfind "." (stem ++ String "." e) = Some (String.length stem + 0)%nat).
  { apply rfind_app_some. simpl. rewrite (rfind_none _ _ Hd). reflexivity. }
  rewrite R1, R2, Nat.add_0_r, Nat.sub_0_r. simpl Str.drop at 1.
  rewrite take_app. simpl andb.
  assert (X : existsb (fun a => negb (Ascii.eqb a ".")) (Str.chars stem) = false).
  { clear - Hn. induction (Str.chars stem) as [|a l IH]; cbn [forallb existsb] in *;
      [reflexivity|].
    rewrite Ascii.eqb_sym.
    destruct (Ascii.eqb "." a); cbn [andb orb negb] in *; [apply IH; exact Hn|discriminate]. }
  rewrite X. reflexivity.
Qed.

(** The name of a numbered result, once the numeral is made. *)
Lemma enumerated_name {interpreter : Interpreter} (f : string)
    (prepend_text append_text : option string) (n enum_padding : Z) :
  generate_output_filename f prepend_text append_text true (Some n) enum_padding =
  match Str.zfill (Str.str n) enum_padding with
  | Ok numeral =>
      Ok ((if is_given prepend_text then text_of prepend_text else "") ++
          fst (Path.splitext f) ++ "_" ++ numeral ++
          (if is_given append_text then text_of append_text else "") ++ ".jpg")%string
  | Raise e => Raise e
  end.
Proof.
  unfold generate_output_filename.
  destruct (Path.splitext f) as [base ext]. cbn [fst].
  destruct (Str.zfill (Str.str n) enum_padding) as [numeral|e]; [|reflexivity].
  destruct (is_given prepend_text), (is_given append_text);
    cbn [String.append]; rewrite ?app_assoc; cbn [String.append];
    rewrite ?app_assoc; reflexivity.
Qed.

(** With enumeration on, two different counters give two different names. *)
Lemma enumerated_differ {interpreter : Interpreter} (f1 f2 : string)
    (prepend_text append_text : option string) (n1 n2 enum_padding : Z)
    (name1 name2 : string) :
  n1 <> n2 ->
  generate_output_filename f1 prepend_text append_text true (Some n1) enum_padding =
    Ok name1 ->
  generate_output_filename f2 prepend_text append_text true (Some n2) enum_padding =
    Ok name2 ->
  name1 <> name2.
Proof.
  intros Hn E1 E2 E. apply Hn. clear Hn. rewrite enumerated_name in E1, E2.
  destruct (Str.zfill (Str.str n1) enum_padding) as [t1|e] eqn:Z1; [|discriminate E1].
  destruct (Str.zfill (Str.str n2) enum_padding) as [t2|e] eqn:Z2; [|discriminate E2].
  apply NumeralFacts.zfill_padded in Z1, Z2. subst t1 t2.
  inversion E1 as [N1]. inversion E2 as [N2]. clear E1 E2.
  rewrite E, <- N2 in N1. clear E N2.
  set (p := if is_given prepend_text then text_of prepend_text else EmptyString) in *.
  set (q := ((if is_given append_text then text_of append_text else "") ++ ".jpg")%string)
    in *.
  assert (E' : ((p ++ fst (Path.splitext f1)) ++ "_" ++ Str.pad (Str.str n1) enum_padding =
                (p ++ fst (Path.splitext f2)) ++ "_" ++ Str.pad (Str.str n2) enum_padding)%string).
  { apply (app_inv_tail _ _ q). rewrite !app_assoc. cbn [String.append].
    exact N1. }
  apply (f_equal Str.chars) in E'. rewrite !chars_app in E'. simpl in E'.
  apply last_separator in E'.
  - destruct E' as [_ E']. apply chars_inj in E'.
    apply (f_equal Str.decimal_value) in E'.
    rewrite !NumeralFacts.pad_value in E'. inversion E'. reflexivity.
  - apply NumeralFacts.numeral_without; [reflexivity|apply NumeralFacts.pad_numeral].
  - apply NumeralFacts.numeral_without; [reflexivity|apply NumeralFacts.pad_numeral].
Qed.

End NameFacts.

(** ** Colours *)

Module ColourFacts.
Import Ascii StrFacts.

Lemma split_no_separator (c : ascii) (s : string) :
  ~ In c (Str.chars s) -> Str.split c s = [s].
Proof.
  induction s as [|a s IH]; intros H; simpl; [reflexivity|].
  destruct (Ascii.eqb_spec a c) as [->|_].
  - exfalso. apply H. left. reflexivity.
  - rewrite IH; [reflexivity|]. intros X. apply H. right. exact X.
Qed.

Lemma split_first_field (c : ascii) (s t : string) :
  ~ In c (Str.chars s) -> Str.split c (s ++ String c t) = s :: Str.split c t.
Proof.
  induction s as [|a s IH]; intros H; simpl.
  - rewrite Ascii.eqb_refl. reflexivity.
  - destruct (Ascii.eqb_spec a c) as [->|_].
    + exfalso. apply H. left. reflexivity.
    + rewrite IH; [reflexivity|]. intros X. apply H. right. exact X.
Qed.

Lemma str_numeral (n : Z) : forallb Str.numeral_char (Str.chars (Str.str n)) = true.
Proof.
  rewrite str_shape. destruct (digits_of_uint n) as (u & E & _ & _). rewrite E.
  destruct (n <? 0); simpl; rewrite uint_numeral; reflexivity.
Qed.

Lemma decimal_value_str (n : Z) : Str.decimal_value (Str.str n) = Some n.
Proof.
  pose proof (NumeralFacts.pad_value n 0) as H. unfold Str.pad in H.
  replace (0 <=? Z.of_nat (String.length (Str.str n))) with true in H
    by (symmetry; apply Z.leb_le; lia).
  exact H.
Qed.

Lemma clamp_channel_range (r : Z) : 0 <= clamp_channel r <= 255.
Proof. unfold clamp_channel. lia. Qed.

Lemma clamp_channel_fixed (r : Z) : 0 <= r <= 255 -> clamp_channel r = r.
Proof. unfold clamp_channel. lia. Qed.

End ColourFacts.

(** ** Rounding, for the sides of a resized picture *)

Module ScalingFacts.
Import FloatFacts.

Lemma shr_1_half (r : shr_record) : 0 <= shr_m r -> shr_m (shr_1 r) = shr_m r / 2.
Proof.
  destruct r as [m rb sb]. simpl. intros H.
  destruct m as [|[p|p|]|p]; cbn [shr_m]; try reflexivity; try lia.
  - apply Z.div_unique with (r := 1); lia.
  - apply Z.div_unique with (r := 0); lia.
Qed.

Lemma shr_iter_m (n : positive) (r : shr_record) :
  0 <= shr_m r -> shr_m (iter_pos shr_1 n r) = shr_m r / 2 ^ Zpos n.
Proof.
  intros H. rewrite iter_pos_iter.
  induction n as [|n IH] using Pos.peano_ind.
  - simpl Pos.iter. rewrite shr_1_half by exact H. reflexivity.
  - rewrite Pos.iter_succ, shr_1_half.
    + rewrite IH, Pos2Z.inj_succ, Z.pow_succ_r by lia.
      rewrite Z.div_div by (try apply Z.pow_pos_nonneg; lia).
      f_equal. lia.
    + rewrite IH. apply Z.div_pos; [exact H|apply Z.pow_pos_nonneg; lia].
Qed.

(** Rounding a mantissa of 53 digits or more: the result, scaled back,
    is within one part in 2^52 of it. *)
Lemma round_wide (q : positive) (e : Z) (l : location) :
  53 <= Zpos (digits2_pos q) ->
  -1074 <= e + (Zpos (digits2_pos q) - 53) <= 900 ->
  exists M k,
    binary_round_aux prec emax false (Zpos q) e l = S754_finite false M (e + k) /\
    0 <= k /\
    Zpos q * (2 ^ 52 - 1) <= Zpos M * 2 ^ k * 2 ^ 52 <= Zpos q * (2 ^ 52 + 1).
Proof.
  intros Hd [He Hmax]. rewrite binary_round_aux_finish.
  pose proof (digits2_bounds q) as Hb.
  set (d := Zpos (digits2_pos q)) in *.
  destruct (Z.eq_dec d 53) as [D|D].
  - rewrite (shr_fexp_full q e l D) by lia. rewrite shr_m_of_loc.
    rewrite D in Hb. change (2 ^ (53 - 1)) with (2 ^ 52) in Hb.
    destruct (finish_full q e (loc_of_shr_record (shr_record_of_loc (Zpos q) l)) D)
      as (M & j & E & [[-> HM] | [-> HM]]); [lia| |].
    + exists M, 0. split; [exact E|]. rewrite Z.pow_0_r. 
      change (2 ^ 52) with 4503599627370496 in *. lia.
    + exists M, 1. split; [exact E|]. rewrite Z.pow_1_r.
      change (2 ^ 52) with 4503599627370496 in *. lia.
  - set (k0 := d - 53). assert (Hk0 : 0 < k0) by (unfold k0; lia).
    unfold shr_fexp, fexp, emin, prec, emax. simpl Zdigits2. fold d.
    replace (Z.max (d + e - 53) (3 - 1024 - 53) - e) with k0 by (unfold k0; lia).
    destruct k0 as [|kp|kp] eqn:Ek; try lia.
    cbn [shr].
    pose proof (shr_iter_m kp (shr_record_of_loc (Zpos q) l)) as Hm.
    rewrite shr_m_of_loc in Hm. specialize (Hm ltac:(lia)).
    set (P := 2 ^ Zpos kp) in *.
    assert (HP : 0 < P) by (apply Z.pow_pos_nonneg; lia).
    assert (Hm1 : 2 ^ 52 * P <= Zpos q < 2 ^ 53 * P).
    { unfold P. rewrite <- !Z.pow_add_r by lia.
      replace (52 + Zpos kp) with (d - 1) by lia.
      replace (53 + Zpos kp) with d by lia. exact Hb. }
    pose proof (Z.div_mod (Zpos q) P ltac:(lia)) as Hdm.
    pose proof (Z.mod_pos_bound (Zpos q) P HP) as Hr.
    set (m' := Zpos q / P) in *.
    assert (Hm' : 2 ^ 52 <= m' < 2 ^ 53).
    { split.
      - apply Z.div_le_lower_bound; lia.
      - apply Z.div_lt_upper_bound; lia. }
    destruct m' as [|mp|mp] eqn:Em; try (change (2 ^ 52) with 4503599627370496 in *; lia).
    rewrite Hm.
    assert (Dm : Zpos (digits2_pos mp) = 53).
    { apply digits2_unique; [|lia]. change (2 ^ (53 - 1)) with (2 ^ 52). exact Hm'. }
    destruct (finish_full mp (e + Zpos kp)
                (loc_of_shr_record (iter_pos shr_1 kp (shr_record_of_loc (Zpos q) l))) Dm)
      as (M & j & E & HM); [lia|].
    exists M, (Zpos kp + j). rewrite Z.add_assoc. split; [exact E|].
    assert (Hj : 0 <= j <= 1) by (destruct HM as [[-> _]|[-> _]]; lia).
    split; [lia|].
    rewrite Z.pow_add_r by lia. fold P.
    assert (HV : Zpos M * 2 ^ j = Zpos mp \/ Zpos M * 2 ^ j = Zpos mp + 1).
    { destruct HM as [[-> HM]|[-> HM]].
      - rewrite Z.pow_0_r. lia.
      - rewrite Z.pow_1_r. lia. }
    set (V := Zpos M * 2 ^ j) in *.
    replace (Zpos M * (P * 2 ^ j)) with (V * P) by (unfold V; ring).
    change (2 ^ 52) with 4503599627370496 in *.
    change (2 ^ 53) with 9007199254740992 in *.
    destruct HV as [-> | ->]; nia.
Qed.

(** [int(x)] of a positive double is the floor of its value. *)
Lemma to_int_floor (m : positive) (e N : Z) :
  0 <= N -> 0 <= e + N ->
  to_int (S754_finite false m e) = Ok (Zpos m * 2 ^ (e + N) / 2 ^ N).
Proof.
  intros HN He. cbn [to_int]. f_equal. unfold trunc_mag.
  assert (HP : 0 < 2 ^ N) by (apply Z.pow_pos_nonneg; lia).
  destruct e as [|k|k].
  - rewrite Z.add_0_l. rewrite Z.div_mul by lia. reflexivity.
  - rewrite Z.pow_add_r by lia. rewrite Z.mul_assoc, Z.div_mul by lia. reflexivity.
  - replace N with ((Zneg k + N) + Zpos k) at 2 by lia.
    rewrite (Z.pow_add_r 2 (Zneg k + N) (Zpos k)) by lia.
    rewrite (Z.mul_comm (2 ^ (Zneg k + N))).
    rewrite Z.div_mul_cancel_r; [reflexivity| |].
    + apply Z.pow_nonzero; lia.
    + apply Z.pow_nonzero; lia.
Qed.

Lemma digits2_below (p : positive) (k : Z) :
  Zpos p < 2 ^ k -> 0 <= k -> Zpos (digits2_pos p) <= k.
Proof.
  intros H Hk. pose proof (digits2_bounds p) as Hb.
  destruct (Z.le_gt_cases (Zpos (digits2_pos p)) k) as [L|G]; [exact L|].
  exfalso. assert (2 ^ k <= 2 ^ (Zpos (digits2_pos p) - 1)) by (apply Z.pow_le_mono_r; lia).
  lia.
Qed.

(** [a / b] for two positive integers below 2^53: the double that comes
    out, scaled by 2^s, is within one part in 2^51 of the quotient. *)
Lemma int_truediv_pos (a b : positive) :
  Zpos a < 2 ^ 53 -> Zpos b < 2 ^ 53 ->
  exists (Mr : positive) (E s : Z),
    int_truediv (Zpos a) (Zpos b) = Ok (S754_finite false Mr E) /\
    1 <= s <= 106 /\ 0 <= E + s <= 2 /\
    Zpos Mr * 2 ^ (E + s) < 2 ^ 55 /\
    Zpos b * (Zpos Mr * 2 ^ (E + s)) * 2 ^ 51 <= Zpos a * 2 ^ s * (2 ^ 51 + 1) /\
    Zpos a * 2 ^ s * (2 ^ 51 - 1) <= Zpos b * (Zpos Mr * 2 ^ (E + s)) * 2 ^ 51.
Proof.
  intros Ha Hb. unfold int_truediv.
  cbn [Z.eqb Z.ltb Z.compare xorb Z.abs].
  pose proof (digits2_bounds a) as Da. pose proof (digits2_bounds b) as Db.
  pose proof (digits2_below a 53 Ha ltac:(lia)) as Da'.
  pose proof (digits2_below b 53 Hb ltac:(lia)) as Db'.
  set (d1 := Zpos (digits2_pos a)) in *. set (d2 := Zpos (digits2_pos b)) in *.
  assert (Hd1 : 1 <= d1) by (unfold d1; lia).
  assert (Hd2 : 1 <= d2) by (unfold d2; lia).
  set (s := 53 + d2 - d1).
  assert (Hs : 1 <= s <= 106) by (unfold s; lia).
  unfold SFdiv_core_binary, fexp, emin, prec, emax.
  simpl Zdigits2. fold d1 d2.
  replace (Z.min (Z.max (d1 + 0 - (d2 + 0) - 53) (3 - 1024 - 53)) (0 - 0))
    with (- s) by (unfold s; lia).
  replace (0 - 0 - - s) with s by lia.
  destruct s as [|sp|sp] eqn:Es; try lia.
  cbv zeta. rewrite Z.shiftl_mul_pow2 by lia.
  set (P := 2 ^ Zpos sp).
  assert (HP : 0 < P) by (apply Z.pow_pos_nonneg; lia).
  pose proof (Z.div_eucl_eq (Zpos a * P) (Zpos b) ltac:(lia)) as Hdm.
  pose proof (Z.mod_pos_bound (Zpos a * P) (Zpos b) ltac:(lia)) as Hrm.
  unfold Z.modulo in Hrm.
  destruct (Z.div_eucl (Zpos a * P) (Zpos b)) as [q r] eqn:Eqr.
  (* the quotient has 53 or 54 digits *)
  assert (Hlow : 2 ^ 52 * Zpos b <= Zpos a * P).
  { assert (2 ^ 52 * 2 ^ d2 <= 2 ^ (d1 - 1) * P).
    { unfold P. rewrite <- !Z.pow_add_r by lia. apply Z.pow_le_mono_r; lia. }
    assert (0 < 2 ^ (d1 - 1)) by (apply Z.pow_pos_nonneg; lia).
    nia. }
  assert (Hhigh : Zpos a * P < 2 ^ 54 * Zpos b).
  { assert (2 ^ d1 * P <= 2 ^ 54 * 2 ^ (d2 - 1)).
    { unfold P. rewrite <- !Z.pow_add_r by lia. apply Z.pow_le_mono_r; lia. }
    assert (0 < 2 ^ (d2 - 1)) by (apply Z.pow_pos_nonneg; lia).
    nia. }
  assert (Hq : 2 ^ 52 <= q < 2 ^ 54).
  { change (2 ^ 52) with 4503599627370496 in *.
    change (2 ^ 54) with 18014398509481984 in *. split; nia. }
  destruct q as [|qp|qp]; try (change (2 ^ 52) with 4503599627370496 in Hq; lia).
  destruct (round_outcomes qp (- Zpos sp) (new_location (Zpos b) r) Hq)
    as (M & j & E & Hj & HM & _); [lia|].
  exists M, (- Zpos sp + j), (Zpos sp).
  unfold prec, emax in E. rewrite E.
  split; [reflexivity|]. split; [lia|].
  replace (- Zpos sp + j + Zpos sp) with j by lia.
  split; [lia|].
  set (R := Zpos M * 2 ^ j) in *.
  change (2 ^ 51) with 2251799813685248.
  change (2 ^ 55) with 36028797018963968.
  change (2 ^ 52) with 4503599627370496 in *.
  change (2 ^ 54) with 18014398509481984 in *.
  split; [lia|]. split; nia.
Qed.

(** A value within the two rounding errors of [HA / b] has the floor of
    [HA / b], or one less. *)
Lemma floor_within (Y D HA b : Z) :
  0 < D -> 0 < b -> 0 <= Y -> 0 <= HA < 2 ^ 50 ->
  Y * (2 ^ 103 * b) <= HA * ((2 ^ 52 + 1) * (2 ^ 51 + 1)) * D ->
  HA * ((2 ^ 52 - 1) * (2 ^ 51 - 1)) * D <= Y * (2 ^ 103 * b) ->
  HA / b - 1 <= Y / D <= HA / b.
Proof.
  intros HD Hb HY HHA Hup Hlow.
  pose proof (Z.div_mod HA b ltac:(lia)) as Hdm.
  pose proof (Z.mod_pos_bound HA b Hb) as Hr.
  set (F := HA / b) in *.
  assert (HF : 0 <= F) by (apply Z.div_pos; lia).
  change (2 ^ 50) with 1125899906842624 in *.
  change (2 ^ 103) with 10141204801825835211973625643008 in *.
  change ((2 ^ 52 + 1) * (2 ^ 51 + 1))
    with (10141204801825835211973625643008 + 6755399441055745) in *.
  change ((2 ^ 52 - 1) * (2 ^ 51 - 1))
    with (10141204801825835211973625643008 - 6755399441055743) in *.
  split.
  - apply Z.div_le_lower_bound; [exact HD|].
    destruct (Z.le_gt_cases (D * (F - 1)) Y) as [L|G]; [exact L|exfalso].
    assert (HF1 : 1 <= F) by nia.
    assert (S1 : Y * (10141204801825835211973625643008 * b) <
                 D * (F - 1) * (10141204801825835211973625643008 * b)).
    { apply Z.mul_lt_mono_pos_r; lia. }
    assert (S2 : (F - 1) * b <= HA - b) by lia.
    assert (S3 : D * (F - 1) * (10141204801825835211973625643008 * b) <=
                 D * 10141204801825835211973625643008 * (HA - b)).
    { replace (D * (F - 1) * (10141204801825835211973625643008 * b))
        with (D * 10141204801825835211973625643008 * ((F - 1) * b)) by ring.
      apply Z.mul_le_mono_nonneg_l; lia. }
    assert (S4 : HA * (10141204801825835211973625643008 - 6755399441055743) * D <
                 D * 10141204801825835211973625643008 * (HA - b)) by lia.
    assert (S5 : D * (HA * (10141204801825835211973625643008 - 6755399441055743)) <
                 D * (10141204801825835211973625643008 * (HA - b))) by lia.
    apply Z.mul_lt_mono_pos_l in S5; [|exact HD]. lia.
  - apply Z.lt_succ_r. apply Z.div_lt_upper_bound; [exact HD|].
    destruct (Z.lt_ge_cases Y (D * Z.succ F)) as [L|G]; [exact L|exfalso].
    assert (S1 : D * Z.succ F * (10141204801825835211973625643008 * b) <=
                 Y * (10141204801825835211973625643008 * b)).
    { apply Z.mul_le_mono_nonneg_r; lia. }
    assert (S2 : HA + 1 <= Z.succ F * b) by lia.
    assert (S3 : D * 10141204801825835211973625643008 * (HA + 1) <=
                 D * Z.succ F * (10141204801825835211973625643008 * b)).
    { replace (D * Z.succ F * (10141204801825835211973625643008 * b))
        with (D * 10141204801825835211973625643008 * (Z.succ F * b)) by ring.
      apply Z.mul_le_mono_nonneg_l; lia. }
    assert (S5 : D * (10141204801825835211973625643008 * (HA + 1)) <=
                 D * (HA * (10141204801825835211973625643008 + 6755399441055745))) by lia.
    apply Z.mul_le_mono_pos_l in S5; [|exact HD]. lia.
Qed.

(** [int(side * (max_dimension / longest))] for three positive integers
    below 2^25: the floor of the exact value, or one less. *)
Lemma scale_side_bounds (h a b : Z) :
  0 < h < 2 ^ 25 -> 0 < a < 2 ^ 25 -> 0 < b < 2 ^ 25 ->
  exists z, scale_side h a b = Ok z /\ 0 <= z /\ h * a / b - 1 <= z <= h * a / b.
Proof.
  intros Hh Ha Hb.
  destruct h as [|hp|hp]; try lia. destruct a as [|ap|ap]; try lia.
  destruct b as [|bp|bp]; try lia.
  assert (P25 : 2 ^ 25 < 2 ^ 53) by (apply Z.pow_lt_mono_r; lia).
  destruct (int_truediv_pos ap bp) as (Mr & E & s & Ediv & Hs & Hj & HR & Hup & Hlow);
    try lia.
  unfold scale_side. rewrite Ediv. unfold int_mul_float.
  rewrite float_of_int_small by (rewrite Z.abs_eq; lia).
  destruct (of_Z_pos_shape hp) as (mh & eh & Eh & _ & Dh & Heh & Hmh & _); [lia|].
  rewrite of_Z_positive, Eh. unfold mul, SFmul. cbn [xorb].
  change (Zpos mh * Zpos Mr) with (Zpos (mh * Mr)).
  set (j := E + s) in *.
  assert (Hpj : 1 <= 2 ^ j) by (pose proof (Z.pow_pos_nonneg 2 j); lia).
  assert (HMr : Zpos Mr < 2 ^ 55) by nia.
  pose proof (digits2_bounds mh) as Bh. rewrite Dh in Bh.
  change (2 ^ (53 - 1)) with (2 ^ 52) in Bh.
  assert (Dq1 : 53 <= Zpos (digits2_pos (mh * Mr))).
  { pose proof (digits2_mul_below mh Mr). pose proof (digits2_bounds Mr).
    assert (1 <= Zpos (digits2_pos Mr)) by lia. lia. }
  assert (Dq2 : Zpos (digits2_pos (mh * Mr)) <= 108).
  { apply digits2_below; [|lia]. rewrite Pos2Z.inj_mul.
    change (2 ^ 108) with (2 ^ 53 * 2 ^ 55).
    apply Z.mul_lt_mono_nonneg; lia. }
  destruct (round_wide (mh * Mr) (eh + E) loc_Exact Dq1) as (M' & k & Er & Hk & HV);
    try lia.
  rewrite Er.
  set (t := - eh) in *.
  rewrite (to_int_floor M' (eh + E + k) (t + s)) by (unfold t; lia).
  replace (eh + E + k + (t + s)) with (j + k) by (unfold t, j; lia).
  eexists. split; [reflexivity|].
  set (Y := Zpos M' * 2 ^ (j + k)).
  set (D := 2 ^ (t + s)).
  assert (HD : 0 < D) by (apply Z.pow_pos_nonneg; unfold t; lia).
  assert (HY : 0 <= Y).
  { unfold Y. apply Z.mul_nonneg_nonneg; [lia|]. apply Z.pow_nonneg. lia. }
  split; [apply Z.div_pos; lia|].
  apply floor_within; try lia.
  - change (2 ^ 50) with (2 ^ 25 * 2 ^ 25). split; [lia|].
    apply Z.mul_lt_mono_nonneg; lia.
  - (* the upper bound *)
    rewrite Pos2Z.inj_mul in HV. destruct HV as [_ HV].
    unfold Y, D. rewrite !Z.pow_add_r by (unfold t; lia).
    set (Pj := 2 ^ j) in *. set (Pk := 2 ^ k) in *. set (Pt := 2 ^ t) in *.
    set (Ps := 2 ^ s) in *.
    assert (0 < Pk) by (apply Z.pow_pos_nonneg; lia).
    assert (0 < Pt) by (apply Z.pow_pos_nonneg; unfold t; lia).
    assert (0 < Ps) by (apply Z.pow_pos_nonneg; lia).
    change (2 ^ 103) with (2 ^ 52 * 2 ^ 51).
    set (c52 := 2 ^ 52) in *. set (c51 := 2 ^ 51) in *.
    assert (0 < c52) by (unfold c52; lia). assert (0 < c51) by (unfold c51; lia).
    fold t in Hmh. fold Pt in Hmh.
    (* Y * c52 <= mh * R * (c52 + 1) *)
    transitivity ((Zpos mh * Zpos Mr * (c52 + 1)) * (Pj * (c51 * Zpos bp))).
    + replace (Zpos M' * (Pj * Pk) * (c52 * c51 * Zpos bp))
        with ((Zpos M' * Pk * c52) * (Pj * (c51 * Zpos bp))) by ring.
      apply Z.mul_le_mono_nonneg_r; [|exact HV].
      apply Z.mul_nonneg_nonneg; [lia|]. apply Z.mul_nonneg_nonneg; lia.
    + rewrite Hmh.
      replace (Zpos hp * Pt * Zpos Mr * (c52 + 1) * (Pj * (c51 * Zpos bp)))
        with ((Zpos hp * Pt * (c52 + 1)) * (Zpos bp * (Zpos Mr * Pj) * c51)) by ring.
      replace (Zpos hp * Zpos ap * ((c52 + 1) * (c51 + 1)) * (Pt * Ps))
        with ((Zpos hp * Pt * (c52 + 1)) * (Zpos ap * Ps * (c51 + 1))) by ring.
      apply Z.mul_le_mono_nonneg_l; [|exact Hup].
      apply Z.mul_nonneg_nonneg; [|lia]. apply Z.mul_nonneg_nonneg; lia.
  - (* the lower bound *)
    rewrite Pos2Z.inj_mul in HV. destruct HV as [HV _].
    unfold Y, D. rewrite !Z.pow_add_r by (unfold t; lia).
    set (Pj := 2 ^ j) in *. set (Pk := 2 ^ k) in *. set (Pt := 2 ^ t) in *.
    set (Ps := 2 ^ s) in *.
    assert (0 < Pk) by (apply Z.pow_pos_nonneg; lia).
    assert (0 < Pt) by (apply Z.pow_pos_nonneg; unfold t; lia).
    assert (0 < Ps) by (apply Z.pow_pos_nonneg; lia).
    change (2 ^ 103) with (2 ^ 52 * 2 ^ 51).
    set (c52 := 2 ^ 52) in *. set (c51 := 2 ^ 51) in *.
    assert (1 < c52) by (unfold c52; lia). assert (1 < c51) by (unfold c51; lia).
    fold t in Hmh. fold Pt in Hmh.
    transitivity ((Zpos mh * Zpos Mr * (c52 - 1)) * (Pj * (c51 * Zpos bp))).
    + rewrite Hmh.
      replace (Zpos hp * Pt * Zpos Mr * (c52 - 1) * (Pj * (c51 * Zpos bp)))
        with ((Zpos hp * Pt * (c52 - 1)) * (Zpos bp * (Zpos Mr * Pj) * c51)) by ring.
      replace (Zpos hp * Zpos ap * ((c52 - 1) * (c51 - 1)) * (Pt * Ps))
        with ((Zpos hp * Pt * (c52 - 1)) * (Zpos ap * Ps * (c51 - 1))) by ring.
      apply Z.mul_le_mono_nonneg_l; [|exact Hlow].
      apply Z.mul_nonneg_nonneg; [|lia]. apply Z.mul_nonneg_nonneg; lia.
    + replace (Zpos M' * (Pj * Pk) * (c52 * c51 * Zpos bp))
        with ((Zpos M' * Pk * c52) * (Pj * (c51 * Zpos bp))) by ring.
      apply Z.mul_le_mono_nonneg_r; [|exact HV].
      apply Z.mul_nonneg_nonneg; [lia|]. apply Z.mul_nonneg_nonneg; lia.
Qed.

(** The new dimensions, for sides below 2^25. *)
Lemma new_dimensions_bounds (w h M : Z) :
  0 < w < 2 ^ 25 -> 0 < h < 2 ^ 25 -> 0 < M < 2 ^ 25 ->
  exists new_width new_height,
    new_dimensions w h M = Ok (new_width, new_height) /\
    0 <= new_width <= Z.min w M /\
    0 <= new_height <= Z.min h M /\
    Z.max new_width new_height = Z.min M (Z.max w h) /\
    (w <= M -> h <= M -> new_width = w /\ new_height = h) /\
    (h < w -> M < w -> h * M / w - 1 <= new_height <= h * M / w) /\
    (w <= h -> M < h -> w * M / h - 1 <= new_width <= w * M / h).
Proof.
  intros Hw Hh HM. unfold new_dimensions.
  destruct (h <? w) eqn:C1; [apply Z.ltb_lt in C1|apply Z.ltb_ge in C1].
  - destruct (M <? w) eqn:C2; [apply Z.ltb_lt in C2|apply Z.ltb_ge in C2].
    + destruct (scale_side_bounds h M w Hh HM Hw) as (z & E & Hz & Hb).
      rewrite E. exists M, z.
      assert (F1 : h * M / w < M).
      { apply Z.div_lt_upper_bound; [lia|]. apply Z.mul_lt_mono_pos_r; lia. }
      assert (F2 : h * M / w <= h).
      { apply Z.div_le_upper_bound; [lia|]. rewrite Z.mul_comm.
        apply Z.mul_le_mono_nonneg_r; lia. }
      repeat split; try lia.
    + exists w, h. repeat split; lia.
  - destruct (M <? h) eqn:C2; [apply Z.ltb_lt in C2|apply Z.ltb_ge in C2].
    + destruct (scale_side_bounds w M h Hw HM Hh) as (z & E & Hz & Hb).
      rewrite E. exists z, M.
      assert (F1 : w * M / h <= M).
      { apply Z.div_le_upper_bound; [lia|]. apply Z.mul_le_mono_nonneg_r; lia. }
      assert (F2 : w * M / h <= w).
      { apply Z.div_le_upper_bound; [lia|]. rewrite Z.mul_comm.
        apply Z.mul_le_mono_nonneg_r; lia. }
      repeat split; try lia.
    + exists w, h. repeat split; lia.
Qed.

End ScalingFacts.

(** ** The steps of the workflow *)

Module WorkflowFacts.
Import Workflow.

Section Steps.
Context {interpreter : Interpreter} {studio : Studio}.

Lemma remove_if_exists_gone (path : string) (w w' : world) (u : unit) :
  remove_if_exists path w = (Ok u, w') -> path_exists path w' = false.
Proof.
  unfold remove_if_exists. destruct u.
  destruct (path_exists path w) eqn:E.
  - apply remove_removes.
  - intros X. inversion X; subst. exact E.
Qed.

Lemma remove_if_exists_keeps_absent (path other : string) (w w' : world) (u : unit) :
  remove_if_exists path w = (Ok u, w') ->
  path_exists other w = false -> path_exists other w' = false.
Proof.
  unfold remove_if_exists. destruct u.
  destruct (path_exists path w) eqn:E.
  - apply remove_keeps_absent.
  - intros X. inversion X; subst. auto.
Qed.

(** When [process_image] returns True, both working files are gone. *)
Lemma process_image_done (filename : string) (o : options) (enum_counter : option Z)
    (w w' : world) :
  process_image filename o enum_counter w = (Ok true, w') ->
  path_exists (working_jpg_path o filename) w' = false /\
  path_exists (resized_jpg_path o filename) w' = false.
Proof.
  intros E. unfold process_image in E. unfold Sys.bind at 1, Sys.lift in E.
  destruct (output_filename o filename enum_counter) as [name|e]; [|discriminate E].
  unfold Sys.bind at 1, say at 1 in E.
  destruct (print (Processing filename)) as [u|e]; [|discriminate E].
  unfold Sys.bind at 1, say at 1 in E.
  destruct (print (OutputFilename name)) as [u'|e]; [|discriminate E].
  unfold Sys.bind at 1 in E.
  destruct (convert_to_jpg (input_path o filename) (working_jpg_path o filename) w)
    as [[[|]|e] w1]; cbn [negb] in E; try discriminate E.
  unfold Sys.bind at 1 in E.
  destruct (resize_image (working_jpg_path o filename) (resized_jpg_path o filename)
              (max_dimension o) w1) as [[[|]|e] w2]; cbn [negb] in E; try discriminate E.
  unfold Sys.bind at 1 in E.
  destruct (add_copyright (resized_jpg_path o filename) (copyright_holder o) (year o) w2)
    as [[[|]|e] w3]; cbn [negb] in E; try discriminate E.
  unfold Sys.bind at 1 in E.
  destruct (add_watermark_to (resized_jpg_path o filename)
              (Path.join (output_dir o) name) (watermark o) w3)
    as [[[|]|e] w4]; cbn [negb] in E; try discriminate E.
  unfold Sys.bind at 1 in E.
  destruct (remove_if_exists (working_jpg_path o filename) w4) as [[u1|e] w5] eqn:R1;
    [|discriminate E].
  unfold Sys.bind at 1 in E.
  destruct (remove_if_exists (resized_jpg_path o filename) w5) as [[u2|e] w6] eqn:R2;
    [|discriminate E].
  unfold Sys.bind, say in E.
  destruct (print (CompletedProcessing filename)) as [u3|e]; [|discriminate E].
  inversion E; subst w6. split.
  - eapply remove_if_exists_keeps_absent; [exact R2|].
    eapply remove_if_exists_gone. exact R1.
  - eapply remove_if_exists_gone. exact R2.
Qed.


End Steps.
End WorkflowFacts.

(** ** Paths and the loop over the files *)

Module BatchFacts.
Import Ascii Workflow StrFacts.

Lemma take_drop (n : nat) (s : string) : (Str.take n s ++ Str.drop n s)%string = s.
Proof.
  revert s. induction n as [|n IH]; intros [|a s]; simpl; try reflexivity.
  rewrite IH. reflexivity.
Qed.

(** [splitext] cuts the name in two and loses nothing. *)
Lemma splitext_joins (p : string) :
  (fst (Path.splitext p) ++ snd (Path.splitext p))%string = p.
Proof.
  unfold Path.splitext. destruct (Str.rfind "." p) as [i|]; [|apply app_empty_r].
  match goal with |- context [if ?c then _ else _] => destruct c end.
  - apply take_drop.
  - apply app_empty_r.
Qed.

Lemma plain_name {interpreter : Interpreter} (filename : string)
    (prepend_text append_text : option string) (enumerate_files : bool)
    (enum_counter : option Z) (enum_padding : Z) :
  is_given prepend_text = false -> is_given append_text = false ->
  enumerate_files = false \/ enum_counter = None ->
  generate_output_filename filename prepend_text append_text enumerate_files
    enum_counter enum_padding = Ok (fst (Path.splitext filename) ++ ".jpg")%string.
Proof.
  intros Hp Ha He. unfold generate_output_filename.
  destruct (Path.splitext filename) as [base ext]. rewrite Hp, Ha. cbn [fst].
  destruct He as [-> | ->]; [reflexivity|]. destruct enumerate_files; reflexivity.
Qed.

Section Loop.
Context {S : Type}.
Variable process : string -> option Z -> Sys.IO S bool.
Variable enumerate_files : bool.

Lemma successes_app (l1 l2 : list (string * option Z * bool)) :
  successes (l1 ++ l2) = (successes l1 + successes l2)%nat.
Proof. unfold successes. rewrite filter_app, List.length_app. reflexivity. Qed.

(** The loop with the record and the loop without it do the same, and
    the record shows which counter every file was given. *)
Lemma process_files_logged (files : list string) :
  forall (success_count enum_counter : Z) (w : S) (log0 : list (string * option Z * bool))
         (r : result (Z * Z)) (w' : S) (log' : list (string * option Z * bool)),
    process_files (logged process) enumerate_files files success_count enum_counter
      (w, log0) = (r, (w', log')) ->
    exists log,
      log' = log0 ++ log /\
      process_files process enumerate_files files success_count enum_counter w = (r, w') /\
      (forall i f c ok,
         nth_error log i = Some (f, c, ok) ->
         c = if enumerate_files
             then Some (enum_counter + Z.of_nat (successes (firstn i log)))
             else None) /\
      (forall sc cnt,
         r = Ok (sc, cnt) ->
         map (fun entry => fst (fst entry)) log = files /\
         sc = success_count + Z.of_nat (successes log) /\
         cnt = if enumerate_files then enum_counter + Z.of_nat (successes log)
               else enum_counter).
Proof.
  induction files as [|filename rest IH]; intros sc0 cnt0 w log0 r w' log' E.
  - cbn in E. inversion E; subst. exists []. rewrite List.app_nil_r.
    split; [reflexivity|]. split; [reflexivity|]. split.
    + intros [|i] f c ok X; discriminate X.
    + intros sc cnt X. inversion X; subst. cbn.
      destruct enumerate_files; repeat split; lia.
  - cbn [process_files] in E |- *. unfold Sys.bind in E |- *. unfold logged at 1 in E.
    set (current := if enumerate_files then Some cnt0 else None) in *.
    destruct (process filename current w) as [[ok|e] w1] eqn:P.
    + set (entry := (filename, current, ok)) in *.
      assert (E' : process_files (logged process) enumerate_files rest
                     (if ok then sc0 + 1 else sc0)
                     (if ok then (if enumerate_files then cnt0 + 1 else cnt0) else cnt0)
                     (w1, log0 ++ [entry]) = (r, (w', log'))).
      { destruct ok; exact E. }
      apply IH in E'. destruct E' as (log & Hl & Hrun & Hc & Hr).
      exists (entry :: log). split; [rewrite Hl, <- List.app_assoc; reflexivity|].
      split; [destruct ok; exact Hrun|]. split.
      * intros [|i] f c b X.
        -- cbn in X. inversion X; subst. cbn. unfold current.
           destruct enumerate_files; [f_equal; lia|reflexivity].
        -- cbn [nth_error] in X. rewrite (Hc i f c b X).
           destruct enumerate_files; [|reflexivity]. f_equal.
           cbn [firstn].
           change (entry :: firstn i log) with ([entry] ++ firstn i log).
           rewrite successes_app. unfold successes at 2. cbn. 
           destruct ok; cbn; lia.
      * intros sc cnt X. destruct (Hr sc cnt X) as (Hm & Hs & Hn).
        change (entry :: log) with ([entry] ++ log). rewrite successes_app.
        split; [cbn; rewrite Hm; reflexivity|].
        unfold successes at 1 3. cbn.
        destruct ok; cbn; destruct enumerate_files; split; lia.
    + inversion E; subst. exists []. rewrite List.app_nil_r.
      split; [reflexivity|]. split; [reflexivity|]. split.
      * intros [|i] f c ok X; discriminate X.
      * intros sc cnt X. discriminate X.
Qed.

Lemma process_files_count (files : list string) :
  forall (success_count enum_counter sc cnt : Z) (w w' : S),
    process_files process enumerate_files files success_count enum_counter w =
      (Ok (sc, cnt), w') ->
    success_count <= sc <= success_count + Z.of_nat (List.length files).
Proof.
  induction files as [|filename rest IH]; intros sc0 cnt0 sc cnt w w' E.
  - cbn in E. inversion E; subst. cbn. lia.
  - cbn [process_files] in E. unfold Sys.bind in E.
    destruct (process filename (if enumerate_files then Some cnt0 else None) w)
      as [[ok|e] w1]; [|discriminate E].
    destruct ok; apply IH in E; cbn [List.length]; lia.
Qed.

End Loop.
End BatchFacts.

(** ** Selecting the files *)

Module SelectFacts.
Import Ascii StrFacts.

Lemma lower_app (s t : string) : Str.lower (s ++ t) = (Str.lower s ++ Str.lower t)%string.
Proof. induction s as [|a s IH]; simpl; [reflexivity|rewrite IH; reflexivity]. Qed.

Lemma endswith_app (s t : string) : Str.endswith (s ++ t) t = true.
Proof.
  unfold Str.endswith. rewrite length_app.
  replace (String.length s + String.length t - String.length t)%nat
    with (String.length s) by lia.
  rewrite drop_app, String.eqb_refl, andb_true_r.
  apply Nat.leb_le. lia.
Qed.

Lemma listed_extension (stem e : string) :
  In (String Str.dot (Str.lower e)) Workflow.file_types ->
  Workflow.has_image_extension (stem ++ String Str.dot e) = true.
Proof.
  intros H. unfold Workflow.has_image_extension. apply existsb_exists.
  exists (String Str.dot (Str.lower e)). split; [exact H|].
  rewrite lower_app. apply endswith_app.
Qed.

End SelectFacts.

(** ** More on the watermark *)

Section WatermarkFacts.
Context {backend : Imaging}.

(** Drawing calls none of which covers a pixel leave it as it was. *)
Lemma render_outside (ops : list draw_op) (x y : Z) :
  (forall op, In op ops ->
     let '(x0, y0, bw, bh) := footprint op in covers x0 y0 bw bh x y = false) ->
  forall im, pix (render ops im) x y = pix im x y.
Proof.
  induction ops as [|op ops IH]; intros H im; [reflexivity|].
  unfold render in *. cbn [fold_left].
  rewrite IH.
  - apply apply_op_outside_footprint. apply H. left. reflexivity.
  - intros op' Hin. apply H. right. exact Hin.
Qed.

Lemma add_watermark_saved (input_path output_path : string) (a : watermark_args)
    (h0 h1 : heap) (outcome : result bool) (out : picture rgb) :
  add_watermark input_path output_path a h0 = (outcome, Some out, h1) ->
  exists src ops s,
    decode input_path = Ok src /\
    watermark_ops (width src) (height src) a h0 = (Ok (ops, s), h1) /\
    out = finished src ops.
Proof.
  rewrite add_watermark_run.
  destruct (decode input_path) as [src|e]; [|intros X; discriminate X].
  destruct (watermark_ops (width src) (height src) a h0) as [[[ops s]|e] h] eqn:Eo;
    [|intros X; discriminate X].
  destruct (writable output_path); intros X; inversion X; subst.
  exists src, ops, s. split; [reflexivity|]. split; [exact Eo|reflexivity].
Qed.

Lemma try_fonts_skips (before rest : list string) (size : Z) (h : heap) :
  (forall name, In name before -> truetype name size = Raise OSError) ->
  try_fonts (before ++ rest) size h = try_fonts rest size h.
Proof.
  induction before as [|name before IH]; intros H; [reflexivity|].
  cbn [app try_fonts]. unfold except_IOError, bind, load_truetype.
  rewrite (H name (or_introl eq_refl)). unfold raise.
  apply IH. intros n Hn. apply H. right. exact Hn.
Qed.

(** A tiling without rows, or in which every row is empty, makes no call. *)
Lemma tile_no_rows {B : Type} (y0 y1 dy x0 x1 dx : Z) (column : Z -> Z -> Z)
    (body : Z * Z -> B -> M B) (s : B) (h : heap) :
  range y0 y1 dy = Ok [] ->
  tile y0 y1 dy x0 x1 dx column body s h = (Ok s, h).
Proof. intros E. unfold tile. rewrite E. reflexivity. Qed.

Lemma tile_no_columns {B : Type} (y0 y1 dy x0 x1 dx : Z) (column : Z -> Z -> Z)
    (body : Z * Z -> B -> M B) (s : B) (h : heap) (ys : list Z) :
  range y0 y1 dy = Ok ys -> range x0 x1 dx = Ok [] ->
  tile y0 y1 dy x0 x1 dx column body s h = (Ok s, h).
Proof.
  intros Ey Ex. unfold tile. rewrite Ey, Ex. unfold bind at 1, lift at 1. clear Ey.
  induction ys as [|y ys IH]; [reflexivity|].
  cbn [for_each]. unfold bind at 1. unfold bind at 1, lift at 1. cbn [for_each].
  unfold ret at 1. exact IH.
Qed.

Lemma tile_zero_column_step {B : Type} (y0 y1 dy x0 x1 : Z) (column : Z -> Z -> Z)
    (body : Z * Z -> B -> M B) (s : B) (h : heap) :
  0 < dy -> y0 < y1 ->
  tile y0 y1 dy x0 x1 0 column body s h = (Raise ValueError, h).
Proof.
  intros Hd Hy. unfold tile.
  rewrite (range_positive_step _ _ _ Hd), (count_succ _ _ _ Hd Hy), progression_cons.
  reflexivity.
Qed.

Lemma length_flat_map_rows {A B : Type} (f : A -> list B) (n : nat) (l : list A) :
  (forall a, List.length (f a) = n) -> List.length (flat_map f l) = (List.length l * n)%nat.
Proof.
  intros H. induction l as [|a l IH]; [reflexivity|].
  cbn [flat_map List.length]. rewrite List.length_app, H, IH. lia.
Qed.

End WatermarkFacts.

(** ** The alpha of the ink *)

Module AlphaFacts.
Import FloatFacts ScalingFacts.

(** [int(255 * x)] for a normal double [x] with [0 < x <= 1]. *)
Lemma text_alpha_unit (m : positive) (e : Z) :
  Zpos (digits2_pos m) = 53 -> -1074 <= e ->
  Float.ltb (of_Z 1) (S754_finite false m e) = false ->
  exists al, text_alpha (S754_finite false m e) = Ok al /\ 0 <= al <= 255.
Proof.
  intros Hd He Hle.
  pose proof (digits2_bounds m) as Hb. rewrite Hd in Hb.
  change (2 ^ (53 - 1)) with (2 ^ 52) in Hb.
  (* x <= 1 *)
  assert (Hx : e <= -52 /\ Zpos m <= 2 ^ (- e)).
  { unfold Float.ltb, SFltb in Hle.
    change (of_Z 1) with (S754_finite false 4503599627370496 (-52)) in Hle.
    cbn [SFcompare] in Hle.
    destruct (Z.compare_spec (-52) e) as [Heq|Hlt|Hgt].
    - subst e.
      change (PosDef.Pos.compare_cont Eq 4503599627370496 m)
        with (Pos.compare 4503599627370496 m) in Hle.
      destruct (Pos.compare_spec 4503599627370496 m) as [Hm|Hm|Hm]; try discriminate Hle.
      + subst m. split; [lia|]. change (2 ^ (- -52)) with 4503599627370496. lia.
      + exfalso. change (2 ^ 52) with 4503599627370496 in Hb.
        destruct Hb as [Hb _]. apply Pos2Z.pos_lt_pos in Hm.
        exact (Z.lt_irrefl _ (Z.le_lt_trans _ _ _ Hb Hm)).
    - discriminate Hle.
    - split; [lia|].
      assert (2 ^ 53 <= 2 ^ (- e)) by (apply Z.pow_le_mono_r; lia). lia. }
  destruct Hx as [He' Hm].
  unfold text_alpha, int_mul_float.
  change (float_of_int 255) with (Ok (S754_finite false 8972014882652160 (-45))).
  unfold mul, SFmul. cbn [xorb].
  change (Zpos 8972014882652160 * Zpos m) with (Zpos (8972014882652160 * m)).
  assert (Hq : 2 ^ 104 <= Zpos (8972014882652160 * m) < 2 ^ 106).
  { rewrite Pos2Z.inj_mul.
    change (2 ^ 104) with (2 ^ 52 * 2 ^ 52). change (2 ^ 106) with (2 ^ 53 * 2 ^ 53).
    change (2 ^ 52) with 4503599627370496 in *.
    change (2 ^ 53) with 9007199254740992 in *. nia. }
  assert (Dq : 105 <= Zpos (digits2_pos (8972014882652160 * m)) <= 106).
  { split.
    - pose proof (digits2_bounds (8972014882652160 * m)) as B.
      destruct (Z.le_gt_cases 105 (Zpos (digits2_pos (8972014882652160 * m))));
        [assumption|exfalso].
      assert (2 ^ Zpos (digits2_pos (8972014882652160 * m)) <= 2 ^ 104)
        by (apply Z.pow_le_mono_r; lia).
      lia.
    - apply digits2_below; lia. }
  destruct (round_wide (8972014882652160 * m) (-45 + e) loc_Exact) as (M' & k & Er & Hk & HV);
    try lia.
  rewrite Er.
  rewrite (to_int_floor M' (-45 + e + k) (45 - e)) by lia.
  replace (-45 + e + k + (45 - e)) with k by lia.
  eexists. split; [reflexivity|].
  set (V := Zpos M' * 2 ^ k) in *.
  assert (HV0 : 0 <= V).
  { unfold V. apply Z.mul_nonneg_nonneg; [lia|apply Z.pow_nonneg; lia]. }
  assert (HD : 0 < 2 ^ (45 - e)) by (apply Z.pow_pos_nonneg; lia).
  split; [apply Z.div_pos; lia|].
  apply Z.lt_succ_r. apply Z.div_lt_upper_bound; [exact HD|].
  replace (45 - e) with (45 + - e) by lia.
  destruct HV as [_ HV]. rewrite Pos2Z.inj_mul in HV.
  rewrite Z.pow_add_r with (b := 45) (c := - e) by lia.
  set (P := 2 ^ (- e)) in *.
  assert (0 < P) by (apply Z.pow_pos_nonneg; lia).
  change (2 ^ 45) with 35184372088832.
  change (2 ^ 52) with 4503599627370496 in *.
  nia.
Qed.

End AlphaFacts.

(** ** Further properties of the script *)

(** X1: two inputs that differ only in their extension are given the
    same output name, whatever prefix, suffix and number are asked for. *)
Theorem output_name_forgets_extension {interpreter : Interpreter} (stem e1 e2 : string)
    (prepend_text append_text : option string) (enumerate_files : bool)
    (enum_counter : option Z) (enum_padding : Z) :
  Str.contains Str.slash stem = false ->
  forallb (Ascii.eqb Str.dot) (Str.chars stem) = false ->
  Str.contains Str.slash e1 = false -> Str.contains Str.dot e1 = false ->
  Str.contains Str.slash e2 = false -> Str.contains Str.dot e2 = false ->
  generate_output_filename (stem ++ String Str.dot e1) prepend_text append_text
    enumerate_files enum_counter enum_padding =
  generate_output_filename (stem ++ String Str.dot e2) prepend_text append_text
    enumerate_files enum_counter enum_padding.
Proof.
  intros Hs Hn Hs1 Hd1 Hs2 Hd2. unfold generate_output_filename.
  rewrite (NameFacts.splitext_extension stem e1 Hs Hs1 Hd1 Hn).
  rewrite (NameFacts.splitext_extension stem e2 Hs Hs2 Hd2 Hn).
  reflexivity.
Qed.

Lemma output_name_forgets_extension_witness :
  generate_output_filename (interpreter := Examples.laptop) "IMG_1.png"
    (Some "web_"%string) None true (Some 7) 3 =
  generate_output_filename (interpreter := Examples.laptop) "IMG_1.gif"
    (Some "web_"%string) None true (Some 7) 3.
Proof.
  apply (output_name_forgets_extension (interpreter := Examples.laptop)
           "IMG_1" "png" "gif"); reflexivity.
Defined.

(** X2: with enumeration on, two different counters never give the same
    output name, whatever the two original names are; and a name is
    given whenever the numeral can be padded. *)
Theorem enumerated_names_differ {interpreter : Interpreter} (f1 f2 : string)
    (prepend_text append_text : option string) (n1 n2 enum_padding : Z) :
  Str.printable n1 -> Str.printable n2 ->
  n1 <> n2 ->
  (forall name1 name2,
     generate_output_filename f1 prepend_text append_text true (Some n1) enum_padding =
       Ok name1 ->
     generate_output_filename f2 prepend_text append_text true (Some n2) enum_padding =
       Ok name2 ->
     name1 <> name2)
  /\ (Str.paddable enum_padding ->
      exists name1 name2,
        generate_output_filename f1 prepend_text append_text true (Some n1) enum_padding =
          Ok name1 /\
        generate_output_filename f2 prepend_text append_text true (Some n2) enum_padding =
          Ok name2).
Proof.
  intros _ _ Hn. split.
  - intros name1 name2. apply NameFacts.enumerated_differ. exact Hn.
  - intros Hp. rewrite !NameFacts.enumerated_name.
    rewrite !NumeralFacts.zfill_paddable by exact Hp.
    eexists _, _. split; reflexivity.
Qed.

Lemma enumerated_names_differ_witness :
  exists name1 name2,
    generate_output_filename (interpreter := Examples.laptop) "a_1.png" None None true
      (Some 1) 0 = Ok name1 /\
    generate_output_filename (interpreter := Examples.laptop) "a.png" None None true
      (Some 11) 0 = Ok name2 /\
    name1 <> name2.
Proof.
  destruct (enumerated_names_differ (interpreter := Examples.laptop)
              "a_1.png" "a.png" None None 1 11 0) as [Hd He];
    [vm_compute; reflexivity|vm_compute; reflexivity|discriminate|].
  destruct He as (name1 & name2 & E1 & E2);
    [split; [split; [discriminate|reflexivity]|discriminate]|].
  exists name1, name2. split; [exact E1|]. split; [exact E2|]. exact (Hd _ _ E1 E2).
Defined.

(** X3: with enumeration on and a numeral that can be padded (the
    padding fits 64 bits and a string of that length can be allocated),
    the name is the stem, an underscore and a numeral (between the
    prefix and the suffix, if any); the numeral reads back as the
    counter, negative ones included, and is [enum_padding] characters
    long unless the number takes more.  With a padding that does not
    fit 64 bits no name is made: the call raises OverflowError; and it
    raises MemoryError when the padded numeral cannot be allocated. *)
Theorem enumeration_reads_back {interpreter : Interpreter} (original_filename : string)
    (prepend_text append_text : option string) (n enum_padding : Z) :
  Str.printable n ->
  (Str.paddable enum_padding ->
   exists numeral,
     generate_output_filename original_filename prepend_text append_text true (Some n)
       enum_padding =
     Ok ((if is_given prepend_text then text_of prepend_text else "") ++
         fst (Path.splitext original_filename) ++ "_" ++ numeral ++
         (if is_given append_text then text_of append_text else "") ++ ".jpg")%string /\
     Str.decimal_value numeral = Some n /\
     Z.of_nat (String.length numeral) =
       Z.max enum_padding (Z.of_nat (String.length (Str.str n))))
  /\ (enum_padding < - 2 ^ 63 \/ 2 ^ 63 <= enum_padding ->
      generate_output_filename original_filename prepend_text append_text true (Some n)
        enum_padding = Raise OverflowError)
  /\ (enum_padding < 2 ^ 63 -> longest_str < enum_padding ->
      Z.of_nat (String.length (Str.str n)) < enum_padding ->
      generate_output_filename original_filename prepend_text append_text true (Some n)
        enum_padding = Raise MemoryError).
Proof.
  intros _. rewrite NameFacts.enumerated_name. split; [|split].
  - intros Hp. exists (Str.pad (Str.str n) enum_padding).
    rewrite NumeralFacts.zfill_paddable by exact Hp.
    split; [reflexivity|].
    split; [apply NumeralFacts.pad_value|apply NumeralFacts.pad_length].
  - intros Hp. rewrite NumeralFacts.zfill_out_of_range by exact Hp. reflexivity.
  - intros Hp Hr Hl. rewrite NumeralFacts.zfill_no_room; [reflexivity| |exact Hl|exact Hr].
    split; [|exact Hp]. pose proof (Zle_0_nat (String.length (Str.str n))). lia.
Qed.

Lemma enumeration_reads_back_witness :
  (exists numeral,
     generate_output_filename (interpreter := Examples.laptop) "IMG_1.PNG"
       (Some "web_"%string) None true (Some (-7)) 4 =
     Ok ("web_" ++ "IMG_1" ++ "_" ++ numeral ++ "" ++ ".jpg")%string /\
     Str.decimal_value numeral = Some (-7) /\
     Z.of_nat (String.length numeral) = 4)
  /\ generate_output_filename (interpreter := Examples.laptop) "IMG_1.PNG"
       (Some "web_"%string) None true (Some (-7)) (2 ^ 63) = Raise OverflowError
  /\ generate_output_filename (interpreter := Examples.laptop) "IMG_1.PNG"
       (Some "web_"%string) None true (Some (-7)) (2 ^ 40) = Raise MemoryError.
Proof.
  split; [|split].
  - destruct (enumeration_reads_back (interpreter := Examples.laptop) "IMG_1.PNG"
                (Some "web_"%string) None (-7) 4) as [H _]; [vm_compute; reflexivity|].
    apply H. split; [split; [discriminate|reflexivity]|discriminate].
  - destruct (enumeration_reads_back (interpreter := Examples.laptop) "IMG_1.PNG"
                (Some "web_"%string) None (-7) (2 ^ 63)) as (_ & H & _);
      [vm_compute; reflexivity|].
    apply H. right. discriminate.
  - destruct (enumeration_reads_back (interpreter := Examples.laptop) "IMG_1.PNG"
                (Some "web_"%string) None (-7) (2 ^ 40)) as (_ & _ & H);
      [vm_compute; reflexivity|].
    apply H; reflexivity.
Defined.

(** X4: a colour is accepted exactly when the text has three fields
    between commas and [int] takes each; the channels come out clamped. *)
Theorem parse_color_accepts_three_fields (int_of_str : string -> option Z)
    (color_str : string) :
  match parse_color int_of_str color_str with
  | Parsed (r, g, b) =>
      0 <= r <= 255 /\ 0 <= g <= 255 /\ 0 <= b <= 255 /\
      exists f1 f2 f3 x y z,
        Str.split Str.comma color_str = [f1; f2; f3] /\
        int_of_str f1 = Some x /\ int_of_str f2 = Some y /\ int_of_str f3 = Some z /\
        r = Z.max 0 (Z.min 255 x) /\ g = Z.max 0 (Z.min 255 y) /\ b = Z.max 0 (Z.min 255 z)
  | ArgumentTypeError _ =>
      List.length (Str.split Str.comma color_str) <> 3%nat \/
      exists field, In field (Str.split Str.comma color_str) /\ int_of_str field = None
  end.
Proof.
  unfold parse_color.
  destruct (Str.split Str.comma color_str) as [|f1 [|f2 [|f3 [|f4 rest]]]] eqn:E;
    cbn [map_int].
  - left. discriminate.
  - destruct (int_of_str f1); left; discriminate.
  - destruct (int_of_str f1); [destruct (int_of_str f2)|]; left; discriminate.
  - destruct (int_of_str f1) as [x|] eqn:E1.
    2:{ right. exists f1. split; [left; reflexivity|exact E1]. }
    destruct (int_of_str f2) as [y|] eqn:E2.
    2:{ right. exists f2. split; [right; left; reflexivity|exact E2]. }
    destruct (int_of_str f3) as [z|] eqn:E3.
    2:{ right. exists f3. split; [right; right; left; reflexivity|exact E3]. }
    pose proof (ColourFacts.clamp_channel_range x).
    pose proof (ColourFacts.clamp_channel_range y).
    pose proof (ColourFacts.clamp_channel_range z).
    repeat split; try lia.
    exists f1, f2, f3, x, y, z. repeat split; assumption.
  - destruct (int_of_str f1); [|left; discriminate].
    destruct (int_of_str f2); [|left; discriminate].
    destruct (int_of_str f3); [|left; discriminate].
    destruct (int_of_str f4); [|left; discriminate].
    destruct (map_int int_of_str rest); left; discriminate.
Qed.

(** X5: a colour printed as three decimal numbers with commas between
    them is read back, each channel clamped into 0..255; inside that
    range nothing changes, and the default text of the option gives
    white. *)
Theorem parse_color_reads_printed (int_of_str : string -> option Z) (r g b : Z) :
  (forall n, int_of_str (Str.str n) = Some n) ->
  parse_color int_of_str (Str.str r ++ "," ++ Str.str g ++ "," ++ Str.str b) =
    Parsed (Z.max 0 (Z.min 255 r), Z.max 0 (Z.min 255 g), Z.max 0 (Z.min 255 b))
  /\ (0 <= r <= 255 -> 0 <= g <= 255 -> 0 <= b <= 255 ->
      parse_color int_of_str (Str.str r ++ "," ++ Str.str g ++ "," ++ Str.str b) =
        Parsed (r, g, b))
  /\ parse_color int_of_str "255,255,255" = Parsed DEFAULT_WATERMARK_COLOR.
Proof.
  intros Hint.
  assert (G : forall r g b,
             parse_color int_of_str (Str.str r ++ "," ++ Str.str g ++ "," ++ Str.str b) =
             Parsed (clamp_channel r, clamp_channel g, clamp_channel b)).
  { clear r g b. intros r g b. unfold parse_color.
    change ("," ++ Str.str g ++ "," ++ Str.str b)%string
      with (String Str.comma (Str.str g ++ String Str.comma (Str.str b))).
    assert (N : forall n, ~ In Str.comma (Str.chars (Str.str n))).
    { intros n. apply NumeralFacts.numeral_without;
        [reflexivity|apply ColourFacts.str_numeral]. }
    rewrite !ColourFacts.split_first_field by apply N.
    rewrite ColourFacts.split_no_separator by apply N.
    cbn [map_int]. rewrite !Hint. reflexivity. }
  split; [apply G|split].
  - intros Hr Hg Hb. rewrite G.
    rewrite !ColourFacts.clamp_channel_fixed by assumption. reflexivity.
  - apply (G 255 255 255).
Qed.

Lemma parse_color_reads_printed_witness :
  parse_color Str.decimal_value "12,255,0" = Parsed (12, 255, 0) /\
  parse_color Str.decimal_value "300,-5,0" = Parsed (255, 0, 0).
Proof.
  destruct (parse_color_reads_printed Str.decimal_value 12 255 0
              ColourFacts.decimal_value_str) as (_ & H & _).
  split; [apply H; lia|].
  destruct (parse_color_reads_printed Str.decimal_value 300 (-5) 0
              ColourFacts.decimal_value_str) as (H' & _).
  exact H'.
Defined.

(** X6: the new dimensions fit into [max_dimension] and are never larger
    than the old ones; the longer side becomes exactly [max_dimension]
    when it was larger; the other side is the floor of its exact share,
    or one pixel less (the quotient is rounded before the product). *)
Theorem resized_picture_fits (w h M : Z) :
  0 < w < 2 ^ 25 -> 0 < h < 2 ^ 25 -> 0 < M < 2 ^ 25 ->
  exists new_width new_height,
    new_dimensions w h M = Ok (new_width, new_height) /\
    0 <= new_width <= Z.min w M /\
    0 <= new_height <= Z.min h M /\
    Z.max new_width new_height = Z.min M (Z.max w h) /\
    (w <= M -> h <= M -> new_width = w /\ new_height = h) /\
    (h < w -> M < w -> h * M / w - 1 <= new_height <= h * M / w) /\
    (w <= h -> M < h -> w * M / h - 1 <= new_width <= w * M / h).
Proof. apply ScalingFacts.new_dimensions_bounds. Qed.

(** A 1122 x 561 picture for [max_dimension = 1024]: the height comes out
    as 511, one less than the exact 512. *)
Lemma resized_picture_fits_witness :
  exists new_width new_height,
    new_dimensions 1122 561 1024 = Ok (new_width, new_height) /\
    0 <= new_width <= Z.min 1122 1024 /\
    0 <= new_height <= Z.min 561 1024 /\
    Z.max new_width new_height = Z.min 1024 (Z.max 1122 561) /\
    (1122 <= 1024 -> 561 <= 1024 -> new_width = 1122 /\ new_height = 561) /\
    (561 < 1122 -> 1024 < 1122 -> 561 * 1024 / 1122 - 1 <= new_height <= 561 * 1024 / 1122) /\
    (1122 <= 561 -> 1024 < 561 -> 1122 * 1024 / 561 - 1 <= new_width <= 1122 * 1024 / 561).
Proof. apply (resized_picture_fits 1122 561 1024); split; reflexivity. Defined.

(** X7: a picture more than [max_dimension] times as long as it is wide
    is given a side of 0 pixels. *)
Theorem thin_picture_gets_no_side (w h M : Z) :
  0 < w < 2 ^ 25 -> 0 < h < 2 ^ 25 -> 0 < M < 2 ^ 25 ->
  (h * M < w -> new_dimensions w h M = Ok (M, 0)) /\
  (w * M < h -> new_dimensions w h M = Ok (0, M)).
Proof.
  intros Hw Hh HM.
  destruct (ScalingFacts.new_dimensions_bounds w h M Hw Hh HM)
    as (nw & nh & E & Bw & Bh & Hmax & _ & A1 & A2).
  split; intros Hthin.
  - assert (h < w) by nia. assert (M < w) by nia.
    assert (F : h * M / w = 0) by (apply Z.div_small; lia).
    specialize (A1 ltac:(lia) ltac:(lia)). rewrite E. do 2 f_equal; lia.
  - assert (w < h) by nia. assert (M < h) by nia.
    assert (F : w * M / h = 0) by (apply Z.div_small; lia).
    specialize (A2 ltac:(lia) ltac:(lia)). rewrite E. do 2 f_equal; lia.
Qed.

Lemma thin_picture_gets_no_side_witness : new_dimensions 2000 1 1024 = Ok (1024, 0).
Proof.
  destruct (thin_picture_gets_no_side 2000 1 1024) as [H _];
    [split; reflexivity|split; reflexivity|split; reflexivity|].
  apply H. reflexivity.
Defined.

(** X8: when [process_image] returns True, neither working file is left. *)
Theorem process_image_removes_working_files {interpreter : Interpreter} {studio : Studio}
    (filename : string) (o : Workflow.options) (enum_counter : option Z) (w w' : world) :
  Workflow.process_image filename o enum_counter w = (Ok true, w') ->
  path_exists (Workflow.working_jpg_path o filename) w' = false /\
  path_exists (Workflow.resized_jpg_path o filename) w' = false.
Proof. apply WorkflowFacts.process_image_done. Qed.

Lemma process_image_removes_working_files_witness :
  exists w',
    Workflow.process_image (interpreter := Examples.laptop) (studio := Bench.studio)
      "photo.png" Bench.plain_options None
      Bench.shelf = (Ok true, w') /\
    Bench.present "work/photo.jpg" w' = false /\
    Bench.present "work/photo_resized.jpg" w' = false.
Proof.
  destruct (Workflow.process_image (interpreter := Examples.laptop) (studio := Bench.studio)
              "photo.png" Bench.plain_options
              None Bench.shelf) as [r w'] eqn:E.
  assert (R : r = Ok true).
  { change r with (fst (r, w')). rewrite <- E. vm_compute. reflexivity. }
  subst r. exists w'. split; [reflexivity|].
  exact (process_image_removes_working_files
             (interpreter := Examples.laptop) (studio := Bench.studio)
           "photo.png"
           Bench.plain_options None Bench.shelf w' E).
Defined.

(** X9: when the working directory is also the output directory and the
    name gets no prefix, suffix or number, [process_image] returns True
    and has deleted its own result. *)
Theorem result_in_working_directory_is_deleted {interpreter : Interpreter} {studio : Studio}
    (filename : string) (o : Workflow.options) (enum_counter : option Z) (w w' : world) :
  Workflow.working_dir o = Workflow.output_dir o ->
  is_given (Workflow.prepend_text o) = false ->
  is_given (Workflow.append_text o) = false ->
  Workflow.enumerate_files o = false \/ enum_counter = None ->
  Workflow.process_image filename o enum_counter w = (Ok true, w') ->
  exists path,
    Workflow.final_path o filename enum_counter = Ok path /\
    path_exists path w' = false.
Proof.
  intros Hd Hp Ha He E.
  destruct (WorkflowFacts.process_image_done filename o enum_counter w w' E) as [H _].
  exists (Workflow.working_jpg_path o filename). split; [|exact H].
  unfold Workflow.final_path, Workflow.output_filename, Workflow.working_jpg_path.
  rewrite (BatchFacts.plain_name _ _ _ _ _ _ Hp Ha He), <- Hd. reflexivity.
Qed.

Lemma result_in_working_directory_is_deleted_witness :
  exists w',
    Workflow.process_image (interpreter := Examples.laptop) (studio := Bench.studio)
      "photo.png" Bench.shared_options None
      Bench.shelf = (Ok true, w') /\
    Workflow.final_path (interpreter := Examples.laptop) Bench.shared_options "photo.png"
      None = Ok "out/photo.jpg"%string /\
    Bench.present "out/photo.jpg" w' = false.
Proof.
  destruct (Workflow.process_image (interpreter := Examples.laptop) (studio := Bench.studio)
              "photo.png" Bench.shared_options
              None Bench.shelf) as [r w'] eqn:E.
  assert (R : r = Ok true).
  { change r with (fst (r, w')). rewrite <- E. vm_compute. reflexivity. }
  subst r. exists w'. split; [reflexivity|]. split; [reflexivity|].
  destruct (result_in_working_directory_is_deleted
             (interpreter := Examples.laptop) (studio := Bench.studio)
              "photo.png"
              Bench.shared_options None Bench.shelf w') as (path & Hp & Hgone);
    try reflexivity; [left; reflexivity|exact E|].
  inversion Hp; subst path. exact Hgone.
Defined.

(** X10: when the working directory is also the input directory, a file
    whose name ends in [.jpg] is overwritten by the converted copy and
    deleted once [process_image] returns True. *)
Theorem jpg_input_in_working_directory_is_deleted {interpreter : Interpreter} {studio : Studio}
    (filename : string) (o : Workflow.options) (enum_counter : option Z) (w w' : world) :
  Workflow.input_dir o = Workflow.working_dir o ->
  snd (Path.splitext filename) = ".jpg"%string ->
  Workflow.process_image filename o enum_counter w = (Ok true, w') ->
  Workflow.working_jpg_path o filename = Workflow.input_path o filename /\
  path_exists (Workflow.input_path o filename) w' = false.
Proof.
  intros Hd Hx E.
  destruct (WorkflowFacts.process_image_done filename o enum_counter w w' E) as [H _].
  assert (P : Workflow.working_jpg_path o filename = Workflow.input_path o filename).
  { unfold Workflow.working_jpg_path, Workflow.input_path. rewrite <- Hd, <- Hx.
    rewrite BatchFacts.splitext_joins. reflexivity. }
  split; [exact P|]. rewrite <- P. exact H.
Qed.

Lemma jpg_input_in_working_directory_is_deleted_witness :
  exists w',
    Workflow.process_image (interpreter := Examples.laptop) (studio := Bench.studio)
      "old.jpg" Bench.in_place_options
      None [("in/old.jpg"%string, Reference.grey 300 200)] = (Ok true, w') /\
    Bench.present "in/old.jpg" w' = false.
Proof.
  destruct (Workflow.process_image (interpreter := Examples.laptop) (studio := Bench.studio)
              "old.jpg" Bench.in_place_options
              None [("in/old.jpg"%string, Reference.grey 300 200)]) as [r w'] eqn:E.
  assert (R : r = Ok true).
  { change r with (fst (r, w')). rewrite <- E. vm_compute. reflexivity. }
  subst r. exists w'. split; [reflexivity|].
  apply (jpg_input_in_working_directory_is_deleted
             (interpreter := Examples.laptop) (studio := Bench.studio)
           "old.jpg"
           Bench.in_place_options None
           [("in/old.jpg"%string, Reference.grey 300 200)] w');
    [reflexivity|reflexivity|exact E].
Defined.









(** X15: in the loop of [process_batch] every file is processed once, in
    order; the counter a file is given is [enum_start] plus the number of
    files before it that succeeded, so failures use up no number; and
    [success_count] is the number of calls that returned True. *)
Theorem batch_counters {St : Type} (process : string -> option Z -> Sys.IO St bool)
    (enumerate_files : bool) (files : list string) (enum_start : Z) (w w' : St)
    (log : list (string * option Z * bool)) (success_count enum_counter : Z) :
  Workflow.process_files (Workflow.logged process) enumerate_files files 0 enum_start
    (w, []) = (Ok (success_count, enum_counter), (w', log)) ->
  Workflow.process_files process enumerate_files files 0 enum_start w =
    (Ok (success_count, enum_counter), w') /\
  map (fun entry => fst (fst entry)) log = files /\
  success_count = Z.of_nat (Workflow.successes log) /\
  forall i f c ok,
    nth_error log i = Some (f, c, ok) ->
    c = if enumerate_files
        then Some (enum_start + Z.of_nat (Workflow.successes (firstn i log)))
        else None.
Proof.
  intros E.
  destruct (BatchFacts.process_files_logged process enumerate_files files _ _ _ _ _ _ _ E)
    as (log1 & Hl & Hrun & Hc & Hr).
  cbn [app] in Hl. subst log1.
  destruct (Hr _ _ eq_refl) as (Hm & Hs & _).
  split; [exact Hrun|]. split; [exact Hm|]. split; [lia|exact Hc].
Qed.

(** Three files, the second of which fails: the counters are 5, 6, 6. *)
Lemma batch_counters_witness :
  let process := fun (f : string) (_ : option Z) (w : unit) =>
                   (Ok (negb (String.eqb f "broken.png")), w) in
  Workflow.process_files process true ["a.png"; "broken.png"; "c.png"]%string 0 5 tt =
    (Ok (2, 7), tt) /\
  forall i f c ok,
    nth_error [("a.png"%string, Some 5, true); ("broken.png"%string, Some 6, false);
               ("c.png"%string, Some 6, true)] i = Some (f, c, ok) ->
    c = Some (5 + Z.of_nat
                    (Workflow.successes
                       (firstn i [("a.png"%string, Some 5, true);
                                  ("broken.png"%string, Some 6, false);
                                  ("c.png"%string, Some 6, true)]))).
Proof.
  intros process.
  destruct (batch_counters process true ["a.png"; "broken.png"; "c.png"]%string 5 tt tt
              [("a.png"%string, Some 5, true); ("broken.png"%string, Some 6, false);
               ("c.png"%string, Some 6, true)] 2 7 eq_refl)
    as (H1 & _ & _ & H4).
  split; [exact H1|exact H4].
Defined.

(** X16: with enumeration on, the name given to a file that was processed
    successfully is given to no later file of the batch. *)
Theorem numbered_result_is_not_overwritten {interpreter : Interpreter} {St : Type}
    (process : string -> option Z -> Sys.IO St bool) (files : list string) (enum_start : Z)
    (w w' : St) (log : list (string * option Z * bool)) (r : result (Z * Z))
    (prepend_text append_text : option string) (enum_padding : Z)
    (i j : nat) (f1 f2 : string) (c1 c2 : option Z) (ok2 : bool) :
  Workflow.process_files (Workflow.logged process) true files 0 enum_start (w, []) =
    (r, (w', log)) ->
  (forall n, enum_start <= n <= enum_start + Z.of_nat (List.length files) ->
     Str.printable n) ->
  (i < j)%nat ->
  nth_error log i = Some (f1, c1, true) ->
  nth_error log j = Some (f2, c2, ok2) ->
  (forall name1 name2,
     generate_output_filename f1 prepend_text append_text true c1 enum_padding = Ok name1 ->
     generate_output_filename f2 prepend_text append_text true c2 enum_padding = Ok name2 ->
     name1 <> name2)
  /\ (Str.paddable enum_padding ->
      exists name1 name2,
        generate_output_filename f1 prepend_text append_text true c1 enum_padding =
          Ok name1 /\
        generate_output_filename f2 prepend_text append_text true c2 enum_padding =
          Ok name2).
Proof.
  intros E _ Hij H1 H2.
  destruct (BatchFacts.process_files_logged process true files _ _ _ _ _ _ _ E)
    as (log1 & Hl & _ & Hc & _).
  cbn [app] in Hl. subst log1.
  rewrite (Hc _ _ _ _ H1), (Hc _ _ _ _ H2).
  split.
  2:{ intros Hp. rewrite !NameFacts.enumerated_name.
      rewrite !NumeralFacts.zfill_paddable by exact Hp.
      eexists _, _. split; reflexivity. }
  intros name1 name2. apply NameFacts.enumerated_differ.
  assert (L : (Workflow.successes (firstn i log) < Workflow.successes (firstn j log))%nat).
  { assert (Hi : (i < List.length log)%nat) by (apply nth_error_Some; rewrite H1; discriminate).
    pose proof (firstn_skipn_middle i log H1) as Hm.
    set (l1 := firstn i log) in *. set (l2 := skipn (S i) log) in *.
    assert (Hlen : List.length l1 = i) by (apply firstn_length_le; lia).
    assert (Hs : firstn j log = l1 ++ firstn (j - i) ((f1, c1, true) :: l2)).
    { rewrite <- Hm at 1. replace j with (List.length l1 + (j - i))%nat at 1 by lia.
      apply firstn_app_2. }
    rewrite Hs, BatchFacts.successes_app.
    destruct (j - i)%nat as [|d] eqn:Ed; [lia|].
    cbn [firstn].
    change ((f1, c1, true) :: firstn d l2) with ([(f1, c1, true)] ++ firstn d l2).
    rewrite BatchFacts.successes_app.
    change (Workflow.successes [(f1, c1, true)]) with 1%nat. lia. }
  lia.
Qed.

Lemma numbered_result_is_not_overwritten_witness :
  exists name1 name2,
    generate_output_filename (interpreter := Examples.laptop) "a.png" None None true
      (Some 5) 3 = Ok name1 /\
    generate_output_filename (interpreter := Examples.laptop) "a.gif" None None true
      (Some 6) 3 = Ok name2 /\
    name1 <> name2.
Proof.
  destruct (numbered_result_is_not_overwritten (interpreter := Examples.laptop)
              (fun (f : string) (_ : option Z) (w : unit) => (Ok true, w))
              ["a.png"; "a.gif"]%string 5 tt tt
              [("a.png"%string, Some 5, true); ("a.gif"%string, Some 6, true)]
              (Ok (2, 7)) None None 3 0 1 "a.png" "a.gif" (Some 5) (Some 6) true)
    as [Hd He]; try reflexivity; [|lia|].
  - intros n Hn. unfold Str.printable.
    apply Z.lt_trans with (m := 10); [cbn in Hn; lia|vm_compute; reflexivity].
  - destruct He as (name1 & name2 & E1 & E2);
      [split; [split; [discriminate|reflexivity]|discriminate]|].
    exists name1, name2. split; [exact E1|]. split; [exact E2|]. exact (Hd _ _ E1 E2).
Defined.

(** X17: [process_batch] first makes the three directories; with no image
    file in the listing it stops there, having processed nothing;
    otherwise it reports a number of successes between 0 and the number
    of files. *)
Theorem batch_report {interpreter : Interpreter} {studio : Studio}
    (o : Workflow.options) (w w' : world) (report : option (Z * Z)) :
  Workflow.process_batch o w = (Ok report, w') ->
  exists w1 names,
    Workflow.create_directories (Workflow.input_dir o) (Workflow.working_dir o)
      (Workflow.output_dir o) w = (Ok tt, w1) /\
    listdir (Workflow.input_dir o) w1 = Ok names /\
    match report with
    | None => Workflow.image_files (Workflow.input_dir o) names w1 = [] /\ w' = w1
    | Some (success_count, total) =>
        total = Z.of_nat (List.length (Workflow.image_files (Workflow.input_dir o) names w1)) /\
        0 < total /\ 0 <= success_count <= total
    end.
Proof.
  intros E. unfold Workflow.process_batch in E. unfold Sys.bind at 1 in E.
  destruct (Workflow.create_directories _ _ _ w) as [[[]|e] w1] eqn:Ed; [|discriminate E].
  unfold Sys.bind at 1, Sys.read in E.
  destruct (listdir (Workflow.input_dir o) w1) as [names|e] eqn:El; [|discriminate E].
  unfold Sys.bind at 1 in E.
  exists w1, names. split; [reflexivity|]. split; [exact El|].
  destruct (Workflow.image_files (Workflow.input_dir o) names w1) as [|f rest] eqn:Ef.
  - inversion E; subst. split; reflexivity.
  - unfold Sys.bind in E.
    set (run := fun filename current_enum => Workflow.process_image filename o current_enum)
      in E.
    destruct (Workflow.process_files run (Workflow.enumerate_files o) (f :: rest) 0
                (Workflow.enum_start o) w1) as [[[sc cnt]|e] w2] eqn:Ep;
      [|discriminate E].
    inversion E; subst.
    apply BatchFacts.process_files_count in Ep.
    split; [reflexivity|]. cbn [List.length] in *. lia.
Qed.

Lemma batch_report_witness :
  exists w' names,
    Workflow.process_batch (interpreter := Examples.laptop) (studio := Bench.studio)
      Bench.numbered_options Bench.shelf =
      (Ok (Some (2, 2)), w') /\
    listdir (Studio := Bench.studio) "in" Bench.shelf = Ok names /\
    2 = Z.of_nat (List.length (Workflow.image_files (studio := Bench.studio) "in" names
                                 Bench.shelf)).
Proof.
  destruct (Workflow.process_batch (interpreter := Examples.laptop) (studio := Bench.studio)
              Bench.numbered_options
              Bench.shelf) as [r w'] eqn:E.
  assert (R : r = Ok (Some (2, 2))).
  { change r with (fst (r, w')). rewrite <- E. vm_compute. reflexivity. }
  subst r.
  destruct (batch_report
             (interpreter := Examples.laptop) (studio := Bench.studio)
              Bench.numbered_options Bench.shelf w'
              (Some (2, 2)) E) as (w1 & names & Hd & Hl & Hn & _ & _).
  cbn in Hd. inversion Hd; subst w1.
  exists w', names. split; [reflexivity|]. split; [exact Hl|exact Hn].
Defined.

(** X18: a name with one of the listed extensions, in capitals or not, is
    selected, and its result is called after the stem with [.jpg]; but
    when the stem is empty or all dots, as in [.png], [splitext] finds no
    extension and the result keeps the whole name: [.png.jpg]. *)
Theorem listed_extension_is_selected {interpreter : Interpreter} (stem e : string)
    (enum_counter : option Z) (enum_padding : Z) :
  In (String Str.dot (Str.lower e)) Workflow.file_types ->
  Str.contains Str.slash stem = false ->
  Str.contains Str.slash e = false -> Str.contains Str.dot e = false ->
  Workflow.has_image_extension (stem ++ String Str.dot e) = true /\
  generate_output_filename (stem ++ String Str.dot e) None None false enum_counter
    enum_padding =
  Ok (if forallb (Ascii.eqb Str.dot) (Str.chars stem)
      then (stem ++ String Str.dot e ++ ".jpg")%string
      else (stem ++ ".jpg")%string).
Proof.
  intros Hin Hs He Hd. split; [apply SelectFacts.listed_extension; exact Hin|].
  unfold generate_output_filename.
  destruct (forallb (Ascii.eqb Str.dot) (Str.chars stem)) eqn:Hn.
  - rewrite (NameFacts.splitext_dots stem e Hs He Hd Hn). cbn [is_given].
    rewrite StrFacts.app_assoc. reflexivity.
  - rewrite (NameFacts.splitext_extension stem e Hs He Hd Hn). reflexivity.
Qed.

Lemma listed_extension_is_selected_witness :
  (Workflow.has_image_extension "IMG_1.JPeG" = true /\
   generate_output_filename (interpreter := Examples.laptop) "IMG_1.JPeG" None None
     false None 0 = Ok "IMG_1.jpg"%string) /\
  (Workflow.has_image_extension ".png" = true /\
   generate_output_filename (interpreter := Examples.laptop) ".png" None None
     false None 0 = Ok ".png.jpg"%string).
Proof.
  split.
  - apply (listed_extension_is_selected (interpreter := Examples.laptop)
             "IMG_1" "JPeG" None 0); try reflexivity.
    right. left. reflexivity.
  - apply (listed_extension_is_selected (interpreter := Examples.laptop)
             "" "png" None 0); try reflexivity.
    right. right. left. reflexivity.
Defined.

(** X19: the picture that [add_watermark] saves, whatever the call then
    returns, has the size of the one it opened, and differs from it only
    at pixels that some drawing call covers. *)
Theorem saved_picture_differs_only_under_stamps {backend : Imaging}
    (input_path output_path : string) (a : watermark_args) (h0 h1 : heap)
    (outcome : result bool) (out : picture rgb) :
  add_watermark input_path output_path a h0 = (outcome, Some out, h1) ->
  exists src ops s,
    decode input_path = Ok src /\
    watermark_ops (width src) (height src) a h0 = (Ok (ops, s), h1) /\
    width out = width src /\ height out = height src /\
    forall x y,
      (forall op, In op ops ->
         let '(x0, y0, bw, bh) := footprint op in covers x0 y0 bw bh x y = false) ->
      pix out x y = pix src x y.
Proof.
  intros E. destruct (add_watermark_saved _ _ _ _ _ _ _ E) as (src & ops & s & Hd & Ho & ->).
  exists src, ops, s. split; [exact Hd|]. split; [exact Ho|].
  split; [reflexivity|]. split; [reflexivity|].
  intros x y H. unfold finished. cbn [pix to_rgb to_rgba].
  rewrite (render_outside ops x y H). cbn [pix new_image].
  rewrite over_transparent by reflexivity. reflexivity.
Qed.

Lemma saved_picture_differs_only_under_stamps_witness :
  exists out h1,
    add_watermark (backend := Examples.bare) "in.jpg" "out.jpg" Examples.single O =
      (Ok true, Some out, h1) /\
    width out = 200 /\ height out = 100 /\
    pix out 10 10 = (128, 128, 128).
Proof.
  assert (Eo : watermark_ops (backend := Examples.bare) 200 100 Examples.single O =
               (Ok ([DrawText (168, 69) "AB" BuiltIn (255, 255, 255, 127)], 100), 3%nat))
    by (vm_compute; reflexivity).
  pose proof (add_watermark_saves (backend := Examples.bare) "in.jpg" "out.jpg"
                Examples.single O 3%nat (Reference.grey 200 100) _ _ eq_refl eq_refl Eo)
    as E.
  eexists _, _. split; [exact E|].
  destruct (saved_picture_differs_only_under_stamps (backend := Examples.bare)
              "in.jpg" "out.jpg" Examples.single O 3%nat _ _ E)
    as (src & ops & s & Hd & Ho & Hw & Hh & Hp).
  inversion Hd; subst src.
  change (width (Reference.grey 200 100)) with 200 in Ho.
  change (height (Reference.grey 200 100)) with 100 in Ho.
  rewrite Eo in Ho. inversion Ho; subst ops s.
  split; [exact Hw|]. split; [exact Hh|].
  rewrite Hp; [reflexivity|].
  intros op [<-|[]]. reflexivity.
Defined.

(** X20: the fonts are tried in the order of the list.  The first one
    that loads is used at the requested size with scale ratio 1; an
    exception other than IOError ends the search with the built-in font,
    the requested size kept even above 40. *)
Theorem fonts_are_tried_in_order {backend : Imaging} (before after : list string)
    (name : string) (size : Z) (h : heap) :
  font_options = before ++ name :: after ->
  (forall earlier, In earlier before -> truetype earlier size = Raise OSError) ->
  (truetype name size = Ok tt ->
   select_font size h =
     (Ok ({| font_face := TrueType name size; ident := h |}, one, size), S h)) /\
  (forall e, truetype name size = Raise e -> e <> OSError ->
   select_font size h = (Ok ({| font_face := BuiltIn; ident := h |}, one, size), S h)).
Proof.
  intros Hl Hb.
  assert (T : try_fonts font_options size h = try_fonts (name :: after) size h).
  { rewrite Hl. apply try_fonts_skips. exact Hb. }
  split.
  - intros Ht. unfold select_font, try_except, bind at 1. rewrite T.
    cbn [try_fonts]. unfold except_IOError, bind, load_truetype. rewrite Ht. reflexivity.
  - intros e Ht He. unfold select_font, try_except, bind at 1. rewrite T.
    cbn [try_fonts]. unfold except_IOError, bind, load_truetype. rewrite Ht.
    unfold raise. destruct e; try reflexivity. contradiction.
Qed.

Lemma fonts_are_tried_in_order_witness :
  select_font (backend := Examples.with_dejavu) 80 O =
    (Ok ({| font_face := TrueType "DejaVuSans.ttf" 80; ident := O |}, one, 80), 1%nat).
Proof.
  destruct (fonts_are_tried_in_order (backend := Examples.with_dejavu)
              ["arial.ttf"; "Arial.ttf"]%string
              ["Verdana.ttf"; "times.ttf"; "Times New Roman.ttf"]%string
              "DejaVuSans.ttf" 80 O eq_refl) as [H _].
  - intros earlier [<-|[<-|[]]]; reflexivity.
  - apply H. reflexivity.
Defined.

(** X21: in repeat mode without rotation, a step of the grid that is not
    positive.  A row step below zero, or a column step below zero under
    a positive row step, leaves the loops empty: nothing is drawn and
    the picture is saved as it was.  A row step of zero, or a column
    step of zero under a positive row step, makes [range] raise
    ValueError: nothing is saved and the handler takes over. *)
Theorem negative_step_draws_nothing {backend : Imaging} (input_path output_path : string)
    (a : watermark_args) (h0 h1 : heap) (src : picture rgb) (fs fs' tw th al s : Z)
    (f : font) (r : float) :
  decode input_path = Ok src ->
  writable output_path = true ->
  repeat a = true -> angle a = 0 ->
  resolve_font_size (width src) (height src) a = Ok fs ->
  select_font fs h0 = (Ok (f, r, fs'), h1) ->
  textsize (font_face f) (watermark_text a) = (tw, th) ->
  text_alpha (opacity a) = Ok al ->
  adjust_spacing a fs' = Ok s ->
  - th < height src -> - tw < width src ->
  (s + th < 0 \/ (0 < s + th /\ s + tw < 0) ->
   exists h' outcome out,
     watermark_ops (width src) (height src) a h0 = (Ok ([], s), h') /\
     add_watermark input_path output_path a h0 = (outcome, Some out, h') /\
     (print (AddedWatermark output_path) = Ok tt -> outcome = Ok true) /\
     same_picture out src)
  /\ (s + th = 0 \/ (0 < s + th /\ s + tw = 0) ->
      exists h',
        watermark_ops (width src) (height src) a h0 = (Raise ValueError, h') /\
        add_watermark input_path output_path a h0 =
          (report_failure input_path ValueError, None, h')).
Proof.
  intros Hd Hw Hrep Hang Er Es Et Ea Esp Hth Htw.
  pose proof (watermark_ops_prepared _ _ a h0 h1 fs fs' tw th al s f r Er Es Et Ea Esp)
    as Prep.
  cbv zeta in Prep. rewrite Hrep, Hang in Prep. cbn [Z.eqb negb] in Prep.
  unfold grid, bind at 1 in Prep.
  split.
  - intros Hneg.
    assert (Eo : watermark_ops (width src) (height src) a h0 = (Ok ([], s), S h1)).
    { rewrite Prep.
      destruct Hneg as [Hrow|[Hrow Hcol]].
      - rewrite tile_no_rows; [reflexivity|].
        apply range_negative_step_empty; lia.
      - erewrite tile_no_columns; [reflexivity| |].
        + apply range_positive_step. exact Hrow.
        + apply range_negative_step_empty; lia. }
    exists (S h1), (report_success input_path output_path), (finished src []).
    split; [exact Eo|]. split; [exact (add_watermark_saves _ _ _ _ _ _ _ _ Hd Hw Eo)|].
    split; [apply report_success_printed|].
    apply finished_transparent. constructor.
  - intros Hzero.
    assert (Eo : watermark_ops (width src) (height src) a h0 = (Raise ValueError, S h1)).
    { rewrite Prep.
      destruct Hzero as [Hrow|[Hrow Hcol]].
      - rewrite Hrow. reflexivity.
      - rewrite Hcol. rewrite tile_zero_column_step; [reflexivity|exact Hrow|lia]. }
    exists (S h1). split; [exact Eo|].
    exact (add_watermark_gives_up _ _ _ _ _ _ _ Hd Eo).
Qed.

Lemma negative_step_draws_nothing_witness :
  (exists h' out,
     watermark_ops (backend := Examples.bare) 200 100
       (Examples.call None Examples.half 36 true (-40) 0 None) O = (Ok ([], -40), h') /\
     add_watermark (backend := Examples.bare) "in.jpg" "out.jpg"
       (Examples.call None Examples.half 36 true (-40) 0 None) O =
       (Ok true, Some out, h') /\
     same_picture out (Reference.grey 200 100))
  /\ (exists h',
        add_watermark (backend := Examples.bare) "in.jpg" "out.jpg"
          (Examples.call None Examples.half 36 true (-11) 0 None) O =
          (Ok false, None, h')).
Proof.
  split.
  - destruct (negative_step_draws_nothing (backend := Examples.bare) "in.jpg" "out.jpg"
                (Examples.call None Examples.half 36 true (-40) 0 None) O 1%nat
                (Reference.grey 200 100) 36 36 12 11 127 (-40)
                (Examples.builtin_font 0) one) as [H _]; try reflexivity.
    destruct H as (h' & outcome & out & Eo & Erun & Hp & Hs); [left; reflexivity|].
    rewrite (Hp eq_refl) in Erun.
    exists h', out. split; [exact Eo|]. split; [exact Erun|exact Hs].
  - destruct (negative_step_draws_nothing (backend := Examples.bare) "in.jpg" "out.jpg"
                (Examples.call None Examples.half 36 true (-11) 0 None) O 1%nat
                (Reference.grey 200 100) 36 36 12 11 127 (-11)
                (Examples.builtin_font 0) one) as [_ H]; try reflexivity.
    destruct H as (h' & _ & Erun); [left; reflexivity|].
    exists h'. exact Erun.
Defined.

(** X22: in repeat mode without rotation, with both steps positive, the
    number of texts drawn is the number of rows times the number of
    columns: every row holds as many texts as the first. *)
Theorem grid_mode_draws_rows_times_columns {backend : Imaging} (W H : Z)
    (a : watermark_args) (h0 h1 : heap) (fs fs' tw th al s : Z) (f : font) (r : float) :
  repeat a = true -> angle a = 0 ->
  resolve_font_size W H a = Ok fs ->
  select_font fs h0 = (Ok (f, r, fs'), h1) ->
  textsize (font_face f) (watermark_text a) = (tw, th) ->
  text_alpha (opacity a) = Ok al ->
  adjust_spacing a fs' = Ok s ->
  0 < s + tw -> 0 < s + th ->
  exists ops h',
    watermark_ops W H a h0 = (Ok (ops, s), h') /\
    Z.of_nat (List.length ops) =
    Z.max 0 ((H + th + (s + th) - 1) / (s + th)) *
    Z.max 0 ((W + tw + (s + tw) - 1) / (s + tw)).
Proof.
  intros Hrep Hang Er Es Et Ea Esp Hw Hh.
  destruct (watermark_ops_grid W H a h0 h1 fs fs' tw th al s f r
              Hrep Hang Er Es Et Ea Esp Hw Hh) as [h2 E].
  eexists _, h2. split; [exact E|]. rewrite List.length_map.
  unfold staggered_grid.
  rewrite (length_flat_map_rows _ (count (- tw) W (s + tw))).
  - rewrite List.length_seq, Nat2Z.inj_mul. unfold count.
    rewrite !ZifyInst.of_nat_to_nat_eq. f_equal; f_equal; f_equal; lia.
  - intros i. cbv zeta. rewrite List.length_map, List.length_seq. reflexivity.
Qed.

(** A 200 x 100 canvas, the text 12 x 11, spacing 100: one row of two. *)
Lemma grid_mode_draws_rows_times_columns_witness :
  exists ops h',
    watermark_ops (backend := Examples.bare) 200 100 Examples.tiled O =
      (Ok (ops, 100), h') /\
    Z.of_nat (List.length ops) = 1 * 2.
Proof.
  apply (grid_mode_draws_rows_times_columns (backend := Examples.bare) 200 100
           Examples.tiled O 1%nat 36 36 12 11 127 100 (Examples.builtin_font 0) one);
    reflexivity.
Defined.

(** X23: for an opacity that is a normal double above 0 and not above 1,
    the alpha of the ink, [int(255 * opacity)], lies between 0 and 255. *)
Theorem opacity_up_to_one_gives_a_byte (m : positive) (e : Z) :
  Zpos (digits2_pos m) = 53 -> -1074 <= e ->
  Float.ltb (of_Z 1) (S754_finite false m e) = false ->
  exists al, text_alpha (S754_finite false m e) = Ok al /\ 0 <= al <= 255.
Proof. apply AlphaFacts.text_alpha_unit. Qed.

(** The default opacity 0.45 gives the alpha 114. *)
Lemma opacity_up_to_one_gives_a_byte_witness :
  exists al, text_alpha DEFAULT_WATERMARK_OPACITY = Ok al /\ 0 <= al <= 255.
Proof.
  apply (opacity_up_to_one_gives_a_byte 8106479329266893 (-54)); [reflexivity|lia|reflexivity].
Defined.
